(** * gitpull: a shallow embedding of [src/src/gitpull/core.py] and
    [src/src/gitpull/cli.py].

    Conventions of the model:
    - a Python [str] is a [string], one [ascii] per character: the
      characters are the code points below 256;
    - the locale encoding is UTF-8: a file holds [bytes], either the text
      it decodes to ([BText]) or bytes that are not valid UTF-8
      ([BUndecodable]); [open(p, 'w')] stores the encoding of the text,
      [open(p, 'r')] decodes it and translates universal newlines;
    - paths are resolved component by component (no symbolic links);
      relative paths are resolved from the working directory, whose
      absolute location is not modelled: relative and absolute paths live
      in two separate name spaces;
    - standard input is the list of the lines still to be read, each
      already decoded; when they are exhausted, [input()] raises
      [EOFError], or [KeyboardInterrupt] when the user presses Ctrl-C
      instead;
    - a Ctrl-C at another point, or any other failure of a remote call, is
      part of the outcome of that call ([HRaise]).
    Python exceptions are the inductive [exc]. *)

From Stdlib Require Import ZArith Ascii.
From stdpp Require Import base gmap sets list strings.

Local Open Scope Z_scope.

(* ================================================================== *)
(** ** Character and string helpers (the [str] methods the code uses) *)

Definition chr (n : nat) : ascii := Ascii.ascii_of_nat n.
Definition LF : ascii := chr 10.
Definition CR : ascii := chr 13.
Definition SLASH : ascii := chr 47.
Definition s_nl : string := String LF EmptyString.

Definition ascii_eqb (a b : ascii) : bool := Ascii.eqb a b.

(** [str.isspace] on one character below 256, which is also the class
    [\s] of [re] and the whitespace of [str.strip()]: tab, LF, VT, FF,
    CR, the four separator controls 28..31, space, NEL (133) and
    NO-BREAK SPACE (160). *)
Definition is_ws (c : ascii) : bool :=
  let n := Ascii.nat_of_ascii c in
  ((9 <=? n)%nat && (n <=? 13)%nat) || ((28 <=? n)%nat && (n <=? 32)%nat)
  || (n =? 133)%nat || (n =? 160)%nat.

(** [s.lstrip()] *)
Fixpoint lstrip (s : string) : string :=
  match s with
  | EmptyString => EmptyString
  | String c s' => if is_ws c then lstrip s' else s
  end.

(** [s.rstrip()] *)
Fixpoint rstrip (s : string) : string :=
  match s with
  | EmptyString => EmptyString
  | String c s' =>
      let r := rstrip s' in
      match r with
      | EmptyString => if is_ws c then EmptyString else String c EmptyString
      | _ => String c r
      end
  end.

(** [s.strip()] *)
Definition strip (s : string) : string := rstrip (lstrip s).

(** [s.rstrip(ch)] for a single character [ch] *)
Fixpoint rstrip_char (ch : ascii) (s : string) : string :=
  match s with
  | EmptyString => EmptyString
  | String c s' =>
      let r := rstrip_char ch s' in
      match r with
      | EmptyString => if ascii_eqb c ch then EmptyString else String c EmptyString
      | _ => String c r
      end
  end.

(** [s.endswith(suf)]: some suffix of [s] is [suf] *)
Fixpoint ends_with (suf s : string) : bool :=
  String.eqb s suf ||
  match s with
  | EmptyString => false
  | String _ s' => ends_with suf s'
  end.

(** [s[:-k]] (for [k <= len s]) *)
Definition drop_last (k : nat) (s : string) : string :=
  String.substring 0 (String.length s - k) s.

(** [s.startswith(p)] and the remainder [s[len(p):]] *)
Fixpoint strip_prefix (p s : string) : option string :=
  match p, s with
  | EmptyString, _ => Some s
  | String a p', String b s' => if ascii_eqb a b then strip_prefix p' s' else None
  | String _ _, EmptyString => None
  end.

Definition starts_with (p s : string) : bool :=
  match strip_prefix p s with Some _ => true | None => false end.

Fixpoint has_slash (s : string) : bool :=
  match s with
  | EmptyString => false
  | String c s' => ascii_eqb c SLASH || has_slash s'
  end.

(** Split at the first ['/']: [s = a ++ "/" ++ b] with [a] slash-free. *)
Fixpoint split_slash (s : string) : option (string * string) :=
  match s with
  | EmptyString => None
  | String c s' =>
      if ascii_eqb c SLASH then Some (EmptyString, s')
      else match split_slash s' with
           | Some (a, b) => Some (String c a, b)
           | None => None
           end
  end.

(** [s.split('/')[0]] *)
Definition first_segment (s : string) : string :=
  match split_slash s with Some (a, _) => a | None => s end.

(* ================================================================== *)
(** ** Python exceptions raised or caught by the code *)

(** The classes the code raises or catches, and the ones that reach it
    from the libraries it calls. The subclass relations the handlers
    depend on: [UnicodeDecodeError] (and the [JSONDecodeError] of
    [json.loads], modelled as [ValueError]) are [ValueError]s,
    [NotImplementedError] is a [RuntimeError], and the six file-system
    errors are [OSError]s. *)
Inductive exc :=
| ValueError (msg : string)
| UnicodeDecodeError (msg : string)
| RuntimeError (msg : string)
| NotImplementedError (msg : string)
| FileNotFoundError (msg : string)
| IsADirectoryError (msg : string)
| NotADirectoryError (msg : string)
| FileExistsError (msg : string)
| PermissionError (msg : string)
| OSError (msg : string)            (* any other [OSError], e.g. [TimeoutError] *)
| BadZipFile (msg : string)
| IndexError (msg : string)
| KeyError (msg : string)
| OtherError (cls msg : string)     (* e.g. [zlib.error], [configparser.Error], [http.client.IncompleteRead] *)
| EOFError
| KeyboardInterrupt
| SystemExit (code : Z).

(** [isinstance(e, OSError)] *)
Definition is_os_error (e : exc) : bool :=
  match e with
  | FileNotFoundError _ | IsADirectoryError _ | NotADirectoryError _
  | FileExistsError _ | PermissionError _ | OSError _ => true
  | _ => false
  end.

(* ================================================================== *)
(** ** Reference parsers (core.py, [parse_repo_arg], [parse_github_url]) *)

(** The regex [^([^/]+)/([^/]+)$]: the first group is everything up to
    the first slash, the second the (slash-free, non-empty) rest. *)
Definition match_owner_repo (t : string) : option (string * string) :=
  match split_slash t with
  | Some (a, b) =>
      match a, b with
      | EmptyString, _ | _, EmptyString => None
      | _, _ => if has_slash b then None else Some (a, b)
      end
  | None => None
  end.

(** [^https?://github\.com/([^/]+)/([^/]+)$] *)
Definition match_https (t : string) : option (string * string) :=
  match strip_prefix "https://github.com/" t with
  | Some r => match_owner_repo r
  | None =>
      match strip_prefix "http://github.com/" t with
      | Some r => match_owner_repo r
      | None => None
      end
  end.

(** [^github\.com/([^/]+)/([^/]+)$] *)
Definition match_domain (t : string) : option (string * string) :=
  match strip_prefix "github.com/" t with
  | Some r => match_owner_repo r
  | None => None
  end.

(** The two normalisation steps of [parse_repo_arg]:
    [arg.rstrip('/')], then one trailing [.git] removed. *)
Definition normalize_repo_arg (arg : string) : string :=
  let arg1 := rstrip_char SLASH arg in
  if ends_with ".git" arg1 then drop_last 4 arg1 else arg1.

Definition parse_repo_arg (arg : string) : exc + (string * string) :=
  let arg := normalize_repo_arg arg in
  match match_https arg with
  | Some (o, r) => inr (o, r)
  | None =>
      match match_domain arg with
      | Some (o, r) => inr (o, r)
      | None =>
          match match_owner_repo arg with
          | Some (o, r) => inr (o, r)
          | None =>
              inl (ValueError ("Could not parse repository: " +:+ arg +:+ s_nl +:+
                   "Expected format: owner/repo, github.com/owner/repo, or https://github.com/owner/repo"))
          end
      end
  end.

(** [([^/]+?)(?:\.git)?$] after the owner: the lazy group stops at the
    first position where the rest is [""], [".git"], or either of them
    followed by a final newline ([$] also matches before a final
    newline). *)
Definition tail_ok (r : string) : bool :=
  String.eqb r "" || String.eqb r s_nl || String.eqb r ".git" || String.eqb r (".git" +:+ s_nl).

Fixpoint lazy_more (r : string) : option string :=
  if tail_ok r then Some EmptyString
  else match r with
       | EmptyString => None
       | String c r' =>
           if ascii_eqb c SLASH then None
           else match lazy_more r' with Some g => Some (String c g) | None => None end
       end.

Definition lazy_group (r : string) : option string :=
  match r with
  | EmptyString => None
  | String c r' =>
      if ascii_eqb c SLASH then None
      else match lazy_more r' with Some g => Some (String c g) | None => None end
  end.

(** [([^/]+)/([^/]+?)(?:\.git)?$] *)
Definition match_owner_lazy (t : string) : option (string * string) :=
  match split_slash t with
  | Some (EmptyString, _) | None => None
  | Some (a, b) =>
      match lazy_group b with Some g => Some (a, g) | None => None end
  end.

Definition parse_github_url (url : string) : exc + (string * string) :=
  let https :=
    match strip_prefix "https://github.com/" url with
    | Some r => match_owner_lazy r
    | None =>
        match strip_prefix "http://github.com/" url with
        | Some r => match_owner_lazy r
        | None => None
        end
    end in
  match https with
  | Some p => inr p
  | None =>
      match strip_prefix "git@github.com:" url with
      | Some r =>
          match match_owner_lazy r with
          | Some p => inr p
          | None => inl (ValueError ("Could not parse GitHub URL: " +:+ url))
          end
      | None => inl (ValueError ("Could not parse GitHub URL: " +:+ url))
      end
  end.

(* ================================================================== *)
(** ** [os.path] (posixpath) *)

(** [os.path.join(a, b)] *)
Definition path_join (a b : string) : string :=
  if starts_with "/" b then b
  else if String.eqb a "" || ends_with "/" a then a +:+ b
  else a +:+ "/" +:+ b.

(** [p[:p.rfind('/') + 1]] when [p] contains a slash *)
Fixpoint dir_head (p : string) : option string :=
  match p with
  | EmptyString => None
  | String c p' =>
      match dir_head p' with
      | Some h => Some (String c h)
      | None => if ascii_eqb c SLASH then Some (String c EmptyString) else None
      end
  end.

Fixpoint all_slashes (s : string) : bool :=
  match s with
  | EmptyString => true
  | String c s' => ascii_eqb c SLASH && all_slashes s'
  end.

(** [os.path.dirname(p)] *)
Definition dirname (p : string) : string :=
  match dir_head p with
  | None => EmptyString
  | Some h => if all_slashes h then h else rstrip_char SLASH h
  end.

(** Reading a file in text mode ([open(path, 'r')]) translates the
    universal newlines [\r\n] and [\r] to [\n]. *)
Fixpoint univ_nl (s : string) : string :=
  match s with
  | EmptyString => EmptyString
  | String c s' =>
      if ascii_eqb c CR then
        match s' with
        | String c2 s'' =>
            if ascii_eqb c2 LF then String LF (univ_nl s'') else String LF (univ_nl s')
        | EmptyString => String LF EmptyString
        end
      else String c (univ_nl s')
  end.

(* ================================================================== *)
(** ** Path names *)

(** [s.split('/')] *)
Fixpoint split_on_slash (s : string) : list string :=
  match s with
  | EmptyString => [EmptyString]
  | String c s' =>
      if ascii_eqb c SLASH then EmptyString :: split_on_slash s'
      else match split_on_slash s' with
           | x :: xs => String c x :: xs
           | [] => [String c EmptyString]
           end
  end.

(** The components the kernel walks through: empty components (from
    repeated or trailing slashes) are skipped. *)
Definition path_parts (p : string) : list string :=
  filter (fun x => negb (String.eqb x "")) (split_on_slash p).

Definition is_abs (p : string) : bool := starts_with "/" p.

Definition trailing_slash (p : string) : bool := ends_with "/" p.

(** The file-system entries are named by keys: [""] is the working
    directory, ["/"] the root, and the other keys are the resolved
    paths without [.] components, repeated or trailing slashes, and
    without [..] components except a leading run of them (a relative
    path above the working directory). *)
Definition dotdots (k : string) : bool := forallb (String.eqb "..") (split_on_slash k).

Definition key_parent (k : string) : string :=
  if String.eqb k "/" then "/"
  else if String.eqb k "" then ".."
  else if dotdots k then k +:+ "/.."
  else dirname k.

Definition key_child (k c : string) : string :=
  if String.eqb c "." then k
  else if String.eqb c ".." then key_parent k
  else if String.eqb k "" then c
  else if String.eqb k "/" then "/" +:+ c
  else k +:+ "/" +:+ c.

Definition root_key (p : string) : string := if is_abs p then "/" else "".

(** The key a path names. *)
Definition path_key (p : string) : string := fold_left key_child (path_parts p) (root_key p).

(** [os.path.split(p)]: [os.path.dirname(p)] and the text after the last
    slash. *)
Fixpoint basename (p : string) : string :=
  match p with
  | EmptyString => EmptyString
  | String c p' => if has_slash p' then basename p' else if ascii_eqb c SLASH then p' else p
  end.

Definition path_split (p : string) : string * string := (dirname p, basename p).

(* ================================================================== *)
(** ** The world: file system, standard input, and the event log *)

(** The content of a file: the text it decodes to, or bytes that are not
    valid UTF-8. *)
Inductive bytes :=
| BText (s : string)
| BUndecodable.

(** The file system maps keys to files and has a set of directories
    (besides the working directory, the root and the directories above
    the working directory, which always exist). [w_nowrite] and
    [w_noread] are the keys the process may not create or open for
    writing, resp. open for reading ([PermissionError]). *)
Record world := mkWorld {
  w_files : gmap string bytes;
  w_dirs : gset string;
  w_nowrite : gset string;
  w_noread : gset string;
  w_stdin : list string;   (** lines still to be read *)
  w_ctrl_c : bool          (** the user presses Ctrl-C after the last line *)
}.

(** A world with no permission restrictions, whose input ends in EOF. *)
Definition plain_world (files : gmap string bytes) (dirs : gset string) (stdin : list string) : world :=
  mkWorld files dirs ∅ ∅ stdin false.

(** Everything a run does to the outside world, in order. The events
    [EvAskRepo] and [EvCompare] mark two points of the driver (the
    interactive repository prompt, and the comparison of the stored and
    resolved commits); the others are the file-system writes (the path
    as the code spells it), the directories created (one successful
    [os.mkdir] each), reads of standard input, and the remote calls. *)
Inductive event :=
| EvWrite (path : string) (data : bytes)
| EvMakeDirs (path : string)
| EvReadLine (line : option string)
| EvAskRepo
| EvGetDefaultBranch (owner repo : string)
| EvGetBranches (owner repo : string)
| EvSelectBranch
| EvGetCommit (owner repo branch : string)
| EvCompare (previous : option string) (new_sha : string)
| EvDownloadZip (owner repo branch : string)
| EvExtractZip (target : string)
| EvGetTree (owner repo branch : string)
| EvGetBlob (sha : string).

Definition apply_event (w : world) (e : event) : world :=
  match e with
  | EvWrite p d =>
      mkWorld (<[path_key p := d]> (w_files w)) (w_dirs w) (w_nowrite w) (w_noread w) (w_stdin w) (w_ctrl_c w)
  | EvMakeDirs p =>
      mkWorld (w_files w) ({[path_key p]} ∪ w_dirs w) (w_nowrite w) (w_noread w) (w_stdin w) (w_ctrl_c w)
  | EvReadLine (Some _) =>
      mkWorld (w_files w) (w_dirs w) (w_nowrite w) (w_noread w) (tail (w_stdin w)) (w_ctrl_c w)
  | _ => w
  end.

Definition apply_events (d : list event) (w : world) : world := foldl apply_event w d.

(** A computation reads the world and produces the events it performs
    and either an exception or a value; the world seen by the next
    computation is the old one with those events applied. *)
Definition M (A : Type) : Type := world -> list event * (exc + A).

Definition m_ret {A} (a : A) : M A := fun _ => ([], inr a).
Definition m_raise {A} (e : exc) : M A := fun _ => ([], inl e).
Definition m_bind {A B} (m : M A) (f : A -> M B) : M B := fun w =>
  match m w with
  | (d1, inl e) => (d1, inl e)
  | (d1, inr a) => let '(d2, r) := f a (apply_events d1 w) in (d1 ++ d2, r)
  end.
(** [try: m except e: h(e)] *)
Definition m_catch {A} (m : M A) (h : exc -> M A) : M A := fun w =>
  match m w with
  | (d1, inl e) => let '(d2, r) := h e (apply_events d1 w) in (d1 ++ d2, r)
  | (d1, inr a) => (d1, inr a)
  end.
Definition emit (e : event) : M unit := fun _ => ([e], inr tt).
Definition m_lift {A} (r : exc + A) : M A := fun _ => ([], r).

Notation "x <- m ;; k" := (m_bind m (fun x => k))
  (at level 95, m at next level, right associativity).
Notation "m ;;; k" := (m_bind m (fun _ => k)) (at level 95, right associativity).

(* ------------------------------------------------------------------ *)
(** *** The system calls *)

(** The [errno] values the calls can fail with. *)
Inductive fs_err := ENOENT | ENOTDIR | EISDIR | EACCES | EEXIST.

(** The exception of a failed call on path [p] (its [repr] escapes are
    not modelled). *)
Definition os_exc (e : fs_err) (p : string) : exc :=
  let q := "'" +:+ p +:+ "'" in
  match e with
  | ENOENT => FileNotFoundError ("[Errno 2] No such file or directory: " +:+ q)
  | ENOTDIR => NotADirectoryError ("[Errno 20] Not a directory: " +:+ q)
  | EISDIR => IsADirectoryError ("[Errno 21] Is a directory: " +:+ q)
  | EACCES => PermissionError ("[Errno 13] Permission denied: " +:+ q)
  | EEXIST => FileExistsError ("[Errno 17] File exists: " +:+ q)
  end.

Inductive fkind := KDir | KFile (b : bytes) | KMissing.

Definition is_dir_key (w : world) (k : string) : bool :=
  String.eqb k "" || String.eqb k "/" || dotdots k || bool_decide (k ∈ w_dirs w).

Definition kind_of (w : world) (k : string) : fkind :=
  if is_dir_key w k then KDir
  else match w_files w !! k with Some b => KFile b | None => KMissing end.

(** The walk to the last component: every entry walked through must be a
    directory. *)
Fixpoint walk_err (w : world) (k : string) (cs : list string) : option fs_err :=
  match cs with
  | [] => None
  | c :: cs' =>
      match kind_of w k with
      | KDir => walk_err w (key_child k c) cs'
      | KFile _ => Some ENOTDIR
      | KMissing => Some ENOENT
      end
  end.

Definition resolve_err (w : world) (p : string) : option fs_err :=
  if String.eqb p "" then Some ENOENT else walk_err w (root_key p) (path_parts p).

(** [os.stat(p)]: the kind of the entry, [None] when the call fails *)
Definition stat_kind (w : world) (p : string) : option fkind :=
  match resolve_err w p with
  | Some _ => None
  | None =>
      match kind_of w (path_key p) with
      | KDir => Some KDir
      | KFile b => if trailing_slash p then None else Some (KFile b)
      | KMissing => None
      end
  end.

(** [os.path.exists(p)] *)
Definition path_exists (p : string) : M bool := fun w =>
  ([], inr (match stat_kind w p with Some _ => true | None => false end)).

(** [os.path.isdir(p)] *)
Definition path_isdir (p : string) : M bool := fun w =>
  ([], inr (match stat_kind w p with Some KDir => true | _ => false end)).

(** [open(p, 'r')] / [open(p, 'rb')]: the bytes of the file *)
Definition open_read (w : world) (p : string) : exc + bytes :=
  match resolve_err w p with
  | Some e => inl (os_exc e p)
  | None =>
      match kind_of w (path_key p) with
      | KDir => inl (os_exc EISDIR p)
      | KMissing => inl (os_exc ENOENT p)
      | KFile b =>
          if trailing_slash p then inl (os_exc ENOTDIR p)
          else if bool_decide (path_key p ∈ w_noread w) then inl (os_exc EACCES p)
          else inr b
      end
  end.

(** [open(p, 'r').read()] *)
Definition read_text (p : string) : M string := fun w =>
  match open_read w p with
  | inl e => ([], inl e)
  | inr (BText s) => ([], inr (univ_nl s))
  | inr BUndecodable => ([], inl (UnicodeDecodeError "'utf-8' codec can't decode bytes: invalid start byte"))
  end.

(** Why [open(p, 'w')] / [open(p, 'wb')] fails, if it does. *)
Definition open_write_err (w : world) (p : string) : option fs_err :=
  match resolve_err w p with
  | Some e => Some e
  | None =>
      if trailing_slash p then Some EISDIR
      else match kind_of w (path_key p) with
           | KDir => Some EISDIR
           | _ => if bool_decide (path_key p ∈ w_nowrite w) then Some EACCES else None
           end
  end.

(** [with open(p, 'wb') as f: f.write(b)]: opening truncates the file,
    and the write stores [b]. *)
Definition write_bytes (p : string) (b : bytes) : M unit := fun w =>
  match open_write_err w p with
  | Some e => ([], inl (os_exc e p))
  | None => ([EvWrite p b], inr tt)
  end.

(** [with open(p, 'w') as f: f.write(s)] *)
Definition write_file (p s : string) : M unit := write_bytes p (BText s).

(** [os.mkdir(p)] *)
Definition mkdir (p : string) : M unit := fun w =>
  match resolve_err w p with
  | Some e => ([], inl (os_exc e p))
  | None =>
      match kind_of w (path_key p) with
      | KMissing =>
          if bool_decide (path_key p ∈ w_nowrite w) then ([], inl (os_exc EACCES p))
          else ([EvMakeDirs p], inr tt)
      | _ => ([], inl (os_exc EEXIST p))
      end
  end.

(** The last step of [os.makedirs]:
    [try: mkdir(name) except OSError: if not exist_ok or not path.isdir(name): raise] *)
Definition mkdir_step (exist_ok : bool) (name : string) : M unit :=
  m_catch (mkdir name)
    (fun e => if is_os_error e
              then d <- path_isdir name ;; if exist_ok && d then m_ret tt else m_raise e
              else m_raise e).

(** [os.makedirs(name, exist_ok)] (posixpath). The recursion is on
    [head], strictly shorter than [name]: with [fuel] at least the length
    of [name], the [fuel = 0] case is only reached for [name = ""],
    where it does what the general case does. *)
Fixpoint makedirs_rec (fuel : nat) (exist_ok : bool) (name : string) : M unit :=
  match fuel with
  | O => mkdir_step exist_ok name
  | S f =>
      let '(head, tail) :=
        let '(head, tail) := path_split name in
        if String.eqb tail "" then path_split head else (head, tail) in
      if negb (String.eqb head "") && negb (String.eqb tail "") then
        ex <- path_exists head ;;
        if negb ex then
          m_catch (makedirs_rec f exist_ok head)
            (fun e => match e with FileExistsError _ => m_ret tt | e => m_raise e end) ;;;
          (if String.eqb tail "." then m_ret tt else mkdir_step exist_ok name)
        else mkdir_step exist_ok name
      else mkdir_step exist_ok name
  end.

Definition makedirs (exist_ok : bool) (name : string) : M unit :=
  makedirs_rec (String.length name) exist_ok name.

(** [input()] *)
Definition read_line : M string := fun w =>
  match w_stdin w with
  | [] => ([EvReadLine None], inl (if w_ctrl_c w then KeyboardInterrupt else EOFError))
  | l :: _ => ([EvReadLine (Some l)], inr l)
  end.

(* ================================================================== *)
(** ** Sync state store (core.py lines 112-147) *)

Definition GITPULL_FILE : string := ".gitpull".
Definition VERSION_FILE : string := ".gitpull.version".

Definition read_version_file (directory : string) : M (option string) :=
  let version_path := path_join directory VERSION_FILE in
  ex <- path_exists version_path ;;
  if negb ex then m_ret None
  else c <- read_text version_path ;;
       let sha := strip c in
       m_ret (if String.eqb sha "" then None else Some sha).

Definition write_version_file (sha directory : string) : M unit :=
  write_file (path_join directory VERSION_FILE) (sha +:+ s_nl).

Definition read_gitpull_file (directory : string) : M (option string) :=
  let gitpull_path := path_join directory GITPULL_FILE in
  ex <- path_exists gitpull_path ;;
  if negb ex then m_ret None
  else c <- read_text gitpull_path ;;
       let url := strip c in
       m_ret (if String.eqb url "" then None else Some url).

Definition write_gitpull_file (url directory : string) : M unit :=
  write_file (path_join directory GITPULL_FILE) (url +:+ s_nl).

(** [str(n)] for a Python [int] *)
Fixpoint dec_digits (fuel : nat) (n : N) (acc : string) : string :=
  match fuel with
  | O => acc
  | S f =>
      let acc' := String (chr (48 + N.to_nat (n mod 10))) acc in
      if (n <? 10)%N then acc' else dec_digits f (n / 10)%N acc'
  end.

Definition string_of_Z (z : Z) : string :=
  if z <? 0 then "-" +:+ dec_digits (S (N.size_nat (Z.to_N (- z)))) (Z.to_N (- z)) ""
  else dec_digits (S (N.size_nat (Z.to_N z))) (Z.to_N z) "".

(* ================================================================== *)
(** ** [int()] on a string *)

Definition UNDERSCORE : ascii := chr 95.

Definition digit_val (c : ascii) : option Z :=
  let n := Ascii.nat_of_ascii c in
  if (48 <=? n)%nat && (n <=? 57)%nat then Some (Z.of_nat n - 48) else None.

(** Decimal digits with single [_] separators between digits; [prev]
    tells whether the previous character was a digit. *)
Fixpoint digits_us (s : string) (acc : Z) (prev : bool) : option Z :=
  match s with
  | EmptyString => if prev then Some acc else None
  | String c s' =>
      match digit_val c with
      | Some d => digits_us s' (10 * acc + d) true
      | None => if ascii_eqb c UNDERSCORE && prev then digits_us s' acc false else None
      end
  end.

(** [int(s)]: surrounding whitespace, an optional sign, and decimal
    digits with [_] separators. *)
Definition py_int (s : string) : option Z :=
  let t := strip s in
  match t with
  | EmptyString => None
  | String c t' =>
      if ascii_eqb c (chr 43) then digits_us t' 0 false
      else if ascii_eqb c (chr 45) then option_map Z.opp (digits_us t' 0 false)
      else digits_us t 0 false
  end.

(* ================================================================== *)
(** ** The remote collaborators *)

(** Outcome of one [urllib.request.urlopen] call and the decoding of its
    body: a value, an [HTTPError] (code, reason), a [URLError], or any
    other exception raised while the response is read and decoded (a
    [TimeoutError] or [ConnectionResetError] of the socket, an
    [IncompleteRead], the [ValueError] of [json.loads] on a body that is
    not JSON, the [KeyError] of a missing field, a [KeyboardInterrupt]),
    which the code does not catch. *)
Inductive http (A : Type) :=
| HOk (a : A)
| HHTTPError (code : Z) (reason : string)
| HURLError (reason : string)
| HRaise (e : exc).
Arguments HOk {A} a.
Arguments HHTTPError {A} code reason.
Arguments HURLError {A} reason.
Arguments HRaise {A} e.

(** Reading one archive entry with [zf.open(member)] and copying it to
    the target: the whole content; or a copy that raises after writing
    [written] (a bad CRC-32: [BadZipFile]; corrupt data: [zlib.error]);
    or an entry [zf.open] refuses before the target is opened (an
    unsupported compression method: [NotImplementedError]; an encrypted
    entry: [RuntimeError]). *)
Inductive member_data :=
| MData (content : bytes)
| MBroken (written : bytes) (e : exc)
| MUnopenable (e : exc).

(** One entry of a zip archive. *)
Record zip_member := mkMember { zm_filename : string; zm_data : member_data }.

(** A downloaded archive: [None] when it is not a readable zip file. *)
Definition zip_file : Type := option (list zip_member).

(** One item of the recursive tree listing: the fields [path], [type]
    and [sha] of the JSON object, [None] when absent. *)
Record tree_item := mkItem { ti_path : option string; ti_type : option string; ti_sha : option string }.

(** The GitHub endpoints the code calls, as functions of their
    parameters. [r_branch_pages] lists the responses to [page=1],
    [page=2], ...; every page past the list is an empty page. *)
Record remote := mkRemote {
  r_repo_info : string -> string -> http string;        (** [data['default_branch']] *)
  r_branch_pages : string -> string -> list (http (list string));
  r_commit : string -> string -> string -> http string;  (** [data['sha']] *)
  r_zip : string -> string -> string -> http zip_file;
  r_tree : string -> string -> string -> http (list tree_item);
  r_blob : string -> string -> string -> http bytes      (** decoded content *)
}.

(** What [configparser] makes of a [.git/config] text: an exception
    (a [configparser.Error] of [config.read] on a malformed file, or of
    [config.get] on a bad interpolation), no section [remote "origin"],
    or the [url] option of that section ([None] when absent). *)
Inductive config_result :=
| CfgRaise (e : exc)
| CfgNoSection
| CfgUrl (url : option string).

Section Gitpull.

Variable R : remote.

Variable git_config : string -> config_result.

(* ------------------------------------------------------------------ *)
(** *** Remote metadata fetcher (core.py lines 197-269) *)

Definition get_default_branch (owner repo : string) : M string :=
  emit (EvGetDefaultBranch owner repo) ;;;
  match r_repo_info R owner repo with
  | HOk b => m_ret b
  | HHTTPError code reason =>
      if code =? 404
      then m_raise (ValueError ("Repository " +:+ owner +:+ "/" +:+ repo +:+ " not found (or is private)"))
      else m_raise (RuntimeError ("GitHub API error: " +:+ string_of_Z code +:+ " " +:+ reason))
  | HURLError reason => m_raise (RuntimeError ("Network error: " +:+ reason))
  | HRaise e => m_raise e
  end.

Definition per_page : nat := 100.

Fixpoint branches_loop (owner repo : string) (pages : list (http (list string)))
    (branches : list string) : M (list string) :=
  match pages with
  | [] => m_ret branches
  | page :: rest =>
      match page with
      | HOk data =>
          match data with
          | [] => m_ret branches
          | _ =>
              let branches := branches ++ data in
              if (length data <? per_page)%nat then m_ret branches
              else branches_loop owner repo rest branches
          end
      | HHTTPError code reason =>
          if code =? 404
          then m_raise (ValueError ("Repository " +:+ owner +:+ "/" +:+ repo +:+ " not found (or is private)"))
          else m_raise (RuntimeError ("GitHub API error: " +:+ string_of_Z code +:+ " " +:+ reason))
      | HURLError reason => m_raise (RuntimeError ("Network error: " +:+ reason))
      | HRaise e => m_raise e
      end
  end.

Definition get_branches (owner repo : string) : M (list string) :=
  emit (EvGetBranches owner repo) ;;;
  branches_loop owner repo (r_branch_pages R owner repo) [].

Definition get_latest_commit_sha (owner repo branch : string) : M string :=
  emit (EvGetCommit owner repo branch) ;;;
  match r_commit R owner repo branch with
  | HOk sha => m_ret sha
  | HHTTPError code reason =>
      if code =? 404
      then m_raise (ValueError ("Branch " +:+ branch +:+ " not found in " +:+ owner +:+ "/" +:+ repo))
      else m_raise (RuntimeError ("GitHub API error: " +:+ string_of_Z code +:+ " " +:+ reason))
  | HURLError reason => m_raise (RuntimeError ("Network error: " +:+ reason))
  | HRaise e => m_raise e
  end.

(* ------------------------------------------------------------------ *)
(** *** Archive materializer (core.py lines 272-353) *)

(** The temporary file of [download_zip] lives outside the target
    directory and is not modelled; the archive is returned directly.
    Only [HTTPError] and [URLError] are turned into [RuntimeError]. *)
Definition download_zip (owner repo branch : string) : M zip_file :=
  emit (EvDownloadZip owner repo branch) ;;;
  match r_zip R owner repo branch with
  | HOk z => m_ret z
  | HHTTPError code reason =>
      m_raise (RuntimeError ("Failed to download zip: HTTP Error " +:+ string_of_Z code +:+ ": " +:+ reason))
  | HURLError reason =>
      m_raise (RuntimeError ("Failed to download zip: <urlopen error " +:+ reason +:+ ">"))
  | HRaise e => m_raise e
  end.

(** [ZipInfo.is_dir()] *)
Definition is_dir_name (name : string) : bool := ends_with "/" name.

(** [parent_dir = os.path.dirname(p); if parent_dir: os.makedirs(parent_dir, exist_ok=True)] *)
Definition ensure_parent (target_path : string) : M unit :=
  let parent_dir := dirname target_path in
  if String.eqb parent_dir "" then m_ret tt else makedirs true parent_dir.

(** [with zf.open(member) as source: with open(target_path, 'wb') as
    target: shutil.copyfileobj(source, target)] *)
Definition copy_member (target_path : string) (data : member_data) : M unit :=
  match data with
  | MData content => write_bytes target_path content
  | MBroken written e => write_bytes target_path written ;;; m_raise e
  | MUnopenable e => m_raise e
  end.

(** The [for member in zf.infolist()] loop, with its two counters. *)
Fixpoint extract_members (target_dir root_folder : string) (members : list zip_member)
    (extracted_count skipped_count : nat) : M (nat * nat) :=
  match members with
  | [] => m_ret (extracted_count, skipped_count)
  | member :: rest =>
      let name := zm_filename member in
      if String.eqb name root_folder
      then extract_members target_dir root_folder rest extracted_count skipped_count
      else
        match strip_prefix root_folder name with
        | None => extract_members target_dir root_folder rest extracted_count skipped_count
        | Some relative_path =>
            if String.eqb relative_path ""
            then extract_members target_dir root_folder rest extracted_count skipped_count
            else if starts_with ".git/" relative_path || String.eqb relative_path ".git"
            then extract_members target_dir root_folder rest extracted_count (S skipped_count)
            else
              let target_path := path_join target_dir relative_path in
              if is_dir_name name
              then makedirs true target_path ;;;
                   extract_members target_dir root_folder rest extracted_count skipped_count
              else ensure_parent target_path ;;;
                   copy_member target_path (zm_data member) ;;;
                   extract_members target_dir root_folder rest (S extracted_count) skipped_count
        end
  end.

(** [extract_zip]; the result is the pair of counts it prints
    ("Extracted N files", "Skipped N .git entries"). *)
Definition extract_zip (zf : zip_file) (target_dir : string) : M (nat * nat) :=
  emit (EvExtractZip target_dir) ;;;
  match zf with
  | None => m_raise (BadZipFile "File is not a zip file")
  | Some members =>
      match map zm_filename members with
      | [] => m_raise (ValueError "Empty zip archive")
      | first :: _ =>
          let root_folder := first_segment first +:+ "/" in
          extract_members target_dir root_folder members 0 0
      end
  end.

(* ------------------------------------------------------------------ *)
(** *** Per-file materializer (core.py lines 356-443) *)

Definition get_repo_tree (owner repo branch : string) : M (list tree_item) :=
  emit (EvGetTree owner repo branch) ;;;
  match r_tree R owner repo branch with
  | HOk tree => m_ret tree
  | HHTTPError code reason =>
      if code =? 404
      then m_raise (ValueError ("Repository or branch not found: " +:+ owner +:+ "/" +:+ repo +:+ "@" +:+ branch))
      else m_raise (RuntimeError ("GitHub API error: " +:+ string_of_Z code +:+ " " +:+ reason))
  | HURLError reason => m_raise (RuntimeError ("Network error: " +:+ reason))
  | HRaise e => m_raise e
  end.

Definition get_blob_content (owner repo sha : string) : M bytes :=
  emit (EvGetBlob sha) ;;;
  match r_blob R owner repo sha with
  | HOk content => m_ret content
  | HHTTPError code reason =>
      m_raise (RuntimeError ("Failed to fetch blob " +:+ sha +:+ ": " +:+ string_of_Z code +:+ " " +:+ reason))
  | HURLError reason => m_raise (RuntimeError ("Network error: " +:+ reason))
  | HRaise e => m_raise e
  end.

(** [item[key]] *)
Definition item_field (key : string) (v : option string) : exc + string :=
  match v with Some s => inr s | None => inl (KeyError ("'" +:+ key +:+ "'")) end.

(** The condition of the list comprehension of [download_via_api]:
    [item['type'] == 'blob' and not item['path'].startswith('.git/') and
    item['path'] != '.git'], evaluated left to right. *)
Definition is_wanted_file (item : tree_item) : exc + bool :=
  match item_field "type" (ti_type item) with
  | inl e => inl e
  | inr ty =>
      if String.eqb ty "blob" then
        match item_field "path" (ti_path item) with
        | inl e => inl e
        | inr p => inr (negb (starts_with ".git/" p) && negb (String.eqb p ".git"))
        end
      else inr false
  end.

Fixpoint filter_wanted (tree : list tree_item) : exc + list tree_item :=
  match tree with
  | [] => inr []
  | item :: rest =>
      match is_wanted_file item with
      | inl e => inl e
      | inr b =>
          match filter_wanted rest with
          | inl e => inl e
          | inr fs => inr (if b then item :: fs else fs)
          end
      end
  end.

Fixpoint download_files (owner repo target_dir : string) (files : list tree_item)
    (downloaded_count : nat) : M nat :=
  match files with
  | [] => m_ret downloaded_count
  | item :: rest =>
      path <- m_lift (item_field "path" (ti_path item)) ;;
      sha <- m_lift (item_field "sha" (ti_sha item)) ;;
      let target_path := path_join target_dir path in
      ensure_parent target_path ;;;
      content <- get_blob_content owner repo sha ;;
      write_bytes target_path content ;;;
      download_files owner repo target_dir rest (S downloaded_count)
  end.

(** [download_via_api]; the Python function returns [None], the result
    here is the count it prints ("Downloaded N files"). *)
Definition download_via_api (owner repo branch target_dir : string) : M nat :=
  tree <- get_repo_tree owner repo branch ;;
  files <- m_lift (filter_wanted tree) ;;
  download_files owner repo target_dir files 0.

(* ------------------------------------------------------------------ *)
(** *** Local git configuration (core.py lines 150-169) *)

(** [config.read] skips a file it cannot open ([OSError]); a file it
    cannot decode raises. *)
Definition get_remote_url : M string :=
  let git_config_path := path_join ".git" "config" in
  ex <- path_exists git_config_path ;;
  if negb ex then m_raise (FileNotFoundError "Not a git repository (no .git/config found)")
  else
    cfg <- m_catch (text <- read_text git_config_path ;; m_ret (git_config text))
             (fun e => if is_os_error e then m_ret CfgNoSection else m_raise e) ;;
    match cfg with
    | CfgRaise e => m_raise e
    | CfgNoSection => m_raise (ValueError "No 'origin' remote found in .git/config")
    | CfgUrl None => m_raise (ValueError "No URL found for 'origin' remote")
    | CfgUrl (Some url) =>
        if String.eqb url "" then m_raise (ValueError "No URL found for 'origin' remote")
        else m_ret url
    end.

(* ------------------------------------------------------------------ *)
(** *** Interactive branch selection (cli.py lines 27-70) *)

Fixpoint insert_sorted (x : string) (l : list string) : list string :=
  match l with
  | [] => [x]
  | y :: l' => if String.leb x y then x :: l else y :: insert_sorted x l'
  end.

(** [sorted(l)] on strings (code-point order) *)
Definition sort_strings (l : list string) : list string := foldr insert_sorted [] l.

(** [str.lower] on one character below 256: the Latin-1 capitals
    [A..Z], [\xc0..\xd6] and [\xd8..\xde] *)
Definition lower_char (c : ascii) : ascii :=
  let n := Ascii.nat_of_ascii c in
  if ((65 <=? n)%nat && (n <=? 90)%nat) || ((192 <=? n)%nat && (n <=? 214)%nat)
     || ((216 <=? n)%nat && (n <=? 222)%nat)
  then chr (n + 32) else c.

(** [s.lower()] *)
Fixpoint lower (s : string) : string :=
  match s with
  | EmptyString => EmptyString
  | String c s' => String (lower_char c) (lower s')
  end.

(** [try: choice = input(...).strip() except EOFError: ...] *)
Definition read_choice : M (option string) :=
  m_catch (l <- read_line ;; m_ret (Some l))
    (fun e => match e with EOFError => m_ret None | e => m_raise e end).

(** The [while True] prompt loop; [fuel] bounds the number of lines read
    (each round reads one line or ends the loop). *)
Fixpoint select_loop (fuel : nat) (branches sorted_branches : list string) : M (option string) :=
  match fuel with
  | O => m_ret None
  | S fuel =>
      line <- read_choice ;;
      match line with
      | None => m_ret None
      | Some raw =>
          let choice := strip raw in
          if String.eqb choice "" then
            match sorted_branches with
            | [] => m_raise (IndexError "list index out of range")
            | b :: _ => m_ret (Some b)
            end
          else if String.eqb (lower choice) "q" then m_ret None
          else match py_int choice with
               | Some num =>
                   if (1 <=? num) && (num <=? Z.of_nat (length sorted_branches))
                   then m_ret (nth_error sorted_branches (Z.to_nat (num - 1)))
                   else select_loop fuel branches sorted_branches
               | None =>
                   if existsb (String.eqb choice) branches then m_ret (Some choice)
                   else select_loop fuel branches sorted_branches
               end
      end
  end.

Definition select_branch (branches : list string) (default_branch : option string) : M (option string) :=
  let sorted_branches :=
    match default_branch with
    | Some d =>
        if negb (String.eqb d "") && existsb (String.eqb d) branches
        then d :: filter (fun b => negb (String.eqb b d)) (sort_strings branches)
        else sort_strings branches
    | None => sort_strings branches
    end in
  emit EvSelectBranch ;;;
  (fun w => select_loop (S (length (w_stdin w))) branches sorted_branches w).

(* ------------------------------------------------------------------ *)
(** *** Reconciliation driver ([main], cli.py lines 138-349) *)

(** The parsed command line. [--version] and [--bump] return before the
    [try] block of [main] and are not part of the driver. *)
Record cli_args := mkArgs {
  a_repo : option string;
  a_init : option string;
  a_fallback : bool;
  a_branch : option string
}.

(** Python truthiness of an optional string argument *)
Definition truthy (o : option string) : option string :=
  match o with Some s => if String.eqb s "" then None else Some s | None => None end.

(** [if args.branch and args.branch != '?'] *)
Definition explicit_branch (b : option string) : option string :=
  match b with
  | Some s => if String.eqb s "" || String.eqb s "?" then None else Some s
  | None => None
  end.

(** The branch-selection block (cli.py lines 159-178 and 275-294);
    [None] is the "Aborted." exit of the selection. *)
Definition resolve_branch (owner repo : string) (branch_opt : option string)
    (default_branch : string) : M (option string) :=
  match explicit_branch branch_opt with
  | Some branch => m_ret (Some branch)
  | None =>
      branches <- get_branches owner repo ;;
      if (1 <? length branches)%nat then select_branch branches (Some default_branch)
      else m_ret (Some default_branch)
  end.

(** [if previous_sha: ... if previous_sha == new_sha: return] *)
Definition up_to_date (previous_sha : option string) (new_sha : string) : bool :=
  match previous_sha with
  | Some p => negb (String.eqb p "") && String.eqb p new_sha
  | None => false
  end.

(** The [if args.fallback: ... else: ...] block of both modes. The
    [except RuntimeError] around [download_zip] (which also catches its
    subclass [NotImplementedError]) prints a tip and calls
    [sys.exit(1)]. *)
Definition materialize (fallback : bool) (owner repo branch target_dir : string) : M unit :=
  if fallback then download_via_api owner repo branch target_dir ;;; m_ret tt
  else
    zp <- m_catch (download_zip owner repo branch)
            (fun e => match e with
                      | RuntimeError _ | NotImplementedError _ => m_raise (SystemExit 1)
                      | e => m_raise e
                      end) ;;
    extract_zip zp target_dir ;;; m_ret tt.

Definition github_url (owner repo : string) : string :=
  "https://github.com/" +:+ owner +:+ "/" +:+ repo.

(** Clone mode ([if args.repo:], cli.py lines 147-230) *)
Definition clone_mode (repo_arg : string) (fallback : bool) (branch_opt : option string) : M unit :=
  p <- m_lift (parse_repo_arg repo_arg) ;;
  let (owner, repo) := p in
  let target_dir := repo in
  dir_exists <- path_exists target_dir ;;
  default_branch <- get_default_branch owner repo ;;
  b <- resolve_branch owner repo branch_opt default_branch ;;
  match b with
  | None => m_ret tt
  | Some branch =>
      new_sha <- get_latest_commit_sha owner repo branch ;;
      previous_sha <- (if dir_exists then read_version_file target_dir else m_ret None) ;;
      emit (EvCompare previous_sha new_sha) ;;;
      if up_to_date previous_sha new_sha then m_ret tt
      else
        (if dir_exists then m_ret tt else makedirs false target_dir) ;;;
        materialize fallback owner repo branch target_dir ;;;
        write_gitpull_file (github_url owner repo) target_dir ;;;
        write_version_file new_sha target_dir
  end.

(** The answer to the "GitHub repo: " prompt: [None] on [EOFError]
    ("Aborted." and [sys.exit(1)]). *)
Definition read_repo_answer : M string :=
  m_catch read_line
    (fun e => match e with EOFError => m_raise (SystemExit 1) | e => m_raise e end).

(** Where update mode finds the repository (cli.py lines 234-265):
    the [.gitpull] record, else [.git/config], else a prompt whose
    answer is saved as the [.gitpull] record. *)
Definition locate_origin : M string :=
  gitpull_url <- read_gitpull_file "." ;;
  match gitpull_url with
  | Some url => m_ret url
  | None =>
      is_git <- path_isdir ".git" ;;
      if is_git then get_remote_url
      else
        emit EvAskRepo ;;;
        raw <- read_repo_answer ;;
        let user_input := strip raw in
        if String.eqb user_input "" then m_raise (SystemExit 1)
        else
          p <- m_lift (parse_repo_arg user_input) ;;
          let remote_url := github_url (fst p) (snd p) in
          write_gitpull_file remote_url "." ;;;
          m_ret remote_url
  end.

(** Update mode (cli.py lines 232-336) *)
Definition update_mode (fallback : bool) (branch_opt : option string) : M unit :=
  remote_url <- locate_origin ;;
  p <- m_lift (parse_github_url remote_url) ;;
  let (owner, repo) := p in
  default_branch <- get_default_branch owner repo ;;
  b <- resolve_branch owner repo branch_opt default_branch ;;
  match b with
  | None => m_ret tt
  | Some branch =>
      new_sha <- get_latest_commit_sha owner repo branch ;;
      previous_sha <- read_version_file "." ;;
      emit (EvCompare previous_sha new_sha) ;;;
      if up_to_date previous_sha new_sha then m_ret tt
      else
        materialize fallback owner repo branch "." ;;;
        write_version_file new_sha "."
  end.

Definition main_body (args : cli_args) : M unit :=
  match truthy (a_init args) with
  | Some init =>
      p <- m_lift (parse_repo_arg init) ;;
      write_gitpull_file (github_url (fst p) (snd p)) "."
  | None =>
      match truthy (a_repo args) with
      | Some repo_arg => clone_mode repo_arg (a_fallback args) (a_branch args)
      | None => update_mode (a_fallback args) (a_branch args)
      end
  end.

(** [main]: [FileNotFoundError], [ValueError] and [RuntimeError] (with
    their subclasses) print the error and [sys.exit(1)];
    [KeyboardInterrupt] prints "Aborted." and [sys.exit(130)]; anything
    else propagates. *)
Definition main (args : cli_args) : M unit :=
  m_catch (main_body args)
    (fun e => match e with
              | FileNotFoundError _ | ValueError _ | UnicodeDecodeError _
              | RuntimeError _ | NotImplementedError _ => m_raise (SystemExit 1)
              | KeyboardInterrupt => m_raise (SystemExit 130)
              | e => m_raise e
              end).

End Gitpull.

(* ------------------------------------------------------------------ *)
(** *** Package version (core.py lines 15-72) *)

Definition DQUOTE : ascii := chr 34.
Definition SQUOTE : ascii := chr 39.
Definition EQ_SIGN : ascii := chr 61.
Definition DOT : ascii := chr 46.

(** The character class of the double and the single quote *)
Definition is_quote (c : ascii) : bool := ascii_eqb c DQUOTE || ascii_eqb c SQUOTE.

(** The longest prefix of [\s] characters, and the rest. *)
Fixpoint span_ws (s : string) : string * string :=
  match s with
  | EmptyString => (EmptyString, EmptyString)
  | String c s' => if is_ws c then let (a, b) := span_ws s' in (String c a, b) else (EmptyString, s)
  end.

(** The longest prefix of characters that are not quotes, and the rest. *)
Fixpoint span_nonquote (s : string) : string * string :=
  match s with
  | EmptyString => (EmptyString, EmptyString)
  | String c s' => if is_quote c then (EmptyString, s) else let (a, b) := span_nonquote s' in (String c a, b)
  end.

(** The pattern of [bump_version] (the literal [__version__], [\s*],
    [=], [\s*] and a quote as group 1, one or more non-quotes as group 2,
    a quote as group 3) matched at the start of [s]: the first two groups
    and the text from the third group on. The runs [\s*] and the
    non-quotes are greedy, and the character after each of them ([=], a
    quote) is not in their class, so the match is the one of the longest
    runs. The pattern of [get_package_version] is the same without the
    outer groups; its group is group 2 here. *)
Definition match_version (s : string) : option (string * string * string) :=
  match strip_prefix "__version__" s with
  | None => None
  | Some r1 =>
      let (ws1, r2) := span_ws r1 in
      match r2 with
      | String e r3 =>
          if ascii_eqb e EQ_SIGN then
            let (ws2, r4) := span_ws r3 in
            match r4 with
            | String q r5 =>
                if is_quote q then
                  let (v, r6) := span_nonquote r5 in
                  match v, r6 with
                  | String _ _, String q2 _ =>
                      if is_quote q2
                      then Some ("__version__" +:+ ws1 +:+ String e ws2 +:+ String q EmptyString, v, r6)
                      else None
                  | _, _ => None
                  end
                else None
            | EmptyString => None
            end
          else None
      | EmptyString => None
      end
  end.

(** [re.search(pattern, content, re.MULTILINE)]: the leftmost position
    at the start of the text or right after a [\n] where the pattern
    matches; the result is the text before that position and the match.
    [bol] tells whether the current position is such a line start. *)
Fixpoint search_version (bol : bool) (s : string) : option (string * (string * string * string)) :=
  match (if bol then match_version s else None) with
  | Some m => Some (EmptyString, m)
  | None =>
      match s with
      | EmptyString => None
      | String c s' =>
          match search_version (ascii_eqb c LF) s' with
          | Some (pre, m) => Some (String c pre, m)
          | None => None
          end
      end
  end.

(** [s.split('.')] *)
Fixpoint split_dot (s : string) : list string :=
  match s with
  | EmptyString => [EmptyString]
  | String c s' =>
      if ascii_eqb c DOT then EmptyString :: split_dot s'
      else match split_dot s' with
           | p :: ps => String c p :: ps
           | [] => [String c EmptyString]
           end
  end.

(** [while len(parts) < 3: parts.append('0')] *)
Definition pad_parts (parts : list string) : list string :=
  parts ++ repeat "0" (3 - length parts).


(** The [ValueError] message is the literal between quotes (its
    [repr] escapes are not modelled). *)
Definition int_part (p : string) : exc + Z :=
  match py_int p with
  | Some z => inr z
  | None => inl (ValueError ("invalid literal for int() with base 10: '" +:+ p +:+ "'"))
  end.

Definition bump_parts (bump_type : string) (major minor patch : Z) : Z * Z * Z :=
  if String.eqb bump_type "major" then (major + 1, 0, 0)
  else if String.eqb bump_type "minor" then (major, minor + 1, 0)
  else (major, minor, patch + 1).

(** [os.path.join(os.path.dirname(__file__), '__init__.py')] for the
    package directory [pkg_dir]. *)
Definition init_path (pkg_dir : string) : string := path_join pkg_dir "__init__.py".

Definition get_package_version (pkg_dir : string) : M string :=
  content <- read_text (init_path pkg_dir) ;;
  match search_version true content with
  | Some (_, (_, v, _)) => m_ret v
  | None => m_ret "0.0.0"
  end.

Definition bump_version (pkg_dir bump_type : string) : M (string * string) :=
  content <- read_text (init_path pkg_dir) ;;
  match search_version true content with
  | None => m_raise (ValueError "Could not find __version__ in __init__.py")
  | Some (before, (g1, old_version, after)) =>
      let parts := pad_parts (split_dot old_version) in
      major <- m_lift (int_part (nth 0 parts "")) ;;
      minor <- m_lift (int_part (nth 1 parts "")) ;;
      patch <- m_lift (int_part (nth 2 parts "")) ;;
      let '(major, minor, patch) := bump_parts bump_type major minor patch in
      let new_version := string_of_Z major +:+ "." +:+ string_of_Z minor +:+ "." +:+ string_of_Z patch in
      write_file (init_path pkg_dir) (before +:+ g1 +:+ new_version +:+ after) ;;;
      m_ret (old_version, new_version)
  end.

(* ================================================================== *)
(** * Properties *)

Arguments m_bind {A B} m f w /.
Arguments m_ret {A} a w /.
Arguments m_raise {A} e w /.
Arguments emit e w /.

(* ================================================================== *)
(** ** Generic facts about the monad and the file system *)

Lemma bind_eq {A B} (m : M A) (f : A -> M B) w :
  m_bind m f w =
  match m w with
  | (d1, inl e) => (d1, inl e)
  | (d1, inr a) => let '(d2, r) := f a (apply_events d1 w) in (d1 ++ d2, r)
  end.
Proof. reflexivity. Qed.

Lemma apply_events_nil x : apply_events [] x = x.
Proof. reflexivity. Qed.

Lemma apply_events_app a b x : apply_events (a ++ b) x = apply_events b (apply_events a x).
Proof. unfold apply_events. by rewrite foldl_app. Qed.

Lemma bind_inr {A B} (m : M A) (f : A -> M B) w d b :
  m_bind m f w = (d, inr b) ->
  exists d1 a d2, m w = (d1, inr a) /\ f a (apply_events d1 w) = (d2, inr b) /\ d = d1 ++ d2.
Proof.
  rewrite bind_eq. destruct (m w) as [d1 [e|a]]; [discriminate|].
  destruct (f a _) as [d2 r2] eqn:E. intros [= <- ->]. by exists d1, a, d2.
Qed.

(** The result of [main_body] as [main] reports it. *)
Definition main_exit (e : exc) : exc :=
  match e with
  | FileNotFoundError _ | ValueError _ | UnicodeDecodeError _
  | RuntimeError _ | NotImplementedError _ => SystemExit 1
  | KeyboardInterrupt => SystemExit 130
  | e => e
  end.

Definition map_err {A} (f : exc -> exc) (r : exc + A) : exc + A :=
  match r with inl e => inl (f e) | inr a => inr a end.

Lemma map_err_id {A} (r : exc + A) : map_err (fun e => e) r = r.
Proof. by destruct r. Qed.

Lemma main_run R g args w :
  main R g args w = (fst (main_body R g args w), map_err main_exit (snd (main_body R g args w))).
Proof.
  unfold main, m_catch. destruct (main_body R g args w) as [d [e|u]]; [|reflexivity].
  destruct e; cbn; rewrite app_nil_r; reflexivity.
Qed.

(** The files a trace writes, in order. *)
Definition written_files (d : list event) : list (string * bytes) :=
  omap (fun e => match e with EvWrite p b => Some (p, b) | _ => None end) d.

(** A computation all of whose events satisfy [P] and all of whose
    exceptions satisfy [Q], whatever the world. *)
Definition tr_ok {A} (P : event -> Prop) (Q : exc -> Prop) (m : M A) : Prop :=
  forall w, Forall P (fst (m w)) /\ (forall e, snd (m w) = inl e -> Q e).

Section TrOk.
Context (P : event -> Prop) (Q : exc -> Prop).

Lemma ok_ret {A} (a : A) : tr_ok P Q (m_ret a).
Proof. intros w. split; [constructor|discriminate]. Qed.

Lemma ok_raise {A} (e : exc) : Q e -> tr_ok P Q (@m_raise A e).
Proof. intros H w. split; [constructor|]. by intros ? [= <-]. Qed.

Lemma ok_lift {A} (r : exc + A) : (forall e, r = inl e -> Q e) -> tr_ok P Q (m_lift r).
Proof. intros H w. split; [constructor|exact H]. Qed.

Lemma ok_emit (e : event) : P e -> tr_ok P Q (emit e).
Proof. intros H w. split; [by repeat constructor|discriminate]. Qed.

Lemma ok_bind {A B} (m : M A) (f : A -> M B) :
  tr_ok P Q m -> (forall a, tr_ok P Q (f a)) -> tr_ok P Q (m_bind m f).
Proof.
  intros Hm Hf w. rewrite bind_eq. destruct (Hm w) as [H1 H2].
  destruct (m w) as [d1 [e|a]]; cbn [fst snd] in *; [split; [done|]; by intros ? [= <-]; apply H2|].
  destruct (Hf a (apply_events d1 w)) as [H3 H4].
  destruct (f a _) as [d2 r2]. cbn [fst snd] in *. split; [by apply Forall_app|exact H4].
Qed.

Lemma ok_catch {A} (Q0 : exc -> Prop) (m : M A) (h : exc -> M A) :
  tr_ok P Q0 m -> (forall e, Q0 e -> tr_ok P Q (h e)) -> tr_ok P Q (m_catch m h).
Proof.
  intros Hm Hh w. unfold m_catch. destruct (Hm w) as [H1 H2].
  destruct (m w) as [d1 [e|a]]; cbn [fst snd] in *; [|split; [done|discriminate]].
  destruct (Hh e (H2 e eq_refl) (apply_events d1 w)) as [H3 H4].
  destruct (h e _) as [d2 r2]. cbn [fst snd] in *. split; [by apply Forall_app|exact H4].
Qed.

End TrOk.

Lemma ok_mono {A} (P P' : event -> Prop) (Q Q' : exc -> Prop) (m : M A) :
  tr_ok P Q m -> (forall e, P e -> P' e) -> (forall e, Q e -> Q' e) -> tr_ok P' Q' m.
Proof.
  intros H HP HQ w. destruct (H w) as [H1 H2]. split; [|auto].
  eapply Forall_impl; [exact H1|exact HP].
Qed.

Ltac ok_step :=
  repeat match goal with
  | |- tr_ok _ _ (m_bind _ _) => apply ok_bind; [|intros ?]
  | |- tr_ok _ _ (m_ret _) => apply ok_ret
  | |- tr_ok _ _ (emit _) => apply ok_emit
  | |- tr_ok _ _ (match ?x with _ => _ end) => destruct x
  | |- tr_ok _ _ (if ?b then _ else _) => destruct b eqn:?
  end.

(** The directories [os.makedirs(name)] may create: [name] and the
    successive [dirname]s of it. *)
Definition dir_chain (name q : string) : Prop := exists n, q = Nat.iter n dirname name.

Definition mkdir_in (name : string) (e : event) : Prop :=
  exists q, e = EvMakeDirs q /\ dir_chain name q.

Definition os_failure (e : exc) : Prop := is_os_error e = true.

Lemma os_exc_os e p : os_failure (os_exc e p).
Proof. by destruct e. Qed.

Lemma mkdir_ok name : tr_ok (mkdir_in name) os_failure (mkdir name).
Proof.
  intros w. unfold mkdir. destruct (resolve_err w name) as [e|].
  - split; [constructor|]. intros ? [= <-]. apply os_exc_os.
  - destruct (kind_of w (path_key name)); [| |destruct (bool_decide _)]; cbn [fst snd].
    all: split; [lazymatch goal with
                 | |- Forall _ [] => constructor
                 | |- _ => constructor; [exists name; split; [done|by exists 0%nat]|constructor]
                 end|].
    all: intros ? H; try discriminate H; injection H as <-; reflexivity.
Qed.

Lemma mkdir_step_ok eo name : tr_ok (mkdir_in name) os_failure (mkdir_step eo name).
Proof.
  unfold mkdir_step. apply (ok_catch _ _ os_failure); [apply mkdir_ok|].
  intros e He. destruct (is_os_error e); [|by apply ok_raise].
  apply ok_bind; [intros w; split; [constructor|discriminate]|intros d].
  destruct (eo && d); [apply ok_ret|by apply ok_raise].
Qed.

Lemma dir_chain_iter name k q : dir_chain (Nat.iter k dirname name) q -> dir_chain name q.
Proof. intros [n ->]. exists (n + k)%nat. by rewrite Nat.iter_add. Qed.

Lemma makedirs_rec_ok fuel eo name : tr_ok (mkdir_in name) os_failure (makedirs_rec fuel eo name).
Proof.
  revert name. induction fuel as [|f IH]; intros name; cbn [makedirs_rec]; [apply mkdir_step_ok|].
  assert (Hh : exists k, fst (let '(head, tail) := path_split name in
                        if String.eqb tail "" then path_split head else (head, tail)) =
                        Nat.iter k dirname name).
  { unfold path_split. destruct (String.eqb (basename name) ""); [exists 2%nat|exists 1%nat]; reflexivity. }
  destruct (let '(head, tail) := path_split name in _) as [head tail]. cbn [fst] in Hh.
  destruct Hh as [k Hk].
  destruct (negb (String.eqb head "") && negb (String.eqb tail "")); [|apply mkdir_step_ok].
  apply ok_bind; [intros w; split; [constructor|discriminate]|intros ex].
  destruct (negb ex); [|apply mkdir_step_ok].
  apply ok_bind.
  - apply (ok_catch _ _ os_failure).
    + eapply ok_mono; [apply IH| |done]. intros e [q [-> Hq]]. exists q. split; [done|].
      rewrite Hk in Hq. by apply (dir_chain_iter name k).
    + intros e He. destruct e; try (by apply ok_raise); apply ok_ret.
  - intros _. destruct (String.eqb tail "."); [apply ok_ret|apply mkdir_step_ok].
Qed.

Lemma makedirs_ok eo name : tr_ok (mkdir_in name) os_failure (makedirs eo name).
Proof. apply makedirs_rec_ok. Qed.

Lemma write_bytes_ok p b : tr_ok (fun e => e = EvWrite p b) os_failure (write_bytes p b).
Proof.
  intros w. unfold write_bytes. destruct (open_write_err w p) as [e|].
  - split; [constructor|]. intros ? [= <-]. apply os_exc_os.
  - split; [by repeat constructor|discriminate].
Qed.


Lemma write_bytes_inr p b w d u : write_bytes p b w = (d, inr u) -> d = [EvWrite p b].
Proof. unfold write_bytes. destruct (open_write_err w p); [discriminate|]. by intros [= <-]. Qed.

Lemma ensure_parent_ok p : tr_ok (mkdir_in (dirname p)) os_failure (ensure_parent p).
Proof. unfold ensure_parent. destruct (String.eqb _ _); [apply ok_ret|apply makedirs_ok]. Qed.

Lemma ensure_parent_nowrite p w d r : ensure_parent p w = (d, r) -> written_files d = [].
Proof.
  intros E. destruct (ensure_parent_ok p w) as [H _]. rewrite E in H. cbn [fst] in H. clear E.
  induction H as [|e d [q [-> _]] _ IH]; [done|]. exact IH.
Qed.

(** Writing a file keeps every directory, so every walk that succeeded
    still does. *)
Lemma walk_err_mono w w' k cs :
  (forall k, is_dir_key w k = true -> is_dir_key w' k = true) ->
  walk_err w k cs = None -> walk_err w' k cs = None.
Proof.
  intros Hd. revert k. induction cs as [|c cs IH]; intros k; cbn [walk_err]; [done|].
  unfold kind_of. destruct (is_dir_key w k) eqn:E.
  - rewrite (Hd k E). apply IH.
  - destruct (w_files w !! k); discriminate.
Qed.

Lemma resolve_after_write w p q b :
  resolve_err w q = None -> resolve_err (apply_event w (EvWrite p b)) q = None.
Proof.
  unfold resolve_err. destruct (String.eqb q ""); [discriminate|].
  apply walk_err_mono. by intros k Hk.
Qed.

(** After a successful [open(p, 'w')], the file holds what was written. *)
Lemma open_read_after_write w p b :
  open_write_err w p = None ->
  open_read (apply_event w (EvWrite p b)) p =
    if bool_decide (path_key p ∈ w_noread w) then inl (os_exc EACCES p) else inr b.
Proof.
  unfold open_write_err, open_read. destruct (resolve_err w p) eqn:Er; [discriminate|].
  rewrite (resolve_after_write w p p b Er). destruct (trailing_slash p); [discriminate|].
  unfold kind_of. destruct (is_dir_key w (path_key p)) eqn:Ed.
  - discriminate.
  - intros _. change (is_dir_key (apply_event w (EvWrite p b)) (path_key p)) with (is_dir_key w (path_key p)).
    rewrite Ed. cbn [apply_event w_files w_noread]. by rewrite lookup_insert_eq.
Qed.

Lemma stat_after_write w p b :
  open_write_err w p = None -> stat_kind (apply_event w (EvWrite p b)) p = Some (KFile b).
Proof.
  unfold open_write_err, stat_kind. destruct (resolve_err w p) eqn:Er; [discriminate|].
  rewrite (resolve_after_write w p p b Er). destruct (trailing_slash p) eqn:Et; [discriminate|].
  unfold kind_of. destruct (is_dir_key w (path_key p)) eqn:Ed.
  - discriminate.
  - intros _. change (is_dir_key (apply_event w (EvWrite p b)) (path_key p)) with (is_dir_key w (path_key p)).
    rewrite Ed. cbn [apply_event w_files]. by rewrite lookup_insert_eq.
Qed.

(* ================================================================== *)
(** ** The demo archive of the spec *)

Definition demo_archive (ca cb : bytes) (cc : member_data) : zip_file :=
  Some [mkMember "demo-main/a.txt" (MData ca);
        mkMember "demo-main/sub/b.txt" (MData cb);
        mkMember "demo-main/.git/config" cc].

(** What extracting the demo archive into [t] may do: announce the
    extraction, write [t/a.txt] or [t/sub/b.txt] with their contents, and
    create a directory on the way to one of them. *)
Definition demo_event (ca cb : bytes) (t : string) (e : event) : Prop :=
  e = EvExtractZip t \/
  e = EvWrite (path_join t "a.txt") ca \/ e = EvWrite (path_join t "sub/b.txt") cb \/
  mkdir_in (dirname (path_join t "a.txt")) e \/ mkdir_in (dirname (path_join t "sub/b.txt")) e.

Lemma demo_extract_eq (ca cb : bytes) (cc : member_data) (t : string) :
  extract_zip (demo_archive ca cb cc) t =
  (emit (EvExtractZip t) ;;;
   (ensure_parent (path_join t "a.txt") ;;; write_bytes (path_join t "a.txt") ca ;;;
    ensure_parent (path_join t "sub/b.txt") ;;; write_bytes (path_join t "sub/b.txt") cb ;;;
    m_ret (2%nat, 1%nat))).
Proof. reflexivity. Qed.

(** C1 (amended): extracting the demo archive into any directory [t]
    only announces the extraction, writes [t/a.txt] and [t/sub/b.txt]
    with the entries' contents and creates directories on the way to
    them (so no [.git] path is touched); when it succeeds it has written
    exactly these two files, in this order, and counts two extracted
    files and one skipped entry; when it fails the error is an
    [OSError]. *)
Theorem extract_demo_archive (ca cb : bytes) (cc : member_data) (t : string) (w : world) :
  let '(d, r) := extract_zip (demo_archive ca cb cc) t w in
  Forall (demo_event ca cb t) d /\
  match r with
  | inr counts =>
      counts = (2%nat, 1%nat) /\
      written_files d = [(path_join t "a.txt", ca); (path_join t "sub/b.txt", cb)]
  | inl e => is_os_error e = true
  end.
Proof.
  assert (Hok : tr_ok (demo_event ca cb t) os_failure (extract_zip (demo_archive ca cb cc) t)).
  { rewrite demo_extract_eq. apply ok_bind; [apply ok_emit; by left|intros _].
    apply ok_bind; [eapply ok_mono; [apply ensure_parent_ok| |done]; intros; unfold demo_event; tauto|intros _].
    apply ok_bind; [eapply ok_mono; [apply write_bytes_ok| |done]; intros e ->; unfold demo_event; tauto|intros _].
    apply ok_bind; [eapply ok_mono; [apply ensure_parent_ok| |done]; intros; unfold demo_event; tauto|intros _].
    apply ok_bind; [eapply ok_mono; [apply write_bytes_ok| |done]; intros e ->; unfold demo_event; tauto|intros _].
    apply ok_ret. }
  destruct (Hok w) as [H1 H2].
  destruct (extract_zip (demo_archive ca cb cc) t w) as [d r] eqn:E. cbn [fst snd] in H1, H2.
  split; [exact H1|]. destruct r as [e|counts]; [by apply H2|].
  rewrite demo_extract_eq in E.
  apply bind_inr in E as (d0 & [] & d' & E0 & E & ->). cbn in E0. injection E0 as <-.
  apply bind_inr in E as (d1 & [] & d2 & E1 & E & ->).
  apply bind_inr in E as (d3 & [] & d4 & E3 & E & ->).
  apply bind_inr in E as (d5 & [] & d6 & E5 & E & ->).
  apply bind_inr in E as (d7 & [] & d8 & E7 & E & ->).
  cbn in E. injection E as <- <-.
  apply write_bytes_inr in E3 as ->. apply write_bytes_inr in E7 as ->.
  apply ensure_parent_nowrite in E1. apply ensure_parent_nowrite in E5.
  split; [done|]. unfold written_files in *. rewrite !omap_app, E1, E5. reflexivity.
Qed.

(** C7: an archive with no entries makes [extract_zip] raise
    [ValueError("Empty zip archive")]; nothing is created or written. *)
Theorem extract_empty_archive (t : string) (w : world) :
  extract_zip (Some []) t w = ([EvExtractZip t], inl (ValueError "Empty zip archive")).
Proof. reflexivity. Qed.

(** C1 does not hold in every world: with a directory at [t/a.txt] the
    extraction raises [IsADirectoryError] before anything is written. *)
Lemma extract_demo_archive_cex :
  extract_zip (demo_archive (BText "A") (BText "B") (MData (BText "C"))) "t"
    (plain_world ∅ {[ "t"; "t/a.txt" ]} []) =
  ([EvExtractZip "t"], inl (IsADirectoryError "[Errno 21] Is a directory: 't/a.txt'")).
Proof. vm_compute. reflexivity. Qed.
(** ** Text records: [strip] and newline translation *)

Fixpoint all_ws (s : string) : bool :=
  match s with EmptyString => true | String c s' => is_ws c && all_ws s' end.

Fixpoint has_cr (s : string) : bool :=
  match s with EmptyString => false | String c s' => ascii_eqb c CR || has_cr s' end.

Definition first_char (s : string) : option ascii :=
  match s with EmptyString => None | String c _ => Some c end.

Fixpoint last_char (s : string) : option ascii :=
  match s with
  | EmptyString => None
  | String c EmptyString => Some c
  | String _ s' => last_char s'
  end.

(** A non-empty string without carriage returns whose first and last
    characters are not whitespace. *)
Definition plain_text (s : string) : bool :=
  negb (has_cr s) &&
  match first_char s, last_char s with
  | Some a, Some b => negb (is_ws a) && negb (is_ws b)
  | _, _ => false
  end.

Lemma rstrip_all_ws (w : string) : all_ws w = true -> rstrip w = "".
Proof.
  induction w as [|c w IH]; simpl; [done|].
  intros [Hc Hw]%andb_prop. rewrite IH by done. by rewrite Hc.
Qed.

Lemma lstrip_all_ws (w : string) : all_ws w = true -> lstrip w = "".
Proof.
  induction w as [|c w IH]; simpl; [done|].
  intros [Hc Hw]%andb_prop. rewrite Hc. auto.
Qed.

Lemma rstrip_app_ws (x w : string) : all_ws w = true -> rstrip (x +:+ w) = rstrip x.
Proof.
  intros Hw. induction x as [|c x IH]; simpl; [by apply rstrip_all_ws|].
  by rewrite IH.
Qed.

Lemma lstrip_app_ws (x w : string) : all_ws w = true ->
  lstrip (x +:+ w) = match lstrip x with EmptyString => EmptyString | _ => lstrip x +:+ w end.
Proof.
  intros Hw. induction x as [|c x IH]; simpl; [by apply lstrip_all_ws|].
  destruct (is_ws c); [exact IH|reflexivity].
Qed.

Lemma strip_app_ws (x w : string) : all_ws w = true -> strip (x +:+ w) = strip x.
Proof.
  intros Hw. unfold strip. rewrite lstrip_app_ws by done.
  destruct (lstrip x) eqn:E; [reflexivity|].
  rewrite <- E. by apply rstrip_app_ws.
Qed.

Lemma univ_nl_cr_other (c2 : ascii) (s : string) : ascii_eqb c2 LF = false ->
  univ_nl (String CR (String c2 s)) = String LF (univ_nl (String c2 s)).
Proof.
  intros H.
  change (univ_nl (String CR (String c2 s))) with
    (if ascii_eqb c2 LF then String LF (univ_nl s) else String LF (univ_nl (String c2 s))).
  by rewrite H.
Qed.

Lemma univ_nl_app_nl (s : string) :
  univ_nl (s +:+ s_nl) = univ_nl s \/ univ_nl (s +:+ s_nl) = univ_nl s +:+ s_nl.
Proof.
  remember (String.length s) as n eqn:Hn.
  assert (Hle : (String.length s <= n)%nat) by lia. clear Hn.
  revert s Hle. induction n as [|n IH]; intros s Hle.
  - destruct s; simpl in *; [by right|lia].
  - destruct s as [|c s']; [by right|]. simpl in Hle.
    destruct (ascii_eqb c CR) eqn:Hc.
    + apply Ascii.eqb_eq in Hc. subst c.
      destruct s' as [|c2 s''].
      * left. reflexivity.
      * destruct (ascii_eqb c2 LF) eqn:H2.
        -- apply Ascii.eqb_eq in H2. subst c2. simpl in Hle.
           destruct (IH s'') as [E | E]; [lia| |]; simpl; rewrite E; [left|right]; reflexivity.
        -- change (String CR (String c2 s'') +:+ s_nl) with (String CR (String c2 (s'' +:+ s_nl))).
           rewrite !univ_nl_cr_other by exact H2.
           destruct (IH (String c2 s'')) as [E | E]; [lia| |];
             change (String c2 s'' +:+ s_nl) with (String c2 (s'' +:+ s_nl)) in E;
             rewrite E; [left|right]; reflexivity.
    + simpl. rewrite Hc.
      destruct (IH s') as [E | E]; [lia| |]; rewrite E; [left|right]; reflexivity.
Qed.

Lemma univ_nl_no_cr (s : string) : has_cr s = false -> univ_nl s = s.
Proof.
  induction s as [|c s IH]; simpl; [done|].
  intros [Hc Hs]%orb_false_elim. rewrite Hc. by rewrite IH.
Qed.

Lemma rstrip_last (s : string) (c : ascii) :
  last_char s = Some c -> is_ws c = false -> rstrip s = s.
Proof.
  induction s as [|a s IH]; simpl; [done|].
  intros Hl Hc. destruct s as [|b s'].
  - injection Hl as ->. by rewrite Hc.
  - rewrite IH by done. reflexivity.
Qed.

Lemma strip_plain (s : string) : plain_text s = true -> strip (univ_nl s) = s.
Proof.
  unfold plain_text. intros [Hcr H]%andb_prop.
  apply negb_true_iff in Hcr. rewrite univ_nl_no_cr by done.
  destruct s as [|a s']; [done|]. cbn [first_char] in H.
  destruct (last_char (String a s')) as [b|] eqn:Hb; [|done].
  apply andb_prop in H as [Ha Hb'].
  apply negb_true_iff in Ha, Hb'.
  unfold strip. simpl. rewrite Ha. by apply (rstrip_last _ b).
Qed.

(** The value [read_gitpull_file] returns for a file holding [s ++ "\n"]. *)
Definition stored_text (s : string) : option string :=
  let u := strip (univ_nl s) in if String.eqb u "" then None else Some u.

Lemma strip_univ_nl_nl (s : string) : strip (univ_nl (s +:+ s_nl)) = strip (univ_nl s).
Proof. destruct (univ_nl_app_nl s) as [-> | ->]; [reflexivity|]. by apply strip_app_ws. Qed.

(** C6 (amended): writing [s] as the origin record of [dir] and reading
    it back fails when [dir/.gitpull] cannot be opened for writing (with
    the [OSError] of [open]), and when it can but not for reading (with a
    [PermissionError]). Otherwise the write stores [s] and a newline, and
    the read returns [s] with universal newlines translated and
    surrounding whitespace stripped, or nothing when that is empty; in
    particular exactly [s] when [s] is plain text. *)
Theorem origin_record_roundtrip (s dir : string) (w : world) :
  (write_gitpull_file s dir ;;; read_gitpull_file dir) w =
    (let p := path_join dir GITPULL_FILE in
     match open_write_err w p with
     | Some err => ([], inl (os_exc err p))
     | None =>
         ([EvWrite p (BText (s +:+ s_nl))],
          if bool_decide (path_key p ∈ w_noread w) then inl (os_exc EACCES p) else inr (stored_text s))
     end) /\
  (plain_text s = true -> stored_text s = Some s).
Proof.
  split.
  - unfold write_gitpull_file, read_gitpull_file, write_file. cbv zeta.
    generalize (path_join dir GITPULL_FILE) as p. intros p.
    rewrite bind_eq. unfold write_bytes. destruct (open_write_err w p) eqn:Ew; [reflexivity|].
    cbn [apply_events foldl]. rewrite bind_eq. unfold path_exists.
    rewrite (stat_after_write _ _ _ Ew). cbn [negb]. rewrite bind_eq. unfold read_text.
    cbn [apply_events foldl]. rewrite (open_read_after_write _ _ _ Ew).
    destruct (bool_decide _); [reflexivity|]. cbn.
    unfold stored_text. by rewrite strip_univ_nl_nl.
  - intros Hp. unfold stored_text. rewrite strip_plain by done.
    destruct s; [done|reflexivity].
Qed.

Lemma origin_record_roundtrip_witness :
  plain_text "https://github.com/o/r" = true /\
  stored_text "https://github.com/o/r" = Some "https://github.com/o/r".
Proof.
  split; [reflexivity|].
  apply (proj2 (origin_record_roundtrip "https://github.com/o/r" "." (plain_world ∅ ∅ []))).
  reflexivity.
Defined.

(** C6 does not hold as stated: the empty string reads back as no record,
    surrounding whitespace (also a trailing NO-BREAK SPACE) is lost, and
    the write fails when [./.gitpull] is a directory. *)
Lemma origin_record_roundtrip_cex :
  snd ((write_gitpull_file "" "." ;;; read_gitpull_file ".") (plain_world ∅ ∅ [])) = inr None /\
  snd ((write_gitpull_file " o/r" "." ;;; read_gitpull_file ".") (plain_world ∅ ∅ [])) = inr (Some "o/r") /\
  snd ((write_gitpull_file ("o/r" +:+ String (chr 160) EmptyString) "." ;;; read_gitpull_file ".")
         (plain_world ∅ ∅ [])) = inr (Some "o/r") /\
  (write_gitpull_file "o/r" "." ;;; read_gitpull_file ".") (plain_world ∅ {[ ".gitpull" ]} []) =
    ([], inl (IsADirectoryError "[Errno 21] Is a directory: './.gitpull'")).
Proof. repeat split; vm_compute; reflexivity. Qed.

(** ** Branch option ["?"] *)

(** C10: with [-b ?] the driver runs exactly as with no branch option; the
    branch block then fetches the branch list and, when it has more than
    one branch, runs the interactive [select_branch]. *)
Theorem branch_question_mark_is_no_branch (R : remote) (g : string -> config_result)
    (repo init : option string) (fallback : bool) (w : world) :
  main R g (mkArgs repo init fallback (Some "?")) w = main R g (mkArgs repo init fallback None) w /\
  (forall owner name default_branch,
     resolve_branch R owner name (Some "?") default_branch =
     (branches <- get_branches R owner name ;;
      if (1 <? length branches)%nat then select_branch branches (Some default_branch)
      else m_ret (Some default_branch))).
Proof. split; reflexivity. Qed.

(** ** Failure classification of the metadata fetcher *)

Inductive api_kind := KNotFound | KRemoteError | KNetworkError.

(** How a caller can tell the failures apart: by exception class, and for
    [RuntimeError] by the message prefix. *)
Definition exc_kind (e : exc) : option api_kind :=
  match e with
  | ValueError _ => Some KNotFound
  | RuntimeError m =>
      if starts_with "GitHub API error: " m then Some KRemoteError
      else if starts_with "Network error: " m then Some KNetworkError
      else None
  | _ => None
  end.

(** The kind the spec assigns to a failed request; the other exceptions
    raised while the response is read ([HRaise]) get none. *)
Definition failure_kind {A} (h : http A) : option api_kind :=
  match h with
  | HOk _ | HRaise _ => None
  | HHTTPError code _ => Some (if code =? 404 then KNotFound else KRemoteError)
  | HURLError _ => Some KNetworkError
  end.

(** The exception raised for a failed request: [ValueError] on 404, a
    [RuntimeError] carrying the status and reason on other HTTP errors,
    a [RuntimeError] on transport errors. *)
Definition classified {A} (h : http A) (e : exc) : Prop :=
  match h with
  | HOk _ | HRaise _ => False
  | HHTTPError code reason =>
      if code =? 404 then exists m, e = ValueError m
      else e = RuntimeError ("GitHub API error: " +:+ string_of_Z code +:+ " " +:+ reason)
  | HURLError reason => e = RuntimeError ("Network error: " +:+ reason)
  end.

(** A page after which [get_branches] asks for the next one. *)
Definition full_page (p : http (list string)) : Prop :=
  exists data, p = HOk data /\ (per_page <= length data)%nat.

Lemma strip_prefix_app (p r : string) : strip_prefix p (p +:+ r) = Some r.
Proof.
  induction p as [|a p IH]; [reflexivity|].
  change (String a p +:+ r) with (String a (p +:+ r)). cbn [strip_prefix].
  unfold ascii_eqb. by rewrite Ascii.eqb_refl.
Qed.

Lemma classified_kind {A} (h : http A) (e : exc) :
  classified h e -> exc_kind e = failure_kind h.
Proof.
  destruct h as [a|code reason|reason|e']; simpl; [done| | |done].
  - destruct (code =? 404).
    + by intros [m ->].
    + intros ->. cbn [exc_kind]. unfold starts_with. by rewrite strip_prefix_app.
  - intros ->. reflexivity.
Qed.

Lemma branches_loop_after_full (R : remote) owner name full h rest acc w :
  Forall full_page full ->
  exists acc', branches_loop owner name (full ++ h :: rest) acc w = branches_loop owner name (h :: rest) acc' w.
Proof.
  revert acc. induction full as [|p full IH]; intros acc Hfull; [by exists acc|].
  inversion Hfull as [|? ? [data [-> Hlen]] Hfull']; subst.
  destruct data as [|b data]; [unfold per_page in Hlen; simpl in Hlen; lia|].
  cbn [app branches_loop].
  assert (E : (length (b :: data) <? per_page)%nat = false) by (apply Nat.ltb_ge; lia).
  rewrite E. by apply IH.
Qed.

Lemma branches_loop_failure (R : remote) owner name full h rest acc w :
  Forall full_page full -> failure_kind h <> None ->
  exists e, snd (branches_loop owner name (full ++ h :: rest) acc w) = inl e /\ classified h e.
Proof.
  intros Hfull Hh. destruct (branches_loop_after_full R owner name full h rest acc w Hfull) as [acc' ->].
  destruct h as [a|code reason|reason|e']; simpl in Hh |- *; [done| | |done].
  - destruct (code =? 404); eexists; split; try reflexivity. by eexists.
  - eexists; split; reflexivity.
Qed.

(** C5 (amended): [get_default_branch], [get_branches] and
    [get_latest_commit_sha] map a failed request the same way: HTTP 404
    to [ValueError], any other HTTP error to a [RuntimeError] carrying its
    status, a transport error ([URLError]) to a [RuntimeError] of its own
    prefix; these three kinds are told apart by [exc_kind]. For
    [get_branches] the failing request may be any page after full ones.
    Any other exception raised while a response is read and decoded
    propagates unchanged from all three. *)
Theorem metadata_failure_classification (R : remote) (owner name branch : string) (w : world) :
  (forall h : http string, r_repo_info R owner name = h -> failure_kind h <> None ->
     exists e, snd (get_default_branch R owner name w) = inl e /\ classified h e /\
               exc_kind e = failure_kind h) /\
  (forall (full : list (http (list string))) (h : http (list string)) rest,
     r_branch_pages R owner name = full ++ h :: rest -> Forall full_page full ->
     failure_kind h <> None ->
     exists e, snd (get_branches R owner name w) = inl e /\ classified h e /\
               exc_kind e = failure_kind h) /\
  (forall h : http string, r_commit R owner name branch = h -> failure_kind h <> None ->
     exists e, snd (get_latest_commit_sha R owner name branch w) = inl e /\ classified h e /\
               exc_kind e = failure_kind h) /\
  (forall e, r_repo_info R owner name = HRaise e -> snd (get_default_branch R owner name w) = inl e) /\
  (forall full e rest, r_branch_pages R owner name = full ++ HRaise e :: rest -> Forall full_page full ->
     snd (get_branches R owner name w) = inl e) /\
  (forall e, r_commit R owner name branch = HRaise e ->
     snd (get_latest_commit_sha R owner name branch w) = inl e).
Proof.
  split; [|split; [|split; [|split; [|split]]]].
  - intros h Eh Hh. destruct h as [a|code reason|reason|e']; [done| | |done];
      unfold get_default_branch, m_bind, emit; rewrite Eh; cbn [failure_kind classified].
    + destruct (code =? 404) eqn:E.
      * eexists; split; [reflexivity|]. split; [by eexists|reflexivity].
      * eexists; split; [reflexivity|]. split; [reflexivity|].
        cbn [exc_kind]. unfold starts_with. by rewrite strip_prefix_app.
    + eexists; split; [reflexivity|]. split; reflexivity.
  - intros full h rest Ep Hfull Hh. unfold get_branches, m_bind, emit. rewrite Ep.
    destruct (branches_loop_failure R owner name full h rest [] (apply_events [EvGetBranches owner name] w) Hfull Hh)
      as [e [He Hc]].
    destruct (branches_loop owner name (full ++ h :: rest) [] _) as [d r] eqn:Ed.
    simpl in He. subst r. exists e. split; [reflexivity|]. split; [done|].
    by apply classified_kind.
  - intros h Eh Hh. destruct h as [a|code reason|reason|e']; [done| | |done];
      unfold get_latest_commit_sha, m_bind, emit; rewrite Eh; cbn [failure_kind classified].
    + destruct (code =? 404) eqn:E.
      * eexists; split; [reflexivity|]. split; [by eexists|reflexivity].
      * eexists; split; [reflexivity|]. split; [reflexivity|].
        cbn [exc_kind]. unfold starts_with. by rewrite strip_prefix_app.
    + eexists; split; [reflexivity|]. split; reflexivity.
  - intros e Eh. unfold get_default_branch, m_bind, emit. by rewrite Eh.
  - intros full e rest Ep Hfull. unfold get_branches, m_bind, emit. rewrite Ep.
    destruct (branches_loop_after_full R owner name full (HRaise e) rest [] (apply_events [EvGetBranches owner name] w) Hfull)
      as [acc' ->].
    reflexivity.
  - intros e Eh. unfold get_latest_commit_sha, m_bind, emit. by rewrite Eh.
Qed.

Definition failing_remote : remote := mkRemote
  (fun _ _ => HHTTPError 404 "Not Found")
  (fun _ _ => [HOk (repeat "b" 100); HHTTPError 503 "Service Unavailable"])
  (fun _ _ _ => HURLError "timed out")
  (fun _ _ _ => HURLError "timed out")
  (fun _ _ _ => HURLError "timed out")
  (fun _ _ _ => HURLError "timed out").

(** A server whose responses cannot be read: a body that is not JSON,
    and socket timeouts while the body is read. *)
Definition raising_remote : remote := mkRemote
  (fun _ _ => HRaise (ValueError "Expecting value: line 1 column 1 (char 0)"))
  (fun _ _ => [HOk (repeat "b" 100); HRaise (OSError "timed out")])
  (fun _ _ _ => HRaise (OSError "timed out"))
  (fun _ _ _ => HRaise (OSError "timed out"))
  (fun _ _ _ => HRaise (OSError "timed out"))
  (fun _ _ _ => HRaise (OSError "timed out")).

Lemma metadata_failure_classification_witness :
  (exists e, snd (get_default_branch failing_remote "o" "r" (plain_world ∅ ∅ [])) = inl e /\
     classified (HHTTPError (A:=string) 404 "Not Found") e /\ exc_kind e = Some KNotFound) /\
  (exists e, snd (get_branches failing_remote "o" "r" (plain_world ∅ ∅ [])) = inl e /\
     classified (HHTTPError (A:=list string) 503 "Service Unavailable") e /\ exc_kind e = Some KRemoteError) /\
  (exists e, snd (get_latest_commit_sha failing_remote "o" "r" "main" (plain_world ∅ ∅ [])) = inl e /\
     classified (HURLError (A:=string) "timed out") e /\ exc_kind e = Some KNetworkError) /\
  snd (get_branches raising_remote "o" "r" (plain_world ∅ ∅ [])) = inl (OSError "timed out").
Proof.
  destruct (metadata_failure_classification failing_remote "o" "r" "main" (plain_world ∅ ∅ []))
    as [H1 [H2 [H3 _]]].
  destruct (metadata_failure_classification raising_remote "o" "r" "main" (plain_world ∅ ∅ []))
    as [_ [_ [_ [_ [H5 _]]]]].
  assert (Hf : Forall full_page [HOk (repeat "b" 100)]).
  { constructor; [|constructor]. exists (repeat "b" 100). split; [reflexivity|].
    rewrite repeat_length. unfold per_page. lia. }
  split; [|split; [|split]].
  - apply (H1 (HHTTPError 404 "Not Found")); [reflexivity | discriminate].
  - apply (H2 [HOk (repeat "b" 100)] (HHTTPError 503 "Service Unavailable") []);
      [reflexivity | exact Hf | discriminate].
  - apply (H3 (HURLError "timed out")); [reflexivity | discriminate].
  - apply (H5 [HOk (repeat "b" 100)] (OSError "timed out") []); [reflexivity | exact Hf].
Defined.

(** C5 does not hold for every failure: a socket timeout while a
    response is read escapes unclassified, and a response body that is
    not JSON gives a [ValueError] of the same kind as a 404. *)
Lemma metadata_failure_classification_cex :
  snd (get_default_branch raising_remote "o" "r" (plain_world ∅ ∅ [])) =
    inl (ValueError "Expecting value: line 1 column 1 (char 0)") /\
  exc_kind (ValueError "Expecting value: line 1 column 1 (char 0)") = Some KNotFound /\
  snd (get_latest_commit_sha raising_remote "o" "r" "main" (plain_world ∅ ∅ [])) = inl (OSError "timed out") /\
  exc_kind (OSError "timed out") = None.
Proof. repeat split; vm_compute; reflexivity. Qed.

Definition valid_segment (x : string) : Prop := x <> EmptyString /\ has_slash x = false.

Definition repo_prefixes : list string :=
  [EmptyString; "github.com/"; "https://github.com/"; "http://github.com/"].

Definition repo_form (p owner name : string) : string := p +:+ owner +:+ "/" +:+ name.


Lemma str_app_cons (x : ascii) (a b : string) : String x a +:+ b = String x (a +:+ b).
Proof. reflexivity. Qed.

Lemma str_app_nil_l (b : string) : EmptyString +:+ b = b.
Proof. reflexivity. Qed.

Lemma str_app_assoc (a b c : string) : (a +:+ b) +:+ c = a +:+ (b +:+ c).
Proof. induction a as [|x a IH]; [reflexivity|]. rewrite ?str_app_cons. cbn. by rewrite IH. Qed.

Lemma str_app_nil_r (a : string) : a +:+ EmptyString = a.
Proof. induction a as [|x a IH]; [reflexivity|]. rewrite ?str_app_cons. cbn. by rewrite IH. Qed.

Lemma str_length_app (a b : string) : String.length (a +:+ b) = (String.length a + String.length b)%nat.
Proof. induction a as [|x a IH]; [reflexivity|]. rewrite ?str_app_cons. cbn. by rewrite IH. Qed.




Lemma ascii_eqb_true (a b : ascii) : ascii_eqb a b = true -> a = b.
Proof. apply Ascii.eqb_eq. Qed.

Lemma split_slash_app (a b : string) :
  has_slash a = false -> split_slash (a +:+ String SLASH b) = Some (a, b).
Proof.
  induction a as [|x a IH]; [reflexivity|]. rewrite ?str_app_cons. cbn. intros H.
  apply orb_false_iff in H as [H1 H2]. rewrite H1, IH; done.
Qed.

Lemma split_slash_spec (s a b : string) :
  split_slash s = Some (a, b) -> s = a +:+ String SLASH b /\ has_slash a = false.
Proof.
  revert a b. induction s as [|x s IH]; intros a b; [done|]. cbn.
  destruct (ascii_eqb x SLASH) eqn:E.
  - intros [= <- <-]. apply ascii_eqb_true in E. by subst.
  - destruct (split_slash s) as [[a' b']|] eqn:Es; [|done]. intros [= <- <-].
    destruct (IH a' b' eq_refl) as [-> H]. cbn. by rewrite E, H.
Qed.

Lemma strip_prefix_spec (pre s r : string) : strip_prefix pre s = Some r -> s = pre +:+ r.
Proof.
  revert s. induction pre as [|x pre IH]; intros s; cbn.
  - by intros [= ->].
  - destruct s as [|y s]; [done|]. destruct (ascii_eqb x y) eqn:E; [|done].
    apply ascii_eqb_true in E as ->. intros H. by rewrite (IH s H).
Qed.

Lemma match_owner_repo_iff (t a b : string) :
  match_owner_repo t = Some (a, b) <-> t = a +:+ String SLASH b /\ valid_segment a /\ valid_segment b.
Proof.
  unfold match_owner_repo, valid_segment. split.
  - destruct (split_slash t) as [[a' b']|] eqn:E; [|done].
    apply split_slash_spec in E as [-> Ha].
    destruct a' as [|x a']; [done|]. destruct b' as [|y b']; [done|].
    destruct (has_slash (String y b')) eqn:Hb; [done|]. intros [= <- <-].
    repeat split; done.
  - intros (-> & [Ha Ha'] & [Hb Hb']). rewrite split_slash_app by done.
    destruct a as [|x a]; [done|]. destruct b as [|y b]; [done|]. by rewrite Hb'.
Qed.




Lemma match_https_sound (t a b : string) :
  match_https t = Some (a, b) ->
  (t = repo_form "https://github.com/" a b \/ t = repo_form "http://github.com/" a b) /\
  valid_segment a /\ valid_segment b.
Proof.
  unfold match_https, repo_form.
  destruct (strip_prefix "https://github.com/" t) as [r|] eqn:E1.
  - apply strip_prefix_spec in E1 as ->. intros (-> & Ha & Hb)%match_owner_repo_iff.
    split; [left; reflexivity|done].
  - destruct (strip_prefix "http://github.com/" t) as [r|] eqn:E2; [|done].
    apply strip_prefix_spec in E2 as ->. intros (-> & Ha & Hb)%match_owner_repo_iff.
    split; [right; reflexivity|done].
Qed.

Lemma match_domain_sound (t a b : string) :
  match_domain t = Some (a, b) ->
  t = repo_form "github.com/" a b /\ valid_segment a /\ valid_segment b.
Proof.
  unfold match_domain, repo_form.
  destruct (strip_prefix "github.com/" t) as [r|] eqn:E1; [|done].
  apply strip_prefix_spec in E1 as ->. intros (-> & Ha & Hb)%match_owner_repo_iff.
  split; [reflexivity|done].
Qed.

Lemma parse_repo_arg_sound (s a b : string) :
  parse_repo_arg s = inr (a, b) ->
  exists p, In p repo_prefixes /\ normalize_repo_arg s = repo_form p a b /\
            valid_segment a /\ valid_segment b.
Proof.
  unfold parse_repo_arg.
  destruct (match_https (normalize_repo_arg s)) as [[a' b']|] eqn:E1.
  { intros [= <- <-]. apply match_https_sound in E1 as [[E|E] H].
    - exists "https://github.com/". simpl; tauto.
    - exists "http://github.com/". simpl; tauto. }
  destruct (match_domain (normalize_repo_arg s)) as [[a' b']|] eqn:E2.
  { intros [= <- <-]. apply match_domain_sound in E2 as [E H].
    exists "github.com/". simpl; tauto. }
  destruct (match_owner_repo (normalize_repo_arg s)) as [[a' b']|] eqn:E3; [|done].
  intros [= <- <-]. apply match_owner_repo_iff in E3 as [E H].
  exists EmptyString. simpl; tauto.
Qed.
















Lemma tail_ok_cases (r : string) :
  tail_ok r = true -> r = EmptyString \/ r = s_nl \/ r = ".git" \/ r = ".git" +:+ s_nl.
Proof.
  unfold tail_ok. intros H.
  repeat (apply orb_true_iff in H as [H|H]); apply String.eqb_eq in H; tauto.
Qed.

(** The lazy group stops after [n] when the rest is [.git]. *)
Lemma lazy_more_git (n : string) :
  has_slash n = false -> lazy_more (n +:+ ".git") = Some n.
Proof.
  induction n as [|c n IH]; [reflexivity|]. intros H.
  cbn [has_slash] in H. apply orb_false_iff in H as [Hc H].
  rewrite str_app_cons. cbn [lazy_more].
  destruct (tail_ok (String c (n +:+ ".git"))) eqn:T.
  - exfalso. apply tail_ok_cases in T.
    assert (Hl : forall t, String c (n +:+ ".git") = t -> String.length t = (5 + String.length n)%nat).
    { intros t <-. cbn [String.length]. rewrite str_length_app. cbn. lia. }
    destruct T as [T|[T|[T|T]]]; pose proof (Hl _ T) as L; vm_compute in L; [lia|lia|lia|].
    destruct n; [|vm_compute in L; lia]. cbv in T. congruence.
  - rewrite Hc, IH; done.
Qed.

(** The lazy group runs to the end of [n] when no suffix of [n] is
    [.git] or ends in a newline. *)
Lemma lazy_more_plain (n : string) :
  has_slash n = false -> ends_with ".git" n = false -> ends_with s_nl n = false ->
  lazy_more n = Some n.
Proof.
  induction n as [|c n IH]; [reflexivity|]. intros H Hg Hl.
  cbn [has_slash] in H. apply orb_false_iff in H as [Hc H].
  cbn [lazy_more].
  destruct (tail_ok (String c n)) eqn:T.
  - exfalso. apply tail_ok_cases in T as [T|[T|[T|T]]]; [discriminate| | |];
      rewrite T in Hg, Hl; vm_compute in Hg, Hl; discriminate.
  - cbn [ends_with] in Hg, Hl. apply orb_false_iff in Hg as [_ Hg].
    apply orb_false_iff in Hl as [_ Hl]. rewrite Hc, IH; done.
Qed.

Lemma match_owner_lazy_app (owner n suf : string) :
  valid_segment owner -> has_slash n = false -> n <> EmptyString ->
  (suf = ".git" \/ (suf = EmptyString /\ ends_with ".git" n = false /\ ends_with s_nl n = false)) ->
  match_owner_lazy (owner +:+ "/" +:+ n +:+ suf) = Some (owner, n).
Proof.
  intros [Ho0 Ho] Hn Hn0 Hsuf. unfold match_owner_lazy.
  change ("/" +:+ ?y) with (String SLASH y). rewrite split_slash_app by done.
  destruct owner as [|x owner]; [done|].
  destruct n as [|c n]; [done|]. cbn [has_slash] in Hn. apply orb_false_iff in Hn as [Hc Hn].
  rewrite str_app_cons. cbn [lazy_group]. rewrite Hc.
  destruct Hsuf as [->|(-> & Hg & Hl)].
  - by rewrite lazy_more_git.
  - rewrite str_app_nil_r. cbn [ends_with] in Hg, Hl.
    apply orb_false_iff in Hg as [_ Hg]. apply orb_false_iff in Hl as [_ Hl].
    by rewrite lazy_more_plain.
Qed.

(** C9: for a non-empty, slash-free owner and name, [parse_github_url]
    returns [(owner, name)] for [git@github.com:owner/name.git], and for
    [git@github.com:owner/name] when the name ends neither in [.git] nor
    in a newline; a URL that starts with none of [https://github.com/],
    [http://github.com/] and [git@github.com:] (so an SSH URL with another
    user or host) is rejected with [ValueError]. *)
Theorem parse_github_url_ssh :
  (forall owner name suf,
     valid_segment owner -> valid_segment name ->
     (suf = ".git" \/ (suf = EmptyString /\ ends_with ".git" name = false /\ ends_with s_nl name = false)) ->
     parse_github_url ("git@github.com:" +:+ owner +:+ "/" +:+ name +:+ suf) = inr (owner, name)) /\
  (forall url,
     starts_with "https://github.com/" url = false -> starts_with "http://github.com/" url = false ->
     starts_with "git@github.com:" url = false ->
     parse_github_url url = inl (ValueError ("Could not parse GitHub URL: " +:+ url))).
Proof.
  split.
  - intros o n suf Ho [Hn0 Hn] Hsuf. unfold parse_github_url.
    set (r := o +:+ "/" +:+ n +:+ suf).
    change (strip_prefix "https://github.com/" ("git@github.com:" +:+ r)) with (@None string).
    change (strip_prefix "http://github.com/" ("git@github.com:" +:+ r)) with (@None string).
    cbv iota. rewrite strip_prefix_app. subst r.
    by rewrite match_owner_lazy_app.
  - intros url H1 H2 H3. unfold starts_with in H1, H2, H3. unfold parse_github_url.
    destruct (strip_prefix "https://github.com/" url); [done|].
    destruct (strip_prefix "http://github.com/" url); [done|].
    by destruct (strip_prefix "git@github.com:" url).
Qed.

Lemma parse_github_url_ssh_witness :
  parse_github_url ("git@github.com:" +:+ "octo" +:+ "/" +:+ "hello" +:+ EmptyString) = inr ("octo", "hello").
Proof.
  apply (proj1 parse_github_url_ssh).
  - split; [discriminate | reflexivity].
  - split; [discriminate | reflexivity].
  - right. split; [reflexivity|]. split; reflexivity.
Defined.

Lemma parse_github_url_ssh_cex :
  parse_github_url "alice@example.com:o/n" = inl (ValueError "Could not parse GitHub URL: alice@example.com:o/n") /\
  parse_github_url "git@gitlab.com:o/n.git" = inl (ValueError "Could not parse GitHub URL: git@gitlab.com:o/n.git").
Proof. split; reflexivity. Qed.

(* ================================================================== *)
(** ** Traces of the driver *)

(** Events that neither change the file system, nor compare commits, nor
    belong to a materialization. *)
Definition quiet (e : event) : bool :=
  match e with
  | EvWrite _ _ | EvMakeDirs _ | EvCompare _ _
  | EvDownloadZip _ _ _ | EvExtractZip _ | EvGetTree _ _ _ | EvGetBlob _ => false
  | _ => true
  end.

(** Events of a materialization call: archive download and extraction,
    tree listing and blob fetches. *)
Definition materialization_event (e : event) : bool :=
  match e with
  | EvDownloadZip _ _ _ | EvExtractZip _ | EvGetTree _ _ _ | EvGetBlob _ => true
  | _ => false
  end.

(** A quiet event, or a write of the [./.gitpull] record. *)
Definition origin_or_quiet (e : event) : Prop :=
  quiet e = true \/ exists data, e = EvWrite (path_join "." GITPULL_FILE) data.

(** What update mode may do before the comparison: quiet events, and
    the save of the URL typed at the repository prompt. *)
Definition pre_ok (pre : list event) : Prop :=
  forall e, In e pre ->
    quiet e = true \/
    (exists data, e = EvWrite (path_join "." GITPULL_FILE) data /\ In EvAskRepo pre).

Definition tr_comp {A} (P : list event -> Prop) (m : M A) : Prop := forall w, P (fst (m w)).

Definition app_closed (P : list event -> Prop) : Prop :=
  P [] /\ forall a b, P a -> P b -> P (a ++ b).

Definition all_quiet (d : list event) : Prop := Forall (fun e => quiet e = true) d.
Definition all_origin_or_quiet (d : list event) : Prop := Forall origin_or_quiet d.


(** The record writes that follow a successful materialization, in
    order: the origin record (clone mode only), then the last-commit
    record. *)
Definition record_writes (clone : bool) (owner repo target new : string) : list (string * string) :=
  (if clone then [(path_join target GITPULL_FILE, github_url owner repo +:+ s_nl)] else []) ++
  [(path_join target VERSION_FILE, new +:+ s_nl)].

Definition record_event (ps : string * string) : event := EvWrite (fst ps) (BText (snd ps)).

(** Writing a list of text files in order. *)
Fixpoint write_all (ws : list (string * string)) : M unit :=
  match ws with
  | [] => m_ret tt
  | (p, s) :: ws' => write_file p s ;;; write_all ws'
  end.

(** The outcome of [write_all ws] from [w]: all files written, or the
    first [k] and then an [open] of the next one that fails. *)
Definition writes_outcome (ws : list (string * string)) (w : world) (d : list event) (r : exc + unit) : Prop :=
  (d = map record_event ws /\ r = inr tt) \/
  exists k p s err, d = take k (map record_event ws) /\ nth_error ws k = Some (p, s) /\
    open_write_err (apply_events d w) p = Some err /\ r = inl (os_exc err p).

(** What follows the comparison event, from the world [wc] right after
    it: nothing when the stored commit is the new one; otherwise the
    creation of the target directory (clone mode, when it is missing),
    the materialization, and the record writes, each step only after the
    previous one succeeded. [f] is how the exceptions are reported. *)
Definition after_compare (R : remote) (clone fallback : bool) (owner repo branch target new : string)
    (prev : option string) (f : exc -> exc) (wc : world) (post : list event) (r : exc + unit) : Prop :=
  (up_to_date prev new = true /\ post = [] /\ r = inr tt) \/
  (up_to_date prev new = false /\
   exists mk rmk,
     ((mk, rmk) = ([], inr tt) \/ (clone = true /\ makedirs false target wc = (mk, rmk))) /\
     match rmk with
     | inl e => post = mk /\ r = inl (f e)
     | inr _ =>
         exists m res,
           materialize R fallback owner repo branch target (apply_events mk wc) = (m, res) /\
           match res with
           | inl e => post = mk ++ m /\ r = inl (f e)
           | inr _ =>
               exists recs r0,
                 write_all (record_writes clone owner repo target new) (apply_events (mk ++ m) wc) = (recs, r0) /\
                 post = mk ++ m ++ recs /\ r = map_err f r0
           end
     end).

Definition clone_run (args : cli_args) : bool :=
  match truthy (a_repo args) with Some _ => true | None => false end.

(** A run from [w] either never reaches the comparison, and then only
    saves the origin record [./.gitpull], or is [pre], the comparison,
    and what [after_compare] allows. *)
Definition run_shape (R : remote) (args : cli_args) (f : exc -> exc) (w : world)
    (run : list event * (exc + unit)) : Prop :=
  all_origin_or_quiet (fst run) \/
  exists pre prev new post owner repo branch target,
    fst run = pre ++ EvCompare prev new :: post /\ pre_ok pre /\ prev <> Some EmptyString /\
    truthy (a_init args) = None /\
    (if clone_run args then target = repo else target = ".") /\
    after_compare R (clone_run args) (a_fallback args) owner repo branch target new prev f
      (apply_events (pre ++ [EvCompare prev new]) w) post (snd run).

Section Traces.
Context (P : list event -> Prop) (HP : app_closed P).

Lemma tr_ret {A} (a : A) : tr_comp P (m_ret a).
Proof. intros w. apply HP. Qed.

Lemma tr_raise {A} (e : exc) : tr_comp P (@m_raise A e).
Proof. intros w. apply HP. Qed.

Lemma tr_lift {A} (r : exc + A) : tr_comp P (m_lift r).
Proof. intros w. apply HP. Qed.

Lemma tr_emit (e : event) : P [e] -> tr_comp P (emit e).
Proof. by intros H w. Qed.

Lemma tr_bind {A B} (m : M A) (f : A -> M B) :
  tr_comp P m -> (forall a, tr_comp P (f a)) -> tr_comp P (m_bind m f).
Proof.
  intros Hm Hf w. unfold m_bind. specialize (Hm w).
  destruct (m w) as [d1 [e|a]]; [done|].
  specialize (Hf a (apply_events d1 w)). destruct (f a _) as [d2 r2]. by apply HP.
Qed.

Lemma tr_catch {A} (m : M A) (h : exc -> M A) :
  tr_comp P m -> (forall e, tr_comp P (h e)) -> tr_comp P (m_catch m h).
Proof.
  intros Hm Hh w. unfold m_catch. specialize (Hm w).
  destruct (m w) as [d1 [e|a]]; [|done].
  specialize (Hh e (apply_events d1 w)). destruct (h e _) as [d2 r2]. by apply HP.
Qed.

End Traces.

Lemma all_quiet_closed : app_closed all_quiet.
Proof. split; [constructor|]. intros a b Ha Hb. by apply Forall_app. Qed.

Lemma all_origin_or_quiet_closed : app_closed all_origin_or_quiet.
Proof. split; [constructor|]. intros a b Ha Hb. by apply Forall_app. Qed.

Lemma pre_ok_closed : app_closed pre_ok.
Proof.
  split; [intros e []|]. intros a b Ha Hb e He. apply in_app_or in He as [He|He].
  - destruct (Ha e He) as [Hq|(data & -> & Hk)]; [by left|right].
    exists data. split; [done|]. apply in_or_app. by left.
  - destruct (Hb e He) as [Hq|(data & -> & Hk)]; [by left|right].
    exists data. split; [done|]. apply in_or_app. by right.
Qed.

Lemma quiet_pre_ok (d : list event) : all_quiet d -> pre_ok d.
Proof. intros H e He. left. unfold all_quiet in H. rewrite List.Forall_forall in H. by apply H. Qed.

Lemma pre_ok_origin (d : list event) : pre_ok d -> all_origin_or_quiet d.
Proof.
  intros H. apply List.Forall_forall. intros e He.
  destruct (H e He) as [Hq|(data & -> & _)]; [by left|right; eauto].
Qed.

Ltac trace_step P HP :=
  repeat match goal with
  | |- tr_comp P (m_bind _ _) => apply (tr_bind P HP); [|intros ?]
  | |- tr_comp P (m_catch _ _) => apply (tr_catch P HP); [|intros ?]
  | |- tr_comp P (m_ret _) => apply (tr_ret P HP)
  | |- tr_comp P (m_raise _) => apply (tr_raise P HP)
  | |- tr_comp P (m_lift _) => apply (tr_lift P HP)
  | |- tr_comp P (emit _) => apply (tr_emit P); repeat constructor
  | |- tr_comp P (match ?x with _ => _ end) => destruct x
  | |- tr_comp P (if ?b then _ else _) => destruct b
  end.

Lemma quiet_path_exists p : tr_comp all_quiet (path_exists p).
Proof. intros w. constructor. Qed.

Lemma quiet_path_isdir p : tr_comp all_quiet (path_isdir p).
Proof. intros w. constructor. Qed.

Lemma quiet_read_text p : tr_comp all_quiet (read_text p).
Proof. intros w. unfold read_text. destruct (open_read w p) as [e|[s|]]; constructor. Qed.

Lemma quiet_read_line : tr_comp all_quiet read_line.
Proof. intros w. unfold read_line. destruct (w_stdin w); repeat constructor. Qed.

Lemma quiet_read_repo_answer : tr_comp all_quiet read_repo_answer.
Proof. unfold read_repo_answer. trace_step all_quiet all_quiet_closed; apply quiet_read_line. Qed.

Lemma quiet_read_version_file dir : tr_comp all_quiet (read_version_file dir).
Proof.
  unfold read_version_file. trace_step all_quiet all_quiet_closed;
    auto using quiet_path_exists, quiet_read_text.
Qed.

Lemma quiet_read_gitpull_file dir : tr_comp all_quiet (read_gitpull_file dir).
Proof.
  unfold read_gitpull_file. trace_step all_quiet all_quiet_closed;
    auto using quiet_path_exists, quiet_read_text.
Qed.

Section Driver.
Context (R : remote) (g : string -> config_result).

Lemma quiet_get_default_branch o r : tr_comp all_quiet (get_default_branch R o r).
Proof. unfold get_default_branch. trace_step all_quiet all_quiet_closed. Qed.

Lemma quiet_get_latest_commit_sha o r b : tr_comp all_quiet (get_latest_commit_sha R o r b).
Proof. unfold get_latest_commit_sha. trace_step all_quiet all_quiet_closed. Qed.

Lemma quiet_branches_loop o r pages acc : tr_comp all_quiet (branches_loop o r pages acc).
Proof.
  revert acc. induction pages as [|p pages IH]; intros acc; cbn [branches_loop].
  - apply (tr_ret _ all_quiet_closed).
  - destruct p as [data|code reason|reason|e]; [destruct data|..];
      trace_step all_quiet all_quiet_closed; auto.
Qed.

Lemma quiet_get_branches o r : tr_comp all_quiet (get_branches R o r).
Proof.
  unfold get_branches. trace_step all_quiet all_quiet_closed. apply quiet_branches_loop.
Qed.

Lemma quiet_read_choice : tr_comp all_quiet read_choice.
Proof. unfold read_choice. trace_step all_quiet all_quiet_closed; apply quiet_read_line. Qed.

Lemma quiet_select_loop n bs sbs : tr_comp all_quiet (select_loop n bs sbs).
Proof.
  revert bs sbs. induction n as [|n IH]; intros bs sbs; cbn [select_loop].
  - apply (tr_ret _ all_quiet_closed).
  - trace_step all_quiet all_quiet_closed; auto using quiet_read_choice.
Qed.

Lemma quiet_select_branch bs d : tr_comp all_quiet (select_branch bs d).
Proof.
  unfold select_branch. trace_step all_quiet all_quiet_closed.
  intros w. apply quiet_select_loop.
Qed.

Lemma quiet_resolve_branch o r b d : tr_comp all_quiet (resolve_branch R o r b d).
Proof.
  unfold resolve_branch. trace_step all_quiet all_quiet_closed;
    auto using quiet_get_branches, quiet_select_branch.
Qed.

Lemma quiet_get_remote_url : tr_comp all_quiet (get_remote_url g).
Proof.
  unfold get_remote_url. trace_step all_quiet all_quiet_closed;
    auto using quiet_path_exists, quiet_read_text.
Qed.

Lemma origin_write_ok (url : string) :
  tr_comp all_origin_or_quiet (write_gitpull_file url ".").
Proof.
  intros w. unfold write_gitpull_file, write_file, write_bytes.
  destruct (open_write_err _ _); [constructor|]. constructor; [|constructor]. right. eexists. reflexivity.
Qed.

Lemma quiet_origin {A} (m : M A) : tr_comp all_quiet m -> tr_comp all_origin_or_quiet m.
Proof.
  intros H w. specialize (H w). unfold all_quiet in H. unfold all_origin_or_quiet.
  eapply List.Forall_impl; [|exact H]. intros e He. by left.
Qed.

Lemma quiet_pre {A} (m : M A) : tr_comp all_quiet m -> tr_comp pre_ok m.
Proof. intros H w. apply quiet_pre_ok, H. Qed.

Lemma ask_then {A} (m : M A) :
  tr_comp all_origin_or_quiet m -> tr_comp pre_ok (emit EvAskRepo ;;; m).
Proof.
  intros H w. unfold m_bind, emit. specialize (H (apply_events [EvAskRepo] w)).
  destruct (m _) as [d r]. cbn [fst] in H |- *. intros e He.
  destruct He as [<-|He]; [by left|].
  unfold all_origin_or_quiet in H. rewrite List.Forall_forall in H.
  destruct (H e He) as [Hq|[data ->]]; [by left|right].
  exists data. split; [done|]. by left.
Qed.

Lemma pre_locate_origin : tr_comp pre_ok (locate_origin g).
Proof.
  unfold locate_origin.
  apply (tr_bind _ pre_ok_closed); [apply quiet_pre, quiet_read_gitpull_file|intros gu].
  destruct gu as [url|]; [apply (tr_ret _ pre_ok_closed)|].
  apply (tr_bind _ pre_ok_closed); [apply quiet_pre, quiet_path_isdir|intros isg].
  destruct isg; [apply quiet_pre, quiet_get_remote_url|].
  apply ask_then. trace_step all_origin_or_quiet all_origin_or_quiet_closed;
    auto using quiet_origin, quiet_read_repo_answer, origin_write_ok.
Qed.
End Driver.

Lemma read_version_file_nonempty dir w a :
  snd (read_version_file dir w) = inr a -> a <> Some EmptyString.
Proof.
  unfold read_version_file. rewrite bind_eq. unfold path_exists.
  destruct (negb _); [by intros [= <-]|].
  rewrite bind_eq. destruct (read_text _ _) as [d [e|c]]; [discriminate|]. cbn.
  destruct (String.eqb (strip c) "") eqn:Es; intros [= <-]; [done|].
  intros [= Hs]. rewrite Hs in Es. done.
Qed.

Lemma bind_ret_unit (m : M unit) w : (m ;;; m_ret tt) w = m w.
Proof. rewrite bind_eq. destruct (m w) as [d [e|[]]]; [done|]. cbn. by rewrite app_nil_r. Qed.

Lemma ret_bind {A B} (a : A) (f : A -> M B) w : m_bind (m_ret a) f w = f a w.
Proof. rewrite bind_eq. cbn. by destruct (f a w). Qed.

Lemma bind_ext {A B} (m : M A) (f g : A -> M B) w :
  (forall a w', f a w' = g a w') -> m_bind m f w = m_bind m g w.
Proof. intros H. rewrite !bind_eq. destruct (m w) as [d [e|a]]; [done|]. by rewrite H. Qed.

Lemma write_all_outcome ws w : writes_outcome ws w (fst (write_all ws w)) (snd (write_all ws w)).
Proof.
  revert w. induction ws as [|[p s] ws IH]; intros w; cbn [write_all].
  - left. done.
  - rewrite bind_eq. unfold write_file, write_bytes. destruct (open_write_err w p) as [err|] eqn:E.
    + right. exists 0%nat, p, s, err. cbn. by rewrite E.
    + specialize (IH (apply_events [EvWrite p (BText s)] w)).
      destruct (write_all ws _) as [d r]. cbn [fst snd] in IH |- *.
      destruct IH as [[-> ->]|(k & p' & s' & err & -> & Hn & Ho & ->)]; [left; done|right].
      exists (S k), p', s', err. done.
Qed.

Lemma write_all_ok ws : tr_ok (fun e => exists p s, e = EvWrite p (BText s)) os_failure (write_all ws).
Proof.
  induction ws as [|[p s] ws IH]; cbn [write_all]; [apply ok_ret|].
  apply ok_bind; [|intros _; exact IH].
  eapply ok_mono; [apply write_bytes_ok| |done]. intros e ->. eauto.
Qed.

Section Shape.
Context (R : remote) (args : cli_args).

Lemma shape_prefix F w d0 d r :
  pre_ok d0 -> run_shape R args F (apply_events d0 w) (d, r) -> run_shape R args F w (d0 ++ d, r).
Proof.
  intros H0 [Hq|(pre & prev & new & post & o & n & b & t & Hd & Hpre & Hrest)].
  - left. cbn [fst] in *. apply Forall_app. split; [by apply pre_ok_origin|done].
  - right. exists (d0 ++ pre), prev, new, post, o, n, b, t. cbn [fst snd] in *.
    split; [rewrite Hd; by rewrite app_assoc|]. split; [by apply pre_ok_closed|].
    by rewrite <- app_assoc, apply_events_app.
Qed.

Lemma shape_bind {A} F (m : M A) (f : A -> M unit) (Pv : A -> Prop) w :
  tr_comp pre_ok m -> (forall a, snd (m w) = inr a -> Pv a) ->
  (forall a w', Pv a -> run_shape R args F w' (f a w')) -> run_shape R args F w (m_bind m f w).
Proof.
  intros Hm Hv Hf. rewrite bind_eq. specialize (Hm w).
  destruct (m w) as [d1 [e|a]] eqn:E; cbn [fst snd] in *.
  - left. by apply pre_ok_origin.
  - specialize (Hf a (apply_events d1 w) (Hv a eq_refl)).
    destruct (f a _) as [d2 r2]. by apply shape_prefix.
Qed.

Lemma shape_bind' {A} F (m : M A) (f : A -> M unit) w :
  tr_comp pre_ok m -> (forall a w', run_shape R args F w' (f a w')) -> run_shape R args F w (m_bind m f w).
Proof. intros Hm Hf. apply (shape_bind F m f (fun _ => True)); auto. Qed.

Lemma shape_ret F w : run_shape R args F w (m_ret tt w).
Proof. left. constructor. Qed.

Lemma after_compare_run (clone : bool) owner repo branch target new prev mk_step
    (tail : M unit) wc :
  (forall w, mk_step w = ([], inr tt) \/ (clone = true /\ mk_step w = makedirs false target w)) ->
  (forall w, tail w = write_all (record_writes clone owner repo target new) w) ->
  let run := (if up_to_date prev new then m_ret tt
              else mk_step ;;; materialize R (a_fallback args) owner repo branch target ;;; tail) wc in
  after_compare R clone (a_fallback args) owner repo branch target new prev (fun e => e) wc
    (fst run) (snd run).
Proof.
  intros Hmk Htail. cbv zeta. destruct (up_to_date prev new) eqn:U.
  - left. done.
  - right. split; [done|]. rewrite bind_eq.
    destruct (mk_step wc) as [mk rmk] eqn:Emk. exists mk, rmk.
    split; [destruct (Hmk wc) as [E|[Hc E]]; rewrite Emk in E; [by left|by right]|].
    destruct rmk as [e|[]]; [done|].
    rewrite bind_eq.
    destruct (materialize R (a_fallback args) owner repo branch target (apply_events mk wc))
      as [m res] eqn:Em.
    exists m, res. split; [done|]. destruct res as [e|[]]; [done|].
    rewrite Htail, apply_events_app.
    destruct (write_all (record_writes clone owner repo target new) (apply_events m (apply_events mk wc)))
      as [recs r0] eqn:Ew.
    exists recs, r0. split; [done|]. split; [done|]. by rewrite map_err_id.
Qed.

Lemma after_compare_run' (clone : bool) owner repo branch target new prev mk_step
    (tail : M unit) wc d r :
  (forall w, mk_step w = ([], inr tt) \/ (clone = true /\ mk_step w = makedirs false target w)) ->
  (forall w, tail w = write_all (record_writes clone owner repo target new) w) ->
  (if up_to_date prev new then m_ret tt
   else mk_step ;;; materialize R (a_fallback args) owner repo branch target ;;; tail) wc = (d, r) ->
  after_compare R clone (a_fallback args) owner repo branch target new prev (fun e => e) wc d r.
Proof.
  intros Hmk Htail Hrun.
  pose proof (after_compare_run clone owner repo branch target new prev mk_step tail wc Hmk Htail) as H.
  cbv zeta in H. rewrite Hrun in H. exact H.
Qed.
End Shape.

Lemma pre_nil : pre_ok [].
Proof. intros e []. Qed.

Section Modes.
Context (R : remote) (g : string -> config_result) (args : cli_args).

Lemma shape_clone_mode x w :
  truthy (a_init args) = None -> truthy (a_repo args) = Some x ->
  run_shape R args (fun e => e) w (clone_mode R x (a_fallback args) (a_branch args) w).
Proof.
  intros Hi Hr. unfold clone_mode.
  apply shape_bind'; [intros w0; apply pre_nil|intros [o n] w1]. cbv beta iota zeta.
  apply shape_bind'; [apply quiet_pre, quiet_path_exists|intros ex w2].
  apply shape_bind'; [apply quiet_pre, quiet_get_default_branch|intros db w3].
  apply shape_bind'; [apply quiet_pre, quiet_resolve_branch|intros [br|] w4]; [|apply shape_ret].
  apply shape_bind'; [apply quiet_pre, quiet_get_latest_commit_sha|intros new w5].
  apply (shape_bind R args _ _ _ (fun a => a <> Some EmptyString)).
  { destruct ex; [apply quiet_pre, quiet_read_version_file|intros w6; apply pre_nil]. }
  { intros a. destruct ex; [apply read_version_file_nonempty|by intros [= <-]]. }
  intros prev w6 Hprev. rewrite bind_eq. cbn [emit].
  match goal with |- context [?K (apply_events [EvCompare prev new] w6)] =>
    destruct (K (apply_events [EvCompare prev new] w6)) as [d2 r2] eqn:EK end.
  right. exists [], prev, new, d2, o, n, br, n.
  assert (Hc : clone_run args = true) by (unfold clone_run; by rewrite Hr).
  rewrite Hc. split; [reflexivity|]. split; [apply pre_nil|]. split; [done|].
  split; [done|]. split; [done|]. cbn [snd].
  eapply (after_compare_run' R args true o n br n new prev (if ex then m_ret tt else makedirs false n)
            (write_gitpull_file (github_url o n) n ;;; write_version_file new n)); [| |exact EK].
  - intros w7. destruct ex; [by left|right; done].
  - intros w7. cbn [record_writes app write_all]. unfold write_gitpull_file, write_version_file.
    apply bind_ext. intros [] w8. by rewrite bind_ret_unit.
Qed.

Lemma shape_update_mode w :
  truthy (a_init args) = None -> truthy (a_repo args) = None ->
  run_shape R args (fun e => e) w (update_mode R g (a_fallback args) (a_branch args) w).
Proof.
  intros Hi Hr. unfold update_mode.
  apply shape_bind'; [apply pre_locate_origin|intros url w1].
  apply shape_bind'; [intros w0; apply pre_nil|intros [o n] w2]. cbv beta iota zeta.
  apply shape_bind'; [apply quiet_pre, quiet_get_default_branch|intros db w3].
  apply shape_bind'; [apply quiet_pre, quiet_resolve_branch|intros [br|] w4]; [|apply shape_ret].
  apply shape_bind'; [apply quiet_pre, quiet_get_latest_commit_sha|intros new w5].
  apply (shape_bind R args _ _ _ (fun a => a <> Some EmptyString));
    [apply quiet_pre, quiet_read_version_file|intros a; apply read_version_file_nonempty|].
  intros prev w6 Hprev. rewrite bind_eq. cbn [emit].
  match goal with |- context [?K (apply_events [EvCompare prev new] w6)] =>
    destruct (K (apply_events [EvCompare prev new] w6)) as [d2 r2] eqn:EK end.
  right. exists [], prev, new, d2, o, n, br, ".".
  assert (Hc : clone_run args = false) by (unfold clone_run; by rewrite Hr).
  rewrite Hc. split; [reflexivity|]. split; [apply pre_nil|]. split; [done|].
  split; [done|]. split; [done|]. cbn [snd].
  eapply (after_compare_run' R args false o n br "." new prev (m_ret tt) (write_version_file new "."));
    [| |].
  - intros w7. by left.
  - intros w7. cbn [record_writes app write_all]. unfold write_version_file. by rewrite bind_ret_unit.
  - destruct (up_to_date prev new); [exact EK|].
    rewrite ret_bind. exact EK.
Qed.

Lemma origin_init (init : string) :
  tr_comp all_origin_or_quiet
    (p <- m_lift (parse_repo_arg init) ;; write_gitpull_file (github_url (fst p) (snd p)) ".").
Proof.
  apply (tr_bind _ all_origin_or_quiet_closed);
    [apply (tr_lift _ all_origin_or_quiet_closed)|intros p; apply origin_write_ok].
Qed.

Lemma shape_main_body w : run_shape R args (fun e => e) w (main_body R g args w).
Proof.
  unfold main_body. destruct (truthy (a_init args)) as [init|] eqn:Hi.
  - left. apply origin_init.
  - destruct (truthy (a_repo args)) as [x|] eqn:Hr.
    + by apply shape_clone_mode.
    + by apply shape_update_mode.
Qed.

Lemma shape_map F G w d r :
  run_shape R args F w (d, r) -> run_shape R args (fun e => G (F e)) w (d, map_err G r).
Proof.
  intros [Hq|(pre & prev & new & post & o & n & b & t & Hd & Hpre & Hp & Hi & Ht & Ha)];
    [by left|right].
  exists pre, prev, new, post, o, n, b, t. do 5 (split; [done|]). cbn [snd] in *.
  destruct Ha as [(U & Hpost & ->)|(U & mk & rmk & Hmk & Hres)]; [by left|right].
  split; [done|]. exists mk, rmk. split; [done|].
  destruct rmk as [e|u]; [by destruct Hres as [-> ->]|].
  destruct Hres as (m & res & Hm & Hres). exists m, res. split; [done|].
  destruct res as [e|u']; [by destruct Hres as [-> ->]|].
  destruct Hres as (recs & r0 & Hw & -> & ->). exists recs, r0. do 2 (split; [done|]).
  by destruct r0.
Qed.

(** Every run of [main] has the shape [run_shape], with the exceptions
    reported by [main_exit]. *)
Lemma shape_main w : run_shape R args main_exit w (main R g args w).
Proof.
  rewrite main_run. pose proof (shape_main_body w) as H.
  destruct (main_body R g args w) as [d r]. exact (shape_map _ main_exit w d r H).
Qed.
End Modes.

(** ** Comparison events *)

Definition not_compare (e : event) : bool :=
  match e with EvCompare _ _ => false | _ => true end.

Definition no_compare (d : list event) : Prop := Forall (fun e => not_compare e = true) d.

Lemma no_compare_closed : app_closed no_compare.
Proof. split; [constructor|]. intros a b Ha Hb. by apply Forall_app. Qed.

Definition nc_ok {A} (m : M A) : Prop := tr_ok (fun e => not_compare e = true) (fun _ => True) m.

Lemma nc_of {A} (P : event -> Prop) (Q : exc -> Prop) (m : M A) :
  tr_ok P Q m -> (forall e, P e -> not_compare e = true) -> nc_ok m.
Proof. intros H HP. eapply ok_mono; [exact H|exact HP|done]. Qed.

Lemma nc_tr {A} (m : M A) : nc_ok m -> tr_comp no_compare m.
Proof. intros H w. apply H. Qed.

Ltac nc_step :=
  unfold nc_ok in *;
  repeat match goal with
  | |- tr_ok _ _ (m_bind _ _) => apply ok_bind; [|intros ?]
  | |- tr_ok _ _ (m_catch _ _) => apply (ok_catch _ _ (fun _ => True)); [|intros ? _]
  | |- tr_ok _ _ (m_ret _) => apply ok_ret
  | |- tr_ok _ _ (m_raise _) => by apply ok_raise
  | |- tr_ok _ _ (m_lift _) => by apply ok_lift
  | |- tr_ok _ _ (emit _) => by apply ok_emit
  | |- tr_ok _ _ (match ?x with _ => _ end) => destruct x
  | |- tr_ok _ _ (if ?b then _ else _) => destruct b
  | |- tr_ok _ _ (makedirs _ _) => eapply nc_of; [apply makedirs_ok|by intros ? [? [-> _]]]
  | |- tr_ok _ _ (ensure_parent _) => eapply nc_of; [apply ensure_parent_ok|by intros ? [? [-> _]]]
  | |- tr_ok _ _ (write_bytes _ _) => eapply nc_of; [apply write_bytes_ok|by intros ? ->]
  end.

Section Materialize.
Context (R : remote).

Lemma nc_extract_members t rf ms ec sc : nc_ok (extract_members t rf ms ec sc).
Proof.
  revert ec sc. induction ms as [|m ms IH]; intros ec sc; cbn [extract_members].
  - nc_step.
  - cbv zeta. unfold copy_member.
    repeat match goal with
    | |- tr_ok _ _ (extract_members _ _ _ _ _) => apply IH
    | |- _ => progress nc_step
    end.
Qed.

Lemma nc_download_files o r t fs c : nc_ok (download_files R o r t fs c).
Proof.
  revert c. induction fs as [|f fs IH]; intros c; cbn [download_files]; [nc_step|].
  unfold get_blob_content. nc_step. apply IH.
Qed.

Lemma nc_materialize fb o r b t : nc_ok (materialize R fb o r b t).
Proof.
  unfold materialize. destruct fb.
  - unfold download_via_api, get_repo_tree. nc_step. apply nc_download_files.
  - unfold download_zip, extract_zip. nc_step; apply nc_extract_members.
Qed.

End Materialize.

(* ================================================================== *)
(** ** Runs of the driver around the comparison *)

Lemma pre_no_compare pre : pre_ok pre -> no_compare pre.
Proof.
  intros H. apply List.Forall_forall. intros e He.
  destruct (H e He) as [Hq|(data & -> & _)]; [|done]. by destruct e.
Qed.

Lemma pre_no_materialization pre e : pre_ok pre -> In e pre -> materialization_event e = false.
Proof. intros H He. destruct (H e He) as [Hq|(data & -> & _)]; [|done]. by destruct e. Qed.

Lemma pre_writes pre path data :
  pre_ok pre -> In (EvWrite path data) pre -> path = path_join "." GITPULL_FILE /\ In EvAskRepo pre.
Proof. intros H He. destruct (H _ He) as [Hq|(data' & [= -> ->] & Hk)]; [done|done]. Qed.

Lemma pre_makedirs pre path : pre_ok pre -> ~ In (EvMakeDirs path) pre.
Proof. intros H He. by destruct (H _ He) as [Hq|(data' & [=] & _)]. Qed.

Lemma origin_no_compare d p n : all_origin_or_quiet d -> ~ In (EvCompare p n) d.
Proof.
  intros H He. unfold all_origin_or_quiet in H. rewrite List.Forall_forall in H.
  by destruct (H _ He) as [Hq|(data & [=])].
Qed.

Lemma origin_no_materialization d e : all_origin_or_quiet d -> In e d -> materialization_event e = false.
Proof.
  intros H He. unfold all_origin_or_quiet in H. rewrite List.Forall_forall in H.
  destruct (H _ He) as [Hq|(data & ->)]; [by destruct e|done].
Qed.

Lemma makedirs_events eo t w mk r :
  makedirs eo t w = (mk, r) -> forall e, In e mk -> exists q, e = EvMakeDirs q.
Proof.
  intros E e He. destruct (makedirs_ok eo t w) as [H _]. rewrite E in H. cbn [fst] in H.
  rewrite List.Forall_forall in H. destruct (H e He) as [q [-> _]]. eauto.
Qed.

Lemma after_compare_no_compare R c fb o n b t new prev F wc post r :
  after_compare R c fb o n b t new prev F wc post r -> no_compare post.
Proof.
  intros [(_ & -> & _)|(_ & mk & rmk & Hmk & Hres)]; [constructor|].
  assert (Hk : no_compare mk).
  { destruct Hmk as [[= -> _]|[_ E]]; [constructor|].
    apply List.Forall_forall. intros e He. by destruct (makedirs_events _ _ _ _ _ E e He) as [q ->]. }
  destruct rmk as [e|u]; [by destruct Hres as [-> _]|].
  destruct Hres as (m & res & Hm & Hres).
  assert (Hm' : no_compare m).
  { destruct (nc_materialize R fb o n b t (apply_events mk wc)) as [H _]. by rewrite Hm in H. }
  destruct res as [e|u']; [destruct Hres as [-> _]; by apply (proj2 no_compare_closed)|].
  destruct Hres as (recs & r0 & Hw & -> & _).
  assert (Hr : no_compare recs).
  { destruct (write_all_ok (record_writes c o n t new) (apply_events (mk ++ m) wc)) as [H _].
    rewrite Hw in H. cbn [fst] in H. eapply Forall_impl; [exact H|]. by intros ? (? & ? & ->). }
  repeat (apply (proj2 no_compare_closed); [done|]). done.
Qed.

Lemma compare_unique pre post p n p' n' :
  no_compare pre -> no_compare post ->
  In (EvCompare p' n') (pre ++ EvCompare p n :: post) -> p' = p /\ n' = n.
Proof.
  intros Hpre Hpost Hin. apply in_app_or in Hin as [Hin|[Hin|Hin]].
  - unfold no_compare in Hpre. rewrite List.Forall_forall in Hpre. by apply Hpre in Hin.
  - by injection Hin as -> ->.
  - unfold no_compare in Hpost. rewrite List.Forall_forall in Hpost. by apply Hpost in Hin.
Qed.

Lemma up_to_date_same p : Some p <> Some EmptyString -> up_to_date (Some p) p = true.
Proof.
  intros H. unfold up_to_date. rewrite String.eqb_refl.
  destruct (String.eqb p "") eqn:E; [|done]. apply String.eqb_eq in E. by subst.
Qed.

Lemma apply_events_world pre c rest w :
  apply_events (pre ++ c :: rest) w = apply_events rest (apply_events (pre ++ [c]) w).
Proof. rewrite <- apply_events_app. by rewrite <- app_assoc. Qed.

(** Claim C2. When the stored commit record equals the resolved commit
    (the comparison event is [EvCompare (Some p) p]), the run ends right
    after the comparison and succeeds; it performs no materialization
    (no archive download or extraction, no tree listing or blob fetch),
    creates no directory, and writes no version record. The only write it
    can contain is the save of [./.gitpull] made by the repository prompt
    of update mode before the comparison. *)
Theorem up_to_date_run_inert (R : remote) (g : string -> config_result) (args : cli_args)
    (w : world) (d : list event) (r : exc + unit) (p : string) :
  main R g args w = (d, r) ->
  In (EvCompare (Some p) p) d ->
  exists pre, d = pre ++ [EvCompare (Some p) p] /\ r = inr tt /\
    (forall e, In e d -> materialization_event e = false) /\
    (forall path, ~ In (EvMakeDirs path) d) /\
    (forall path data, In (EvWrite path data) d ->
       path = path_join "." GITPULL_FILE /\ In EvAskRepo pre).
Proof.
  intros E Hin. pose proof (shape_main R g args w) as H. rewrite E in H.
  destruct H as [Hq|(pre & prev & new & post & o & n & b & t & Hd & Hpre & Hp & Hi & Ht & Ha)];
    cbn [fst snd] in *; [by apply origin_no_compare in Hin|].
  subst d. destruct (compare_unique pre post prev new (Some p) p (pre_no_compare pre Hpre)
    (after_compare_no_compare _ _ _ _ _ _ _ _ _ _ _ _ _ Ha) Hin) as [H1 H2]. subst prev new.
  destruct Ha as [(U & -> & ->)|(U & _)]; [|by rewrite (up_to_date_same p Hp) in U].
  exists pre. do 2 (split; [done|]). split; [|split].
  - intros e He. apply in_app_or in He as [He|[<-|[]]]; [|done].
    by apply (pre_no_materialization pre).
  - intros path He. apply in_app_or in He as [He|[[=]|[]]]. by apply (pre_makedirs pre path).
  - intros path data He. apply in_app_or in He as [He|[[=]|[]]]. by apply (pre_writes pre path data).
Qed.

(** Claim C3 (amended). A run that performs a materialization call and
    ends in an exception is the events [pre] before the comparison, the
    comparison, possibly the creation of the target directory, the trace
    [m] of the materialization call, and the record writes [recs]. When
    the materialization failed, [recs] is empty: neither record is
    written by the driver after the comparison, and the run reports the
    materialization's exception. When it succeeded, the run failed on a
    record write: [recs] are the records written before the one whose
    [open] failed, and the run reports that [OSError]. What [pre] writes
    is only [./.gitpull], saved by the repository prompt. *)
Theorem failed_materialization_run (R : remote) (g : string -> config_result)
    (args : cli_args) (w : world) (d : list event) (e : exc) :
  main R g args w = (d, inl e) ->
  (exists ev, In ev d /\ materialization_event ev = true) ->
  exists pre prev new mk m res recs owner repo branch target,
    d = pre ++ EvCompare prev new :: mk ++ m ++ recs /\
    (mk = [] \/ (clone_run args = true /\
       makedirs false target (apply_events (pre ++ [EvCompare prev new]) w) = (mk, inr tt))) /\
    materialize R (a_fallback args) owner repo branch target
      (apply_events (pre ++ EvCompare prev new :: mk) w) = (m, res) /\
    (if clone_run args then target = repo else target = ".") /\
    (forall ev, In ev pre -> materialization_event ev = false) /\
    (forall path, ~ In (EvMakeDirs path) pre) /\
    (forall path data, In (EvWrite path data) pre ->
       path = path_join "." GITPULL_FILE /\ In EvAskRepo pre) /\
    match res with
    | inl e' => recs = [] /\ e = main_exit e'
    | inr _ =>
        exists k p s err,
          recs = take k (map record_event (record_writes (clone_run args) owner repo target new)) /\
          nth_error (record_writes (clone_run args) owner repo target new) k = Some (p, s) /\
          open_write_err (apply_events (pre ++ EvCompare prev new :: mk ++ m ++ recs) w) p = Some err /\
          e = main_exit (os_exc err p)
    end.
Proof.
  intros E [ev [Hev Hmat]]. pose proof (shape_main R g args w) as H. rewrite E in H.
  destruct H as [Hq|(pre & prev & new & post & o & n & b & t & Hd & Hpre & Hp & Hi & Ht & Ha)];
    cbn [fst snd] in *; [by rewrite (origin_no_materialization d ev Hq Hev) in Hmat|].
  subst d.
  assert (Hpm : forall ev, In ev pre -> materialization_event ev = false)
    by (intros ev' He; by apply (pre_no_materialization pre)).
  destruct Ha as [(U & -> & Hr)|(U & mk & rmk & Hmk & Hres)].
  { exfalso. apply in_app_or in Hev as [Hev|[<-|[]]]; [|done]. by rewrite Hpm in Hmat. }
  destruct rmk as [e0|[]].
  { exfalso. destruct Hres as [-> _]. destruct Hmk as [[=]|[_ Emk]].
    apply in_app_or in Hev as [Hev|[<-|Hev]]; [by rewrite Hpm in Hmat|done|].
    destruct (makedirs_events _ _ _ _ _ Emk ev Hev) as [q ->]. done. }
  destruct Hres as (m & res & Hm & Hres).
  assert (Hmk' : mk = [] \/ (clone_run args = true /\
       makedirs false t (apply_events (pre ++ [EvCompare prev new]) w) = (mk, inr tt)))
    by (destruct Hmk as [[= ->]|Hmk]; auto).
  destruct res as [e'|[]].
  - destruct Hres as [-> [= ->]].
    exists pre, prev, new, mk, m, (inl e'), [], o, n, b, t.
    rewrite app_nil_r, (apply_events_world pre (EvCompare prev new) mk w).
    do 5 (split; [done|]). split; [intros ?; by apply pre_makedirs|].
    split; [intros ? ?; by apply pre_writes|]. done.
  - destruct Hres as (recs & r0 & Hw & -> & Hr).
    pose proof (write_all_outcome (record_writes (clone_run args) o n t new)
      (apply_events (mk ++ m) (apply_events (pre ++ [EvCompare prev new]) w))) as Ho.
    rewrite Hw in Ho. cbn [fst snd] in Ho.
    destruct Ho as [[_ ->]|(k & p & s & err & Hrecs & Hn & Hopen & ->)]; [discriminate|].
    injection Hr as ->.
    exists pre, prev, new, mk, m, (inr tt), recs, o, n, b, t.
    rewrite (apply_events_world pre (EvCompare prev new) mk w).
    do 5 (split; [done|]). split; [intros ?; by apply pre_makedirs|].
    split; [intros ? ?; by apply pre_writes|].
    exists k, p, s, err. split; [done|]. split; [done|]. split; [|done].
    rewrite apply_events_world, <- !apply_events_app. rewrite <- !apply_events_app in Hopen.
    by rewrite <- (app_assoc mk m recs) in Hopen.
Qed.

(** Claim C4 (amended). A run with a comparison that found the stored
    record different or absent continues with the creation of the target
    directory (clone mode, when it is missing), then the materialization,
    then the record writes, each step only after the previous one
    succeeded. After a successful materialization the records are written
    in order, in clone mode the origin record [target/.gitpull] and then
    the version record, in update mode ([target = "."]) only the version
    record [./.gitpull.version]; either all of them are written and the
    run succeeds, or the [open] of one of them fails and the run ends with
    that [OSError], the later record not written. *)
Theorem synced_run_records (R : remote) (g : string -> config_result)
    (args : cli_args) (w : world) (d : list event) (r : exc + unit) (prev : option string) (new : string) :
  main R g args w = (d, r) ->
  In (EvCompare prev new) d ->
  up_to_date prev new = false ->
  exists pre mk owner repo branch target,
    (if clone_run args then target = repo else target = ".") /\
    ((exists e0, clone_run args = true /\
        makedirs false target (apply_events (pre ++ [EvCompare prev new]) w) = (mk, inl e0) /\
        d = pre ++ EvCompare prev new :: mk /\ r = inl (main_exit e0)) \/
     (mk = [] \/ (clone_run args = true /\
        makedirs false target (apply_events (pre ++ [EvCompare prev new]) w) = (mk, inr tt))) /\
     exists m res,
       materialize R (a_fallback args) owner repo branch target
         (apply_events (pre ++ EvCompare prev new :: mk) w) = (m, res) /\
       match res with
       | inl e0 => d = pre ++ EvCompare prev new :: mk ++ m /\ r = inl (main_exit e0)
       | inr _ =>
           exists recs,
             d = pre ++ EvCompare prev new :: mk ++ m ++ recs /\
             ((recs = map record_event (record_writes (clone_run args) owner repo target new) /\
               r = inr tt) \/
              (exists k p s err,
                 recs = take k (map record_event (record_writes (clone_run args) owner repo target new)) /\
                 nth_error (record_writes (clone_run args) owner repo target new) k = Some (p, s) /\
                 open_write_err (apply_events d w) p = Some err /\
                 r = inl (main_exit (os_exc err p))))
       end).
Proof.
  intros E Hin U. pose proof (shape_main R g args w) as H. rewrite E in H.
  destruct H as [Hq|(pre & prev' & new' & post & o & n & b & t & Hd & Hpre & Hp & Hi & Ht & Ha)];
    cbn [fst snd] in *; [by apply origin_no_compare in Hin|].
  subst d. destruct (compare_unique pre post prev' new' prev new (pre_no_compare pre Hpre)
    (after_compare_no_compare _ _ _ _ _ _ _ _ _ _ _ _ _ Ha) Hin) as [H1 H2]. subst prev' new'.
  destruct Ha as [(U' & _)|(_ & mk & rmk & Hmk & Hres)]; [congruence|].
  exists pre, mk, o, n, b, t. split; [done|].
  destruct rmk as [e0|[]].
  - left. destruct Hres as [-> ->]. destruct Hmk as [[=]|[Hc Emk]]. exists e0. done.
  - right. split; [destruct Hmk as [[= ->]|Hmk]; auto|].
    destruct Hres as (m & res & Hm & Hres). exists m, res.
    rewrite (apply_events_world pre (EvCompare prev new) mk w). split; [done|].
    destruct res as [e0|[]]; [by destruct Hres as [-> ->]|].
    destruct Hres as (recs & r0 & Hw & -> & ->). exists recs. split; [done|].
    pose proof (write_all_outcome (record_writes (clone_run args) o n t new)
      (apply_events (mk ++ m) (apply_events (pre ++ [EvCompare prev new]) w))) as Ho.
    rewrite Hw in Ho. cbn [fst snd] in Ho.
    destruct Ho as [[-> ->]|(k & p & s & err & Hrecs & Hn & Hopen & ->)]; [by left|right].
    exists k, p, s, err. do 2 (split; [done|]). split; [|done].
    rewrite apply_events_world, <- !apply_events_app. rewrite <- !apply_events_app in Hopen.
    by rewrite <- (app_assoc mk m recs) in Hopen.
Qed.

(* ================================================================== *)
(** ** Concrete runs of the driver *)

Definition written_paths (d : list event) : list string :=
  omap (fun e => match e with EvWrite p _ => Some p | _ => None end) d.

Definition demo_remote (sha : string) (zip : http zip_file) : remote := mkRemote
  (fun _ _ => HOk "main")
  (fun _ _ => [HOk ["main"]])
  (fun _ _ _ => HOk sha)
  (fun _ _ _ => zip)
  (fun _ _ _ => HURLError "timed out")
  (fun _ _ _ => HURLError "timed out").

Definition no_git_config : string -> config_result := fun _ => CfgNoSection.

Definition update_args : cli_args := mkArgs None None false None.
Definition clone_args : cli_args := mkArgs (Some "o/r") None false None.

Definition demo_zip : zip_file :=
  Some [mkMember "r-main/" (MData (BText "")); mkMember "r-main/README" (MData (BText "hi"))].

(** [./.gitpull] holds only a newline (read as absent), [./.gitpull.version]
    holds [abc], no [.git] directory, and the user types [o/r]. *)
Definition blank_origin_world : world :=
  plain_world (<[".gitpull" := BText s_nl]> (<[".gitpull.version" := BText ("abc" +:+ s_nl)]> ∅))
    ∅ ["o/r"].

Definition inert_run := main (demo_remote "abc" (HOk demo_zip)) no_git_config update_args blank_origin_world.

Lemma inert_run_cex :
  In (EvCompare (Some "abc") "abc") (fst inert_run) /\
  written_paths (fst inert_run) = [path_join "." GITPULL_FILE] /\
  w_files blank_origin_world !! ".gitpull" = Some (BText s_nl) /\
  w_files (apply_events (fst inert_run) blank_origin_world) !! ".gitpull" =
    Some (BText ("https://github.com/o/r" +:+ s_nl)).
Proof.
  split; [vm_compute; repeat (first [left; reflexivity|right])|].
  split; [vm_compute; reflexivity|]. split; vm_compute; reflexivity.
Qed.

Lemma inert_run_witness :
  exists pre, fst inert_run = pre ++ [EvCompare (Some "abc") "abc"] /\ snd inert_run = inr tt /\
    (forall e, In e (fst inert_run) -> materialization_event e = false) /\
    (forall path, ~ In (EvMakeDirs path) (fst inert_run)) /\
    (forall path data, In (EvWrite path data) (fst inert_run) ->
       path = path_join "." GITPULL_FILE /\ In EvAskRepo pre).
Proof.
  apply (up_to_date_run_inert (demo_remote "abc" (HOk demo_zip)) no_git_config update_args
    blank_origin_world (fst inert_run) (snd inert_run) "abc").
  - vm_compute. reflexivity.
  - vm_compute. repeat (first [left; reflexivity|right]).
Defined.

(** The same directory without a version record, with an archive
    download that fails. *)
Definition prompt_world : world := plain_world (<[".gitpull" := BText s_nl]> ∅) ∅ ["o/r"].

Definition prompt_fail_run :=
  main (demo_remote "abc" (HURLError "blocked")) no_git_config update_args prompt_world.

(** A clone into an existing [r/] whose archive carries a
    [.gitpull.version] entry with a bad checksum. *)
Definition bad_archive : zip_file :=
  Some [mkMember "r-main/" (MData (BText ""));
        mkMember "r-main/.gitpull.version"
          (MBroken (BText "") (BadZipFile "Bad CRC-32 for file 'r-main/.gitpull.version'"))].

Definition clone_world : world :=
  plain_world (<["r/.gitpull.version" := BText ("old" +:+ s_nl)]> ∅) {[ "r" ]} [].

Definition bad_clone_run := main (demo_remote "abc" (HOk bad_archive)) no_git_config clone_args clone_world.

Lemma failed_materialization_cex :
  snd prompt_fail_run = inl (SystemExit 1) /\
  written_paths (fst prompt_fail_run) = [path_join "." GITPULL_FILE] /\
  w_files (apply_events (fst prompt_fail_run) prompt_world) !! ".gitpull" =
    Some (BText ("https://github.com/o/r" +:+ s_nl)) /\
  snd bad_clone_run = inl (BadZipFile "Bad CRC-32 for file 'r-main/.gitpull.version'") /\
  w_files clone_world !! "r/.gitpull.version" = Some (BText ("old" +:+ s_nl)) /\
  w_files (apply_events (fst bad_clone_run) clone_world) !! "r/.gitpull.version" = Some (BText "").
Proof. repeat split; vm_compute; reflexivity. Qed.

Lemma failed_materialization_witness :
  exists pre prev new mk m res recs owner repo branch target,
    fst prompt_fail_run = pre ++ EvCompare prev new :: mk ++ m ++ recs /\
    (mk = [] \/ (clone_run update_args = true /\
       makedirs false target (apply_events (pre ++ [EvCompare prev new]) prompt_world) = (mk, inr tt))) /\
    materialize (demo_remote "abc" (HURLError "blocked")) (a_fallback update_args) owner repo branch target
      (apply_events (pre ++ EvCompare prev new :: mk) prompt_world) = (m, res) /\
    (if clone_run update_args then target = repo else target = ".") /\
    (forall ev, In ev pre -> materialization_event ev = false) /\
    (forall path, ~ In (EvMakeDirs path) pre) /\
    (forall path data, In (EvWrite path data) pre ->
       path = path_join "." GITPULL_FILE /\ In EvAskRepo pre) /\
    match res with
    | inl e' => recs = [] /\ SystemExit 1 = main_exit e'
    | inr _ =>
        exists k p s err,
          recs = take k (map record_event (record_writes (clone_run update_args) owner repo target new)) /\
          nth_error (record_writes (clone_run update_args) owner repo target new) k = Some (p, s) /\
          open_write_err (apply_events (pre ++ EvCompare prev new :: mk ++ m ++ recs) prompt_world) p = Some err /\
          SystemExit 1 = main_exit (os_exc err p)
    end.
Proof.
  apply (failed_materialization_run (demo_remote "abc" (HURLError "blocked")) no_git_config update_args
    prompt_world (fst prompt_fail_run) (SystemExit 1)).
  - vm_compute. reflexivity.
  - exists (EvDownloadZip "o" "r" "main"). split; [|reflexivity].
    vm_compute. repeat (first [left; reflexivity|right]).
Defined.

(** A directory whose [./.gitpull] names [o/r], with no version record. *)
Definition stored_origin_world : world :=
  plain_world (<[".gitpull" := BText ("https://github.com/o/r" +:+ s_nl)]> ∅) ∅ [].

Definition synced_run := main (demo_remote "abc" (HOk demo_zip)) no_git_config update_args stored_origin_world.

(** A fresh clone whose archive has a [.gitpull/] directory entry. *)
Definition dir_archive : zip_file :=
  Some [mkMember "r-main/" (MData (BText "")); mkMember "r-main/.gitpull/" (MData (BText ""))].

Definition dir_clone_run :=
  main (demo_remote "abc" (HOk dir_archive)) no_git_config clone_args (plain_world ∅ ∅ []).

Lemma synced_run_cex :
  snd synced_run = inr tt /\
  In (EvCompare None "abc") (fst synced_run) /\
  written_paths (fst synced_run) = [path_join "." "README"; path_join "." VERSION_FILE] /\
  In (EvCompare None "abc") (fst dir_clone_run) /\
  In (EvExtractZip "r") (fst dir_clone_run) /\
  snd dir_clone_run = inl (IsADirectoryError "[Errno 21] Is a directory: 'r/.gitpull'") /\
  written_paths (fst dir_clone_run) = [].
Proof.
  split; [vm_compute; reflexivity|]. split; [vm_compute; repeat (first [left; reflexivity|right])|].
  split; [vm_compute; reflexivity|].
  split; [vm_compute; repeat (first [left; reflexivity|right])|].
  split; [vm_compute; repeat (first [left; reflexivity|right])|].
  split; vm_compute; reflexivity.
Qed.

Lemma synced_run_witness :
  exists pre mk owner repo branch target,
    (if clone_run update_args then target = repo else target = ".") /\
    ((exists e0, clone_run update_args = true /\
        makedirs false target (apply_events (pre ++ [EvCompare None "abc"]) stored_origin_world) = (mk, inl e0) /\
        fst synced_run = pre ++ EvCompare None "abc" :: mk /\ snd synced_run = inl (main_exit e0)) \/
     (mk = [] \/ (clone_run update_args = true /\
        makedirs false target (apply_events (pre ++ [EvCompare None "abc"]) stored_origin_world) = (mk, inr tt))) /\
     exists m res,
       materialize (demo_remote "abc" (HOk demo_zip)) (a_fallback update_args) owner repo branch target
         (apply_events (pre ++ EvCompare None "abc" :: mk) stored_origin_world) = (m, res) /\
       match res with
       | inl e0 => fst synced_run = pre ++ EvCompare None "abc" :: mk ++ m /\ snd synced_run = inl (main_exit e0)
       | inr _ =>
           exists recs,
             fst synced_run = pre ++ EvCompare None "abc" :: mk ++ m ++ recs /\
             ((recs = map record_event (record_writes (clone_run update_args) owner repo target "abc") /\
               snd synced_run = inr tt) \/
              (exists k p s err,
                 recs = take k (map record_event (record_writes (clone_run update_args) owner repo target "abc")) /\
                 nth_error (record_writes (clone_run update_args) owner repo target "abc") k = Some (p, s) /\
                 open_write_err (apply_events (fst synced_run) stored_origin_world) p = Some err /\
                 snd synced_run = inl (main_exit (os_exc err p))))
       end).
Proof.
  apply (synced_run_records (demo_remote "abc" (HOk demo_zip)) no_git_config update_args
    stored_origin_world (fst synced_run) (snd synced_run) None "abc").
  - vm_compute. reflexivity.
  - vm_compute. repeat (first [left; reflexivity|right]).
  - reflexivity.
Defined.
(** * Further properties of the code *)

Lemma branches_loop_pages o r fulls last rest acc w :
  Forall (fun p => (per_page <= length p)%nat) fulls -> (length last < per_page)%nat ->
  branches_loop o r (map HOk fulls ++ HOk last :: rest) acc w = ([], inr (acc ++ concat fulls ++ last)).
Proof.
  intros Hf Hl. revert acc. induction Hf as [|p fulls Hp Hf IH]; intros acc; cbn [map app concat].
  - cbn [branches_loop]. destruct last as [|x l].
    + by rewrite !app_nil_r.
    + assert (E : (length (x :: l) <? per_page)%nat = true) by (apply Nat.ltb_lt; lia).
      rewrite E. reflexivity.
  - cbn [branches_loop]. destruct p as [|x p]; [unfold per_page in Hp; simpl in Hp; lia|].
    assert (E : (length (x :: p) <? per_page)%nat = false) by (apply Nat.ltb_ge; lia).
    rewrite E, IH. by rewrite !app_assoc.
Qed.

(** X1: [get_branches] requests pages until the first one shorter than
    [per_page] (possibly empty) and returns the names of all pages up to
    it, in order; later pages are never used. *)
Theorem get_branches_pages R o r fulls last rest w :
  Forall (fun p => (per_page <= length p)%nat) fulls -> (length last < per_page)%nat ->
  r_branch_pages R o r = map HOk fulls ++ HOk last :: rest ->
  get_branches R o r w = ([EvGetBranches o r], inr (concat fulls ++ last)).
Proof.
  intros Hf Hl Hp. unfold get_branches. rewrite Hp.
  unfold m_bind, emit. rewrite branches_loop_pages by done. reflexivity.
Qed.

Lemma insert_sorted_in x y l : In x (insert_sorted y l) <-> x = y \/ In x l.
Proof.
  induction l as [|z l IH]; cbn [insert_sorted]; [cbn; naive_solver|].
  destruct (String.leb y z); [cbn; naive_solver|]. cbn [In]. rewrite IH. naive_solver.
Qed.

Lemma sort_strings_in x l : In x (sort_strings l) <-> In x l.
Proof.
  induction l as [|y l IH]; [done|]. unfold sort_strings in *. cbn [foldr].
  rewrite insert_sorted_in, IH. cbn [In]. naive_solver.
Qed.

Lemma sort_strings_nil l : sort_strings l = [] -> l = [].
Proof.
  destruct l as [|y l]; [done|]. unfold sort_strings. cbn [foldr].
  destruct (foldr insert_sorted [] l); cbn; [discriminate|]. by destruct (String.leb _ _).
Qed.

Definition select_event (e : event) : bool :=
  match e with EvSelectBranch | EvReadLine _ => true | _ => false end.

Lemma w_ctrl_c_events d w : w_ctrl_c (apply_events d w) = w_ctrl_c w.
Proof.
  unfold apply_events. revert w. induction d as [|e d IH]; intros w; [done|].
  cbn [foldl]. rewrite IH. destruct e; try destruct line; reflexivity.
Qed.

Lemma read_choice_cases w :
  (w_stdin w = [] /\
   read_choice w = ([EvReadLine None], if w_ctrl_c w then inl KeyboardInterrupt else inr None)) \/
  (exists l rest, w_stdin w = l :: rest /\ read_choice w = ([EvReadLine (Some l)], inr (Some l))).
Proof.
  unfold read_choice, m_catch, m_bind, read_line.
  destruct (w_stdin w) as [|l rest]; [left|right; eauto].
  split; [done|]. by destruct (w_ctrl_c w).
Qed.

(** The outcomes of one round of the prompt loop *)
Definition loop_outcome (bs sorted : list string) (w : world) (r : exc + option string) : Prop :=
  (exists o, r = inr o /\ forall b, o = Some b -> In b bs) \/
  (r = inl KeyboardInterrupt /\ w_ctrl_c w = true) \/
  (r = inl (IndexError "list index out of range") /\ sorted = []).

Lemma select_loop_member fuel bs sorted w d r :
  (forall x, In x sorted -> In x bs) -> select_loop fuel bs sorted w = (d, r) ->
  Forall (fun e => select_event e = true) d /\ loop_outcome bs sorted w r.
Proof.
  intros Hs. revert w d r. induction fuel as [|fuel IH]; intros w d r E.
  - injection E as <- <-. split; [constructor|]. left. by exists None.
  - cbn [select_loop] in E. rewrite bind_eq in E.
    destruct (read_choice_cases w) as [[Hw Ec]|(l & rest & Hw & Ec)]; rewrite Ec in E.
    + destruct (w_ctrl_c w) eqn:Hc; injection E as <- <-;
        (split; [repeat constructor|]).
      * right; left; done.
      * left; by exists None.
    + cbv beta iota zeta in E.
      remember (apply_events [EvReadLine (Some l)] w) as w' eqn:Hw'.
      assert (Hc : w_ctrl_c w' = w_ctrl_c w) by (subst w'; apply w_ctrl_c_events).
      assert (Hrec : forall d2 r2, select_loop fuel bs sorted w' = (d2, r2) ->
                ([EvReadLine (Some l)] ++ d2, r2) = (d, r) ->
                Forall (fun e => select_event e = true) d /\ loop_outcome bs sorted w r).
      { intros d2 r2 E2 [= <- <-]. apply IH in E2 as [Hd Ho]. split; [by constructor|].
        unfold loop_outcome in *. by rewrite <- Hc. }
      assert (Hret : forall o, (forall b, o = Some b -> In b bs) ->
                ([EvReadLine (Some l)] ++ [], inr o) = (d, r) ->
                Forall (fun e => select_event e = true) d /\ loop_outcome bs sorted w r).
      { intros o Ho [= <- <-]. split; [by repeat constructor|]. left. by exists o. }
      destruct (String.eqb (strip l) "") eqn:E1.
      * destruct sorted as [|s0 sorted'] eqn:Hsorted.
        -- cbn in E. injection E as <- <-. split; [by repeat constructor|]. by right; right.
        -- apply (Hret (Some s0)); [|exact E]. intros b [= <-]. apply Hs. by left.
      * destruct (String.eqb (lower (strip l)) "q") eqn:E2; [by apply (Hret None)|].
        destruct (py_int (strip l)) as [num|] eqn:E3.
        -- destruct ((1 <=? num) && (num <=? Z.of_nat (length sorted))) eqn:E4.
           ++ apply (Hret (nth_error sorted (Z.to_nat (num - 1)))); [|exact E].
              intros b Hb. apply Hs. by apply nth_error_In in Hb.
           ++ destruct (select_loop fuel bs sorted w') as [d2 r2] eqn:E5. by apply (Hrec d2 r2).
        -- destruct (existsb (String.eqb (strip l)) bs) eqn:E4.
           ++ apply (Hret (Some (strip l))); [|exact E]. intros b [= <-].
              apply existsb_exists in E4 as [x [Hx Heq]]. apply String.eqb_eq in Heq. by subst.
           ++ destruct (select_loop fuel bs sorted w') as [d2 r2] eqn:E5. by apply (Hrec d2 r2).
Qed.

Definition sorted_menu (bs : list string) (dflt : option string) : list string :=
  match dflt with
  | Some d =>
      if negb (String.eqb d "") && existsb (String.eqb d) bs
      then d :: filter (fun b => negb (String.eqb b d)) (sort_strings bs)
      else sort_strings bs
  | None => sort_strings bs
  end.

Lemma select_sorted_members bs dflt x : In x (sorted_menu bs dflt) -> In x bs.
Proof.
  unfold sorted_menu. destruct dflt as [d|]; [|by rewrite sort_strings_in].
  destruct (negb (String.eqb d "") && existsb (String.eqb d) bs) eqn:E; [|by rewrite sort_strings_in].
  intros [<-|Hx].
  - apply andb_prop in E as [_ E]. apply existsb_exists in E as [y [Hy Heq]].
    apply String.eqb_eq in Heq. by subst.
  - apply list_elem_of_In, list_elem_of_filter in Hx as [_ Hx].
    apply list_elem_of_In in Hx. by apply sort_strings_in.
Qed.

Lemma sorted_menu_nil bs dflt : sorted_menu bs dflt = [] -> bs = [].
Proof.
  unfold sorted_menu. destruct dflt as [d|]; [|apply sort_strings_nil].
  destruct (_ && _); [discriminate|apply sort_strings_nil].
Qed.

(** X2: the interactive branch selection only prints the menu and reads
    standard input (it writes nothing and calls no remote); when it
    returns a branch, that branch is one of the listed branches. It
    raises only when the user presses Ctrl-C at the prompt
    ([KeyboardInterrupt]), or on a blank answer when there is no branch
    at all ([IndexError] of [sorted_branches[0]]). *)
Theorem select_branch_member bs dflt w d r :
  select_branch bs dflt w = (d, r) ->
  Forall (fun e => select_event e = true) d /\
  ((exists o, r = inr o /\ forall b, o = Some b -> In b bs) \/
   (r = inl KeyboardInterrupt /\ w_ctrl_c w = true) \/
   (r = inl (IndexError "list index out of range") /\ bs = [])).
Proof.
  unfold select_branch, m_bind, emit. cbv beta iota zeta.
  change (match dflt with
          | Some d => if negb (String.eqb d "") && existsb (String.eqb d) bs
                      then d :: filter (fun b => negb (String.eqb b d)) (sort_strings bs)
                      else sort_strings bs
          | None => sort_strings bs end) with (sorted_menu bs dflt).
  match goal with |- context [select_loop ?f bs ?s ?w'] =>
    destruct (select_loop f bs s w') as [d2 r2] eqn:E2 end.
  apply select_loop_member in E2 as [Hd Ho]; [|apply select_sorted_members].
  intros [= <- <-]. split; [by constructor|].
  destruct Ho as [Ho|[[-> Hc]|[-> Hn]]]; [by left|right; left|right; right].
  - split; [done|]. by rewrite w_ctrl_c_events in Hc.
  - split; [done|]. by apply (sorted_menu_nil _ dflt).
Qed.

(** X3: with the default branch [d] among the listed branches, the
    selection menu starts with [d]: an empty answer (only whitespace,
    in the sense of [str.strip]) or [1] selects [d]; [q] or [Q]
    surrounded by any whitespace aborts with no branch; at the end of
    the input the selection aborts with no branch ([EOFError]), or
    raises [KeyboardInterrupt] when the user pressed Ctrl-C. *)
Theorem select_branch_answers bs d w :
  d <> EmptyString -> In d bs ->
  (w_stdin w = [] ->
     snd (select_branch bs (Some d) w) = if w_ctrl_c w then inl KeyboardInterrupt else inr None) /\
  (forall l rest, w_stdin w = l :: rest ->
     (strip l = EmptyString \/ strip l = "1" -> snd (select_branch bs (Some d) w) = inr (Some d)) /\
     (lower (strip l) = "q" -> snd (select_branch bs (Some d) w) = inr None)).
Proof.
  intros Hd Hin.
  assert (Hc : negb (String.eqb d "") && existsb (String.eqb d) bs = true).
  { apply andb_true_intro. split.
    - apply negb_true_iff, String.eqb_neq. done.
    - apply existsb_exists. exists d. split; [done|apply String.eqb_refl]. }
  unfold select_branch. rewrite Hc. unfold m_bind, emit. cbv beta iota zeta.
  change (apply_events [EvSelectBranch] w) with w.
  split.
  - intros Hs. rewrite Hs. cbn [length select_loop]. rewrite bind_eq.
    destruct (read_choice_cases w) as [[_ ->]|(l & rest & Hs' & _)]; [|by rewrite Hs in Hs'].
    by destruct (w_ctrl_c w).
  - intros l rest Hs. rewrite Hs. cbn [length select_loop]. rewrite bind_eq.
    destruct (read_choice_cases w) as [[Hs' _]|(l' & rest' & Hs' & ->)]; rewrite Hs in Hs'; [discriminate|].
    injection Hs' as <- <-. cbv beta iota zeta. split.
    + intros [H|H]; rewrite H; [reflexivity|].
      assert (H1 : (1 <=? Z.of_nat (S (length (filter (fun b => negb (String.eqb b d)) (sort_strings bs))))) = true)
        by (apply Z.leb_le; lia).
      assert (E1 : String.eqb "1" "" = false) by reflexivity.
      assert (E2 : String.eqb (lower "1") "q" = false) by reflexivity.
      assert (E3 : py_int "1" = Some 1) by reflexivity.
      rewrite E1, E2, E3. cbv beta iota. change ((1 <=? 1) && ?x) with x. rewrite H1. reflexivity.
    + intros Hq. assert (He : String.eqb (strip l) "" = false).
      { apply String.eqb_neq. intros E. rewrite E in Hq. discriminate. }
      rewrite He, Hq. reflexivity.
Qed.

(** An answer the prompt loop of [select_branch] turns down: not blank,
    not [q]/[Q], and either a number (as [int()] reads it) outside
    [1..len(sorted_branches)] or a non-number that is not a branch
    name. *)
Definition rejected (branches sorted_branches : list string) (raw : string) : bool :=
  let choice := strip raw in
  negb (String.eqb choice "") && negb (String.eqb (lower choice) "q") &&
  match py_int choice with
  | Some num => negb ((1 <=? num) && (num <=? Z.of_nat (length sorted_branches)))
  | None => negb (existsb (String.eqb choice) branches)
  end.

(** The world [w] with its standard input replaced by [rest] *)
Definition with_stdin (w : world) (rest : list string) : world :=
  mkWorld (w_files w) (w_dirs w) (w_nowrite w) (w_noread w) rest (w_ctrl_c w).

(** X19: the branch prompt asks again after every answer it turns down:
    reading a run of such answers only logs the lines read, and the loop
    then behaves on the remaining input as if they had never been
    typed. *)
Theorem select_loop_retries fuel bs sb bad rest w :
  Forall (fun l => rejected bs sb l = true) bad -> w_stdin w = bad ++ rest ->
  select_loop (length bad + fuel) bs sb w =
    let '(d, r) := select_loop fuel bs sb (with_stdin w rest) in
    (map (fun l => EvReadLine (Some l)) bad ++ d, r).
Proof.
  revert w. induction bad as [|l bad IH]; intros w Hb Hs.
  - cbn [length Nat.add map app]. destruct w as [f dr nw nr st cc]. cbn in Hs. subst st.
    unfold with_stdin. cbn [w_files w_dirs w_nowrite w_noread w_ctrl_c].
    by destruct (select_loop fuel bs sb _).
  - apply Forall_cons in Hb as [Hl Hb].
    cbn [length Nat.add select_loop]. rewrite bind_eq.
    destruct (read_choice_cases w) as [[Hs' _]|(l' & rest' & Hs' & ->)]; rewrite Hs in Hs'; [discriminate|].
    injection Hs' as <- <-.
    unfold rejected in Hl.
    destruct (String.eqb (strip l) "") eqn:E1; [done|].
    destruct (String.eqb (lower (strip l)) "q") eqn:E2; [done|]. cbn [negb andb] in Hl.
    assert (Hw : apply_events [EvReadLine (Some l)] w = with_stdin w (bad ++ rest)).
    { destruct w as [f dr nw nr st cc]. cbn in Hs |- *. unfold with_stdin. cbn. by rewrite Hs. }
    cbv beta iota zeta. rewrite Hw.
    assert (Hw2 : with_stdin (with_stdin w (bad ++ rest)) rest = with_stdin w rest) by reflexivity.
    destruct (py_int (strip l)) as [num|];
      [destruct ((1 <=? num) && (num <=? Z.of_nat (length sb))); [done|]
      |destruct (existsb (String.eqb (strip l)) bs); [done|]];
      rewrite (IH (with_stdin w (bad ++ rest)) Hb eq_refl), Hw2;
      by destruct (select_loop fuel bs sb _).
Qed.

Lemma in_bind {A B} (m : M A) (f : A -> M B) w e :
  In e (fst (m_bind m f w)) -> In e (fst (m w)) \/ exists a w', In e (fst (f a w')).
Proof.
  rewrite bind_eq. destruct (m w) as [d1 [x|a]]; [by left|].
  destruct (f a _) as [d2 r2] eqn:E. cbn [fst]. intros H. apply in_app_or in H as [H|H]; [by left|].
  right. exists a, (apply_events d1 w). by rewrite E.
Qed.

Lemma mkdir_in_no_write n d p x : Forall (mkdir_in n) d -> ~ In (EvWrite p x) d.
Proof. intros H Hin. rewrite List.Forall_forall in H. by destruct (H _ Hin) as (q & [=] & _). Qed.

Lemma parent_no_write p w q x : ~ In (EvWrite q x) (fst (ensure_parent p w)).
Proof. apply (mkdir_in_no_write (dirname p)). apply ensure_parent_ok. Qed.

Lemma makedirs_no_write eo p w q x : ~ In (EvWrite q x) (fst (makedirs eo p w)).
Proof. apply (mkdir_in_no_write p). apply makedirs_ok. Qed.

(** What copying an entry writes to its target before it finishes or
    raises: the whole content, the part of it copied before a bad CRC
    or corrupt data is detected, or nothing at all. *)
Definition member_written (data : member_data) : option bytes :=
  match data with MData b => Some b | MBroken b _ => Some b | MUnopenable _ => None end.

Lemma copy_member_writes tp data w p x :
  In (EvWrite p x) (fst (copy_member tp data w)) -> p = tp /\ member_written data = Some x.
Proof.
  destruct data as [b|b e|e]; cbn [copy_member member_written].
  - destruct (write_bytes_ok tp b w) as [H _]. rewrite List.Forall_forall in H.
    intros Hin. apply H in Hin. by injection Hin as -> ->.
  - intros Hin. apply in_bind in Hin as [Hin|(a & w' & Hin)]; [|done].
    destruct (write_bytes_ok tp b w) as [H _]. rewrite List.Forall_forall in H.
    apply H in Hin. by injection Hin as -> ->.
  - done.
Qed.

Lemma extract_members_writes t rf ms ec sc w p x :
  In (EvWrite p x) (fst (extract_members t rf ms ec sc w)) ->
  exists m rel, In m ms /\ strip_prefix rf (zm_filename m) = Some rel /\ p = path_join t rel /\
    member_written (zm_data m) = Some x /\ rel <> EmptyString /\ starts_with ".git/" rel = false /\
    rel <> ".git" /\ is_dir_name (zm_filename m) = false.
Proof.
  revert ec sc w. induction ms as [|m ms IH]; intros ec sc w; cbn [extract_members]; [cbn; done|].
  assert (Hr : forall ec' sc' w', In (EvWrite p x) (fst (extract_members t rf ms ec' sc' w')) ->
    exists m' rel, In m' (m :: ms) /\ strip_prefix rf (zm_filename m') = Some rel /\ p = path_join t rel /\
      member_written (zm_data m') = Some x /\ rel <> EmptyString /\ starts_with ".git/" rel = false /\
      rel <> ".git" /\ is_dir_name (zm_filename m') = false).
  { intros ec' sc' w' H. destruct (IH ec' sc' w' H) as (m' & rel & ?). exists m', rel. naive_solver. }
  destruct (String.eqb (zm_filename m) rf); [apply Hr|].
  destruct (strip_prefix rf (zm_filename m)) as [rel|] eqn:Hs; [|apply Hr].
  destruct (String.eqb rel "") eqn:H0; [apply Hr|].
  destruct (starts_with ".git/" rel || String.eqb rel ".git") eqn:Hg; [apply Hr|].
  apply orb_false_iff in Hg as [Hg1 Hg2].
  destruct (is_dir_name (zm_filename m)) eqn:Hd.
  - intros H. apply in_bind in H as [H|(a & w' & H)]; [by apply makedirs_no_write in H|by apply Hr in H].
  - intros H. apply in_bind in H as [H|(a & w' & H)]; [by apply parent_no_write in H|].
    apply in_bind in H as [H|(a' & w'' & H)]; [|by apply Hr in H].
    apply copy_member_writes in H as [-> Hx].
    exists m, rel. repeat split; try done; [by left| |].
    + intros ->. by rewrite String.eqb_refl in H0.
    + intros ->. by rewrite String.eqb_refl in Hg2.
Qed.

(** X4: [extract_zip] writes only files of the archive's root folder
    (the first segment of its first entry): each write is of a file entry
    [root/rel] with [rel] non-empty and neither [.git] nor under [.git/],
    at [os.path.join(target, rel)]; opening the target truncates it, and
    what is written is the entry's content, or the part of it copied
    before a bad CRC or corrupt data made the copy raise. An entry
    [zf.open] refuses (encrypted, unsupported compression) writes
    nothing. *)
Theorem extract_zip_writes zf t w d r p x :
  extract_zip zf t w = (d, r) -> In (EvWrite p x) d ->
  exists m0 ms m rel, zf = Some (m0 :: ms) /\ In m (m0 :: ms) /\
    strip_prefix (first_segment (zm_filename m0) +:+ "/") (zm_filename m) = Some rel /\
    p = path_join t rel /\ member_written (zm_data m) = Some x /\ rel <> EmptyString /\
    starts_with ".git/" rel = false /\ rel <> ".git" /\ is_dir_name (zm_filename m) = false.
Proof.
  intros E H. replace d with (fst (extract_zip zf t w)) in H by (by rewrite E). clear E.
  unfold extract_zip in H. apply in_bind in H as [H|(a & w' & H)]; [cbn in H; naive_solver|].
  destruct zf as [[|m0 ms]|]; cbn [map fst m_raise] in H; try done.
  apply extract_members_writes in H as (m & rel & Hm & ?). exists m0, ms, m, rel. naive_solver.
Qed.

(** An entry of the [.git] folder of the archive root [rf]. *)
Definition git_entry (rf : string) (m : zip_member) : bool :=
  match strip_prefix rf (zm_filename m) with
  | Some rel => starts_with ".git/" rel || String.eqb rel ".git"
  | None => false
  end.

Lemma strip_prefix_self p : strip_prefix p p = Some EmptyString.
Proof. induction p as [|c p IH]; [done|]. cbn. unfold ascii_eqb. by rewrite Ascii.eqb_refl. Qed.

Lemma written_paths_files d : written_paths d = map fst (written_files d).
Proof.
  unfold written_paths, written_files. induction d as [|e d IH]; [done|].
  destruct e; cbn; rewrite ?IH; reflexivity.
Qed.

Lemma makedirs_nowrite eo p w d r : makedirs eo p w = (d, r) -> written_files d = [].
Proof.
  intros E. destruct (makedirs_ok eo p w) as [H _]. rewrite E in H. cbn [fst] in H. clear E.
  induction H as [|e d [q [-> _]] _ IH]; [done|]. exact IH.
Qed.

Lemma extract_members_counts t rf ms ec sc w d ec' sc' :
  extract_members t rf ms ec sc w = (d, inr (ec', sc')) ->
  ec' = (ec + length (written_paths d))%nat /\ sc' = (sc + length (List.filter (git_entry rf) ms))%nat.
Proof.
  revert ec sc w d. induction ms as [|m ms IH]; intros ec sc w d; cbn [extract_members].
  - intros [= <- <- <-]. cbn. lia.
  - cbn [List.filter]. unfold git_entry at 1.
    destruct (String.eqb (zm_filename m) rf) eqn:Hn.
    { apply String.eqb_eq in Hn. rewrite Hn, strip_prefix_self. apply IH. }
    destruct (strip_prefix rf (zm_filename m)) as [rel|] eqn:Hs; [|apply IH].
    destruct (String.eqb rel "") eqn:H0.
    { apply String.eqb_eq in H0. subst rel. apply IH. }
    destruct (starts_with ".git/" rel || String.eqb rel ".git") eqn:Hg.
    { intros E. apply IH in E as [-> ->]. cbn [length]. lia. }
    rewrite !written_paths_files.
    destruct (is_dir_name (zm_filename m)).
    + intros E. apply bind_inr in E as (d1 & a & d2 & E1 & E2 & ->).
      apply makedirs_nowrite in E1. apply IH in E2 as [-> ->].
      rewrite written_paths_files. unfold written_files in *. rewrite omap_app, E1. cbn. lia.
    + intros E. apply bind_inr in E as (d1 & a & d2 & E1 & E2 & ->).
      apply ensure_parent_nowrite in E1.
      apply bind_inr in E2 as (d3 & a' & d4 & E3 & E4 & ->).
      assert (Hd3 : written_files d3 = [(path_join t rel, match zm_data m with MData b => b | _ => BUndecodable end)]).
      { destruct (zm_data m) as [b|b e|e]; cbn [copy_member] in E3.
        - apply write_bytes_inr in E3 as ->. reflexivity.
        - apply bind_inr in E3 as (? & ? & ? & _ & E & _). discriminate.
        - discriminate. }
      apply IH in E4 as [-> ->]. rewrite written_paths_files.
      unfold written_files in *. rewrite !omap_app, E1, Hd3. cbn. lia.
Qed.

(** X5: when [extract_zip] succeeds, the extracted count it reports is
    the number of files it wrote, and the skipped count is the number of
    archive entries of the root's [.git] folder. *)
Theorem extract_zip_counts m0 ms t w d ec sc :
  extract_zip (Some (m0 :: ms)) t w = (d, inr (ec, sc)) ->
  ec = length (written_paths d) /\
  sc = length (List.filter (git_entry (first_segment (zm_filename m0) +:+ "/")) (m0 :: ms)).
Proof.
  unfold extract_zip. intros E. apply bind_inr in E as (d1 & a & d2 & E1 & E2 & ->).
  injection E1 as <- _. cbn [map] in E2. apply extract_members_counts in E2 as [-> ->].
  change (written_paths ([EvExtractZip t] ++ d2)) with (written_paths d2). lia.
Qed.

Lemma ends_with_one_app (c : ascii) (x y : string) :
  y <> EmptyString -> ends_with (String c EmptyString) (x +:+ y) = ends_with (String c EmptyString) y.
Proof.
  intros Hy. induction x as [|a x IH]; [by rewrite str_app_nil_l|].
  rewrite str_app_cons. cbn [ends_with]. rewrite IH.
  assert (E : String.eqb (String a (x +:+ y)) (String c EmptyString) = false).
  { apply String.eqb_neq. intros [= _ Hn]. destruct x; [rewrite str_app_nil_l in Hn; done|done]. }
  by rewrite E.
Qed.

Lemma eqb_app_nonempty (a b : string) : b <> EmptyString -> String.eqb (a +:+ b) a = false.
Proof.
  intros Hb. apply String.eqb_neq. intros H. apply (f_equal String.length) in H.
  rewrite str_length_app in H. destruct b; [done|]. cbn in H. lia.
Qed.

Lemma absolute_entry_eq root q x t w :
  has_slash root = false -> is_dir_name ("/" +:+ q) = false ->
  extract_zip (Some [mkMember (root +:+ "/" +:+ "/" +:+ q) (MData x)]) t w =
  (emit (EvExtractZip t) ;;;
   (ensure_parent ("/" +:+ q) ;;; (write_bytes ("/" +:+ q) x ;;; m_ret (1%nat, 0%nat)))) w.
Proof.
  intros Hr Hd. unfold extract_zip. cbn [map zm_filename].
  assert (Hf : first_segment (root +:+ "/" +:+ "/" +:+ q) = root).
  { unfold first_segment. change ("/" +:+ "/" +:+ q) with (String SLASH ("/" +:+ q)).
    by rewrite split_slash_app. }
  rewrite Hf. cbn [extract_members zm_filename zm_data].
  rewrite <- (str_app_assoc root "/" ("/" +:+ q)), strip_prefix_app.
  rewrite (eqb_app_nonempty (root +:+ "/")) by done.
  change ("/" +:+ q) with (String "/" q) in *.
  assert (E1 : String.eqb (String "/" q) "" = false) by reflexivity.
  assert (E2 : starts_with ".git/" (String "/" q) || String.eqb (String "/" q) ".git" = false)
    by reflexivity.
  assert (E3 : path_join t (String "/" q) = String "/" q) by reflexivity.
  assert (E4 : is_dir_name ((root +:+ "/") +:+ String "/" q) = false).
  { unfold is_dir_name in *. by rewrite ends_with_one_app. }
  rewrite E1, E2, E3, E4. reflexivity.
Qed.

(** X6: [extract_zip] does not confine its writes to the target
    directory: for an archive whose only entry is [root//abs] (root
    folder, then a path that starts with a slash), [os.path.join(target,
    '/abs')] is ['/abs'], so the extraction announces itself, creates
    directories only on the way to [/abs] and writes only [/abs]; when
    it succeeds it has written [/abs] with the entry's content and counts
    one extracted file; when it fails (a directory or a missing
    permission at [/abs] or above it) the error is an [OSError]. *)
Theorem extract_zip_absolute_entry root q x t w :
  has_slash root = false -> is_dir_name ("/" +:+ q) = false ->
  let '(d, r) := extract_zip (Some [mkMember (root +:+ "/" +:+ "/" +:+ q) (MData x)]) t w in
  Forall (fun e => e = EvExtractZip t \/ e = EvWrite ("/" +:+ q) x \/ mkdir_in (dirname ("/" +:+ q)) e) d /\
  match r with
  | inr counts => counts = (1%nat, 0%nat) /\ written_files d = [("/" +:+ q, x)]
  | inl e => is_os_error e = true
  end.
Proof.
  intros Hr Hd. rewrite absolute_entry_eq by done.
  set (P := fun e => e = EvExtractZip t \/ e = EvWrite ("/" +:+ q) x \/ mkdir_in (dirname ("/" +:+ q)) e).
  assert (Hok : tr_ok P os_failure
    (emit (EvExtractZip t) ;;; (ensure_parent ("/" +:+ q) ;;; (write_bytes ("/" +:+ q) x ;;; m_ret (1%nat, 0%nat))))).
  { apply ok_bind; [apply ok_emit; by left|intros _].
    apply ok_bind; [eapply ok_mono; [apply ensure_parent_ok| |done]; intros; unfold P; tauto|intros _].
    apply ok_bind; [eapply ok_mono; [apply write_bytes_ok| |done]; intros e ->; unfold P; tauto|intros _].
    apply ok_ret. }
  destruct (Hok w) as [H1 H2].
  destruct ((emit (EvExtractZip t) ;;; _) w) as [d r] eqn:E. cbn [fst snd] in H1, H2.
  split; [exact H1|]. destruct r as [e|counts]; [by apply H2|].
  apply bind_inr in E as (d0 & [] & d' & E0 & E & ->). cbn in E0. injection E0 as <-.
  apply bind_inr in E as (d1 & [] & d2 & E1 & E & ->).
  apply bind_inr in E as (d3 & [] & d4 & E3 & E & ->).
  cbn in E. injection E as <- <-.
  apply write_bytes_inr in E3 as ->. apply ensure_parent_nowrite in E1.
  split; [done|]. unfold written_files in *. rewrite !omap_app, E1. reflexivity.
Qed.














Lemma parse_repo_arg_error s e : parse_repo_arg s = inl e -> exists msg, e = ValueError msg.
Proof.
  unfold parse_repo_arg.
  destruct (match_https _) as [[]|]; [done|]. destruct (match_domain _) as [[]|]; [done|].
  destruct (match_owner_repo _) as [[]|]; [done|]. intros [= <-]. eauto.
Qed.

Lemma parse_github_url_error s e : parse_github_url s = inl e -> exists msg, e = ValueError msg.
Proof.
  unfold parse_github_url.
  repeat match goal with |- context [match ?x with _ => _ end] => destruct x end;
    try done; intros [= <-]; eauto.
Qed.

(** X9: with a non-empty [--init] argument, [main] only records the
    origin, whatever the other arguments: when the argument parses as
    [owner/repo] it writes [https://github.com/owner/repo] and a newline
    to [./.gitpull] and stops, or, when that file cannot be opened for
    writing, fails with the [OSError] of [open] ([sys.exit(1)] for a
    [FileNotFoundError]); an argument that does not parse makes it exit
    with status 1 having done nothing. *)
Theorem main_init_mode R g repo init fallback branch w :
  init <> EmptyString ->
  main R g (mkArgs repo (Some init) fallback branch) w =
    match parse_repo_arg init with
    | inr (o, n) =>
        match open_write_err w (path_join "." GITPULL_FILE) with
        | None => ([EvWrite (path_join "." GITPULL_FILE) (BText (github_url o n +:+ s_nl))], inr tt)
        | Some err => ([], inl (main_exit (os_exc err (path_join "." GITPULL_FILE))))
        end
    | inl _ => ([], inl (SystemExit 1))
    end.
Proof.
  intros Hi. rewrite main_run. unfold main_body. cbn [a_init truthy].
  destruct (String.eqb init "") eqn:E; [apply String.eqb_eq in E; done|].
  rewrite bind_eq. cbn [m_lift].
  destruct (parse_repo_arg init) as [e|[o n]] eqn:Hp.
  - apply parse_repo_arg_error in Hp as [msg ->]. reflexivity.
  - cbv beta iota zeta. rewrite apply_events_nil.
    unfold write_gitpull_file, write_file, write_bytes. cbn [fst snd].
    destruct (open_write_err w _); reflexivity.
Qed.

Lemma read_gitpull_file_silent dir w : fst (read_gitpull_file dir w) = [].
Proof.
  unfold read_gitpull_file. rewrite bind_eq. unfold path_exists.
  destruct (negb _); [reflexivity|].
  rewrite bind_eq. unfold read_text. destruct (open_read _ _) as [e|[s|]]; reflexivity.
Qed.

Lemma path_isdir_run p w : path_isdir p w = ([], snd (path_isdir p w)).
Proof. reflexivity. Qed.

(** X10: in update mode, when [./.gitpull] gives no origin, there is no
    [.git] directory, and the answer to the repository prompt is end of
    input, a line that is blank once stripped of its whitespace (in the
    sense of [str.strip], e.g. a no-break space), or text that does not
    parse as a repository, [main] stops right after the prompt, having
    written nothing and contacted no remote: with exit status 1, or 130
    when the user pressed Ctrl-C at the prompt. *)
Theorem main_prompt_abort R g args w :
  truthy (a_init args) = None -> truthy (a_repo args) = None ->
  snd (read_gitpull_file "." w) = inr None -> snd (path_isdir ".git" w) = inr false ->
  match head (w_stdin w) with
  | None => True
  | Some raw => strip raw = EmptyString \/ exists e, parse_repo_arg (strip raw) = inl e
  end ->
  main R g args w =
    ([EvAskRepo; EvReadLine (head (w_stdin w))],
     inl (SystemExit (match head (w_stdin w) with None => if w_ctrl_c w then 130 else 1 | Some _ => 1 end))).
Proof.
  intros Hi Hr Hg Hd Hl. unfold main, m_catch, main_body. rewrite Hi, Hr.
  unfold update_mode. rewrite bind_eq. unfold locate_origin. rewrite bind_eq.
  assert (Erg : read_gitpull_file "." w = ([], inr None)).
  { rewrite <- Hg, <- (read_gitpull_file_silent "." w). by destruct (read_gitpull_file "." w). }
  rewrite Erg. rewrite apply_events_nil. rewrite bind_eq. rewrite path_isdir_run, Hd.
  rewrite apply_events_nil.
  rewrite bind_eq. cbn [emit]. rewrite bind_eq. unfold read_repo_answer, m_catch, read_line.
  change (w_stdin (apply_events [EvAskRepo] w)) with (w_stdin w).
  change (w_ctrl_c (apply_events [EvAskRepo] w)) with (w_ctrl_c w).
  destruct (w_stdin w) as [|l rest]; cbn [head] in Hl |- *.
  - destruct (w_ctrl_c w); reflexivity.
  - destruct (String.eqb (strip l) "") eqn:E; [reflexivity|].
    destruct Hl as [Hl|[e He]]; [rewrite Hl in E; done|].
    rewrite bind_eq. cbn [m_lift]. rewrite He.
    apply parse_repo_arg_error in He as [msg ->]. reflexivity.
Qed.





(** X12: the origin record a clone writes,
    [https://github.com/owner/repo] for the [(owner, repo)] that
    [parse_repo_arg] returned, is parsed back by [parse_github_url]
    (which update mode uses) to the same pair when the repository name
    ends neither in [.git] nor in a newline; a name that does end in
    [.git], as from [o/x.git.git], comes back shortened. *)
Theorem clone_origin_parses :
  (forall s o n, parse_repo_arg s = inr (o, n) ->
     ends_with ".git" n = false -> ends_with s_nl n = false ->
     parse_github_url (github_url o n) = inr (o, n)) /\
  parse_repo_arg "o/x.git.git" = inr ("o", "x.git") /\
  parse_github_url (github_url "o" "x.git") = inr ("o", "x").
Proof.
  split; [|split; reflexivity].
  intros s o n Hp Hg Hl. apply parse_repo_arg_sound in Hp as (p & _ & _ & Ho & [Hn0 Hn]).
  unfold parse_github_url, github_url. rewrite strip_prefix_app.
  replace (o +:+ "/" +:+ n) with (o +:+ "/" +:+ n +:+ "") by (by rewrite str_app_nil_r).
  rewrite match_owner_lazy_app; [done|done|done|done|]. by right.
Qed.

(** ** Which exceptions leave [main] *)

(** The exception an archive entry raises when it is read. *)
Definition member_exc (m : zip_member) (e : exc) : Prop :=
  match zm_data m with MData _ => False | MBroken _ e' => e = e' | MUnopenable e' => e = e' end.

(** The exceptions that reach the code from its collaborators: an
    exception raised while a response is read or decoded, one raised
    while an archive entry is read, or a [configparser] error. *)
Definition external (R : remote) (g : string -> config_result) (e : exc) : Prop :=
  (exists o n, r_repo_info R o n = HRaise e) \/
  (exists o n, In (HRaise e) (r_branch_pages R o n)) \/
  (exists o n b, r_commit R o n b = HRaise e) \/
  (exists o n b, r_zip R o n b = HRaise e) \/
  (exists o n b ms m, r_zip R o n b = HOk (Some ms) /\ In m ms /\ member_exc m e) \/
  (exists o n b, r_tree R o n b = HRaise e) \/
  (exists o n s, r_blob R o n s = HRaise e) \/
  (exists text, g text = CfgRaise e).

(** The classes the handlers of [main] catch *)
Definition caught (e : exc) : bool :=
  match e with
  | FileNotFoundError _ | ValueError _ | UnicodeDecodeError _
  | RuntimeError _ | NotImplementedError _ | KeyboardInterrupt => true
  | _ => false
  end.

(** The exceptions the code itself raises that its handlers let
    through, and the collaborators' exceptions. *)
Definition escaping (R : remote) (g : string -> config_result) (e : exc) : Prop :=
  is_os_error e = true \/ (exists msg, e = BadZipFile msg) \/
  e = IndexError "list index out of range" \/ (exists msg, e = KeyError msg) \/ external R g e.

Definition body_exc (R : remote) (g : string -> config_result) (e : exc) : Prop :=
  e = SystemExit 1 \/ caught e = true \/ escaping R g e.

Lemma ok_bind_val {A B} (P : event -> Prop) (Q : exc -> Prop) (V : A -> Prop) (m : M A) (f : A -> M B) :
  tr_ok P Q m -> (forall w d a, m w = (d, inr a) -> V a) -> (forall a, V a -> tr_ok P Q (f a)) ->
  tr_ok P Q (m_bind m f).
Proof.
  intros Hm HV Hf w. rewrite bind_eq. destruct (Hm w) as [H1 H2]. pose proof (HV w) as HVw.
  destruct (m w) as [d1 [e|a]]; cbn [fst snd] in *; [split; [done|]; by intros ? [= <-]; apply H2|].
  destruct (Hf a (HVw d1 a eq_refl) (apply_events d1 w)) as [H3 H4].
  destruct (f a _) as [d2 r2]. cbn [fst snd] in *. split; [by apply Forall_app|exact H4].
Qed.

Section Exits.
Context (R : remote) (g : string -> config_result).

Let Q := body_exc R g.
Let T : event -> Prop := fun _ => True.

Lemma q_os e : is_os_error e = true -> Q e.
Proof. intros H. right; right. by left. Qed.

Lemma q_caught e : caught e = true -> Q e.
Proof. intros H. right. by left. Qed.

Lemma q_ext e : external R g e -> Q e.
Proof. intros H. right; right. do 4 right. exact H. Qed.

Ltac ex_step :=
  repeat match goal with
  | |- tr_ok _ _ (m_bind _ _) => apply ok_bind; [|intros ?]
  | |- tr_ok _ _ (m_ret _) => apply ok_ret
  | |- tr_ok _ _ (emit _) => by apply ok_emit
  | |- tr_ok _ _ (m_raise (SystemExit 1)) => apply ok_raise; by left
  | |- tr_ok _ _ (m_raise ?e) => apply ok_raise; apply q_caught; reflexivity
  | |- tr_ok _ _ (match ?x with _ => _ end) => destruct x eqn:?
  | |- tr_ok _ _ (if ?b then _ else _) => destruct b eqn:?
  end.

Lemma ex_path_exists p : tr_ok T Q (path_exists p).
Proof. intros w. split; [constructor|discriminate]. Qed.

Lemma ex_path_isdir p : tr_ok T Q (path_isdir p).
Proof. intros w. split; [constructor|discriminate]. Qed.

Lemma open_read_error w p e : open_read w p = inl e -> is_os_error e = true.
Proof.
  unfold open_read. destruct (resolve_err w p); [intros [= <-]; apply os_exc_os|].
  destruct (kind_of w (path_key p)); [|destruct (trailing_slash p); [|case_decide]|];
    try discriminate; intros [= <-]; reflexivity.
Qed.

Lemma ex_read_text p : tr_ok T Q (read_text p).
Proof.
  intros w. unfold read_text. destruct (open_read w p) as [e|[s|]] eqn:Ho;
    (split; [constructor|]); intros ? [= <-]; [|by apply q_caught].
  apply q_os. by eapply open_read_error.
Qed.

Lemma ex_write_bytes p b : tr_ok T Q (write_bytes p b).
Proof. eapply ok_mono; [apply write_bytes_ok|done|]. apply q_os. Qed.

Lemma ex_makedirs eo p : tr_ok T Q (makedirs eo p).
Proof. eapply ok_mono; [apply makedirs_ok|done|]. apply q_os. Qed.

Lemma ex_ensure_parent p : tr_ok T Q (ensure_parent p).
Proof. eapply ok_mono; [apply ensure_parent_ok|done|]. apply q_os. Qed.

Lemma ex_read_line : tr_ok T (fun e => e = EOFError \/ e = KeyboardInterrupt) read_line.
Proof.
  intros w. unfold read_line. destruct (w_stdin w); (split; [by repeat constructor|]).
  - intros ? [= <-]. destruct (w_ctrl_c w); auto.
  - discriminate.
Qed.

Lemma ex_read_choice : tr_ok T Q read_choice.
Proof.
  unfold read_choice. apply (ok_catch _ _ (fun e => e = EOFError \/ e = KeyboardInterrupt)).
  - apply ok_bind; [apply ex_read_line|intros ?; apply ok_ret].
  - intros e [-> | ->]; [apply ok_ret|]. apply ok_raise. by apply q_caught.
Qed.

Lemma ex_read_repo_answer : tr_ok T Q read_repo_answer.
Proof.
  unfold read_repo_answer. apply (ok_catch _ _ (fun e => e = EOFError \/ e = KeyboardInterrupt)).
  - apply ex_read_line.
  - intros e [-> | ->]; apply ok_raise; [by left|by apply q_caught].
Qed.

Lemma ex_read_version_file dir : tr_ok T Q (read_version_file dir).
Proof. unfold read_version_file. ex_step; auto using ex_path_exists, ex_read_text. Qed.

Lemma ex_read_gitpull_file dir : tr_ok T Q (read_gitpull_file dir).
Proof. unfold read_gitpull_file. ex_step; auto using ex_path_exists, ex_read_text. Qed.

Lemma ex_get_default_branch o r : tr_ok T Q (get_default_branch R o r).
Proof.
  unfold get_default_branch. ex_step. apply ok_raise, q_ext. left. eauto.
Qed.

Lemma ex_get_latest_commit_sha o r b : tr_ok T Q (get_latest_commit_sha R o r b).
Proof.
  unfold get_latest_commit_sha. ex_step. apply ok_raise, q_ext. right; right; left. eauto.
Qed.

Lemma ex_branches_loop o r pages acc :
  (forall e, In (HRaise e) pages -> Q e) -> tr_ok T Q (branches_loop o r pages acc).
Proof.
  revert acc. induction pages as [|p pages IH]; intros acc Hp; cbn [branches_loop]; [apply ok_ret|].
  destruct p as [data|code reason|reason|e]; [destruct data|..]; ex_step.
  - apply IH. intros e He. apply Hp. by right.
  - apply ok_raise, Hp. by left.
Qed.

Lemma ex_get_branches o r : tr_ok T Q (get_branches R o r).
Proof.
  unfold get_branches. ex_step. apply ex_branches_loop.
  intros e He. apply q_ext. right; left. eauto.
Qed.

Lemma ex_select_loop n bs sbs : tr_ok T Q (select_loop n bs sbs).
Proof.
  revert bs sbs. induction n as [|n IH]; intros bs sbs; cbn [select_loop]; [apply ok_ret|].
  apply ok_bind; [apply ex_read_choice|intros line].
  destruct line as [raw|]; [|apply ok_ret]. cbv zeta.
  destruct (String.eqb (strip raw) "").
  - destruct sbs; [|apply ok_ret]. apply ok_raise. right; right. right; right; left. done.
  - ex_step; apply IH.
Qed.

Lemma ex_select_branch bs d : tr_ok T Q (select_branch bs d).
Proof. unfold select_branch. apply ok_bind; [by apply ok_emit|]. intros _ w. apply ex_select_loop. Qed.

Lemma ex_resolve_branch o r b d : tr_ok T Q (resolve_branch R o r b d).
Proof.
  unfold resolve_branch. ex_step; auto using ex_get_branches, ex_select_branch.
Qed.

Lemma ex_extract_members t rf ms ec sc :
  (forall m e, In m ms -> member_exc m e -> Q e) -> tr_ok T Q (extract_members t rf ms ec sc).
Proof.
  revert ec sc. induction ms as [|m ms IH]; intros ec sc Hm; cbn [extract_members]; [apply ok_ret|].
  assert (IH' : forall ec sc, tr_ok T Q (extract_members t rf ms ec sc)).
  { intros. apply IH. intros m' e Hm'. apply Hm. by right. }
  cbv zeta. ex_step; auto using ex_makedirs, ex_ensure_parent.
  unfold copy_member. destruct (zm_data m) as [b|b e|e] eqn:Hd.
  - apply ex_write_bytes.
  - apply ok_bind; [apply ex_write_bytes|intros _]. apply ok_raise, (Hm m); [by left|]. unfold member_exc. by rewrite Hd.
  - apply ok_raise, (Hm m); [by left|]. unfold member_exc. by rewrite Hd.
Qed.

Lemma ex_extract_zip zf t :
  (forall ms m e, zf = Some ms -> In m ms -> member_exc m e -> Q e) -> tr_ok T Q (extract_zip zf t).
Proof.
  intros Hz. unfold extract_zip. apply ok_bind; [by apply ok_emit|intros _].
  destruct zf as [ms|].
  - destruct (map zm_filename ms); [apply ok_raise; by apply q_caught|].
    apply ex_extract_members. intros m e. by apply Hz.
  - apply ok_raise. right; right. right; left. eauto.
Qed.

Lemma download_zip_value o r b w d z :
  m_catch (download_zip R o r b)
    (fun e => match e with
              | RuntimeError _ | NotImplementedError _ => m_raise (SystemExit 1)
              | e => m_raise e
              end) w = (d, inr z) -> r_zip R o r b = HOk z.
Proof.
  unfold m_catch, download_zip. rewrite bind_eq. cbn [emit].
  destruct (r_zip R o r b) as [z'|code reason|reason|e]; cbn.
  - by intros [= _ ->].
  - discriminate.
  - discriminate.
  - destruct e; discriminate.
Qed.

Lemma ex_get_repo_tree o r b : tr_ok T Q (get_repo_tree R o r b).
Proof. unfold get_repo_tree. ex_step. apply ok_raise, q_ext. do 5 right. left. eauto. Qed.

Lemma ex_get_blob_content o r s : tr_ok T Q (get_blob_content R o r s).
Proof. unfold get_blob_content. ex_step. apply ok_raise, q_ext. do 6 right. left. eauto. Qed.

Lemma key_q k e : item_field k (Some k) = inl e \/ item_field k None = inl e -> Q e.
Proof. intros [H|H]; [discriminate|]. injection H as <-. right; right. do 3 right. left. eauto. Qed.

Lemma filter_wanted_error tree e : filter_wanted tree = inl e -> exists msg, e = KeyError msg.
Proof.
  induction tree as [|it tree IH]; cbn [filter_wanted]; [discriminate|].
  unfold is_wanted_file, item_field.
  destruct (ti_type it); [|intros [= <-]; eauto].
  destruct (String.eqb _ "blob"); [destruct (ti_path it); [|intros [= <-]; eauto]|];
    destruct (filter_wanted tree); [apply IH| |apply IH|]; discriminate.
Qed.

Lemma ex_download_files o r t files n : tr_ok T Q (download_files R o r t files n).
Proof.
  revert n. induction files as [|it files IH]; intros n; cbn [download_files]; [apply ok_ret|].
  apply ok_bind; [apply ok_lift; unfold item_field; destruct (ti_path it); [discriminate|]; intros ? [= <-];
                  right; right; do 3 right; left; eauto|intros p].
  apply ok_bind; [apply ok_lift; unfold item_field; destruct (ti_sha it); [discriminate|]; intros ? [= <-];
                  right; right; do 3 right; left; eauto|intros s].
  apply ok_bind; [apply ex_ensure_parent|intros _].
  apply ok_bind; [apply ex_get_blob_content|intros c].
  apply ok_bind; [apply ex_write_bytes|intros _]. apply IH.
Qed.

Lemma ex_download_via_api o r b t : tr_ok T Q (download_via_api R o r b t).
Proof.
  unfold download_via_api. apply ok_bind; [apply ex_get_repo_tree|intros tree].
  apply ok_bind; [|intros fs; apply ex_download_files].
  apply ok_lift. intros e He. apply filter_wanted_error in He as [msg ->].
  right; right; do 3 right; left; eauto.
Qed.

Lemma ex_materialize fb o r b t : tr_ok T Q (materialize R fb o r b t).
Proof.
  unfold materialize. destruct fb.
  - apply ok_bind; [apply ex_download_via_api|intros _; apply ok_ret].
  - apply (ok_bind_val _ _ (fun z => r_zip R o r b = HOk z)).
    + apply (ok_catch _ _ Q).
      * unfold download_zip. ex_step. apply ok_raise, q_ext. do 3 right. left. eauto.
      * intros e He. destruct e; try (apply ok_raise; by left); by apply ok_raise.
    + intros w d z. apply download_zip_value.
    + intros z Hz. apply ok_bind; [|intros _; apply ok_ret].
      apply ex_extract_zip. intros ms m e -> Hm He. apply q_ext.
      do 4 right. left. exists o, r, b, ms, m. done.
Qed.

Lemma ex_get_remote_url : tr_ok T Q (get_remote_url g).
Proof.
  unfold get_remote_url. apply ok_bind; [apply ex_path_exists|intros ex].
  destruct (negb ex); [apply ok_raise; by apply q_caught|].
  apply (ok_bind_val _ _ (fun cfg => forall e, cfg = CfgRaise e -> exists text, g text = CfgRaise e)).
  - apply (ok_catch _ _ Q).
    + apply ok_bind; [apply ex_read_text|intros ?; apply ok_ret].
    + intros e He. destruct (is_os_error e); [apply ok_ret|by apply ok_raise].
  - intros w d cfg. unfold m_catch. rewrite bind_eq.
    destruct (read_text _ w) as [d1 [e1|text]].
    + destruct (is_os_error e1); cbn; [intros [= _ Hc] e He; subst; discriminate|discriminate].
    + cbn. intros [= _ Hc] e He. subst. eauto.
  - intros cfg Hc. destruct cfg as [e| |[url|]].
    + apply ok_raise, q_ext. do 7 right. by apply Hc.
    + apply ok_raise. by apply q_caught.
    + destruct (String.eqb url ""); [apply ok_raise; by apply q_caught|apply ok_ret].
    + apply ok_raise. by apply q_caught.
Qed.

Lemma ex_locate_origin : tr_ok T Q (locate_origin g).
Proof.
  unfold locate_origin. apply ok_bind; [apply ex_read_gitpull_file|intros gu].
  destruct gu as [url|]; [apply ok_ret|].
  apply ok_bind; [apply ex_path_isdir|intros isg].
  destruct isg; [apply ex_get_remote_url|].
  apply ok_bind; [by apply ok_emit|intros _].
  apply ok_bind; [apply ex_read_repo_answer|intros raw]. cbv zeta.
  destruct (String.eqb (strip raw) ""); [apply ok_raise; by left|].
  apply ok_bind; [apply ok_lift; intros e He; apply parse_repo_arg_error in He as [msg ->]; by apply q_caught|intros p].
  apply ok_bind; [apply ex_write_bytes|intros _; apply ok_ret].
Qed.

Lemma ex_main_body args : tr_ok T Q (main_body R g args).
Proof.
  unfold main_body. destruct (truthy (a_init args)) as [init|].
  { apply ok_bind; [apply ok_lift; intros e He; apply parse_repo_arg_error in He as [msg ->]; by apply q_caught|intros p].
    apply ex_write_bytes. }
  destruct (truthy (a_repo args)) as [arg|].
  - unfold clone_mode.
    apply ok_bind; [apply ok_lift; intros e He; apply parse_repo_arg_error in He as [msg ->]; by apply q_caught|intros [o n]].
    cbv beta iota zeta.
    apply ok_bind; [apply ex_path_exists|intros ex].
    apply ok_bind; [apply ex_get_default_branch|intros db].
    apply ok_bind; [apply ex_resolve_branch|intros br].
    destruct br as [br|]; [|apply ok_ret].
    apply ok_bind; [apply ex_get_latest_commit_sha|intros new].
    apply ok_bind; [destruct ex; [apply ex_read_version_file|apply ok_ret]|intros prev].
    apply ok_bind; [by apply ok_emit|intros _].
    destruct (up_to_date prev new); [apply ok_ret|].
    apply ok_bind; [destruct ex; [apply ok_ret|apply ex_makedirs]|intros _].
    apply ok_bind; [apply ex_materialize|intros _].
    apply ok_bind; [apply ex_write_bytes|intros _]. apply ex_write_bytes.
  - unfold update_mode.
    apply ok_bind; [apply ex_locate_origin|intros url].
    apply ok_bind; [apply ok_lift; intros e He; apply parse_github_url_error in He as [msg ->]; by apply q_caught|intros [o n]].
    cbv beta iota zeta.
    apply ok_bind; [apply ex_get_default_branch|intros db].
    apply ok_bind; [apply ex_resolve_branch|intros br].
    destruct br as [br|]; [|apply ok_ret].
    apply ok_bind; [apply ex_get_latest_commit_sha|intros new].
    apply ok_bind; [apply ex_read_version_file|intros prev].
    apply ok_bind; [by apply ok_emit|intros _].
    destruct (up_to_date prev new); [apply ok_ret|].
    apply ok_bind; [apply ex_materialize|intros _]. apply ex_write_bytes.
Qed.

End Exits.

(** X13: [main] ends a run that raises in one of three ways:
    [sys.exit(1)] (every [ValueError], [RuntimeError] and
    [FileNotFoundError], with their subclasses, and the code's own
    [sys.exit(1)]), [sys.exit(130)] for a [KeyboardInterrupt], or an
    exception its handlers do not catch: an [OSError] other than
    [FileNotFoundError] (a directory or a missing permission where a file
    is written), a [BadZipFile] (an unreadable archive, a bad CRC), the
    [IndexError] of a blank answer to an empty branch menu, the [KeyError]
    of a tree item without a field, or an exception of a collaborator
    (such as [zlib.error], a [configparser] error, a [TimeoutError] or a
    [KeyError] raised while a response is read) that these handlers do
    not catch. *)
Theorem main_exceptions R g args w e :
  snd (main R g args w) = inl e ->
  e = SystemExit 1 \/ e = SystemExit 130 \/ (caught e = false /\ escaping R g e).
Proof.
  rewrite main_run. cbn [snd]. destruct (ex_main_body R g args w) as [_ H].
  destruct (snd (main_body R g args w)) as [e1|u]; [|discriminate].
  intros [= <-]. specialize (H e1 eq_refl).
  destruct H as [->|[Hc|Hs]]; [by left| |].
  - destruct e1; try discriminate; cbn; auto.
  - destruct (caught e1) eqn:Hc.
    + destruct e1; try discriminate; cbn; auto.
    + right; right. replace (main_exit e1) with e1 by (destruct e1; try discriminate; reflexivity).
      split; [exact Hc|exact Hs].
Qed.

(** ** An explicit branch option *)

(** An event that is neither a branch listing nor a selection, and
    that targets branch [b] if it names a branch. *)
Definition branch_event_ok (b : string) (e : event) : bool :=
  match e with
  | EvGetBranches _ _ | EvSelectBranch => false
  | EvGetCommit _ _ b' | EvDownloadZip _ _ b' | EvGetTree _ _ b' => String.eqb b' b
  | _ => true
  end.

Lemma ok_bind_ret {A B} (P : event -> Prop) (Q : exc -> Prop) (a : A) (f : A -> M B) :
  tr_ok P Q (f a) -> tr_ok P Q (m_bind (m_ret a) f).
Proof. intros H w. rewrite ret_bind. apply H. Qed.

Section Branch.
Context (R : remote) (g : string -> config_result) (b : string).

Let BP : event -> Prop := fun e => branch_event_ok b e = true.
Let BQ : exc -> Prop := fun _ => True.

Lemma bk_path_exists p : tr_ok BP BQ (path_exists p).
Proof. intros w. split; [constructor|done]. Qed.

Lemma bk_path_isdir p : tr_ok BP BQ (path_isdir p).
Proof. intros w. split; [constructor|done]. Qed.

Lemma bk_read_text p : tr_ok BP BQ (read_text p).
Proof. intros w. unfold read_text. split; [|done]. destruct (open_read w p) as [|[]]; constructor. Qed.

Lemma bk_read_line : tr_ok BP BQ read_line.
Proof. intros w. unfold read_line. split; [|done]. destruct (w_stdin w); repeat constructor. Qed.

Lemma bk_write_bytes p d : tr_ok BP BQ (write_bytes p d).
Proof. eapply ok_mono; [apply write_bytes_ok| |done]. by intros e ->. Qed.

Lemma bk_makedirs eo p : tr_ok BP BQ (makedirs eo p).
Proof. eapply ok_mono; [apply makedirs_ok| |done]. by intros e (q & -> & _). Qed.

Lemma bk_ensure_parent p : tr_ok BP BQ (ensure_parent p).
Proof. eapply ok_mono; [apply ensure_parent_ok| |done]. by intros e (q & -> & _). Qed.

Ltac bk_step :=
  repeat match goal with
  | |- tr_ok _ _ (m_bind (m_ret _) _) => apply ok_bind_ret
  | |- tr_ok _ _ (m_bind _ _) => apply ok_bind; [|intros ?]
  | |- tr_ok _ _ (m_ret _) => apply ok_ret
  | |- tr_ok _ _ (m_raise _) => by apply ok_raise
  | |- tr_ok _ _ (m_lift _) => by apply ok_lift
  | |- tr_ok _ _ (emit _) => apply ok_emit; cbn; try apply String.eqb_refl; try reflexivity
  | |- tr_ok _ _ (m_catch _ _) => apply (ok_catch _ _ BQ); [|intros ? _]
  | |- tr_ok _ _ (path_exists _) => apply bk_path_exists
  | |- tr_ok _ _ (path_isdir _) => apply bk_path_isdir
  | |- tr_ok _ _ (read_text _) => apply bk_read_text
  | |- tr_ok _ _ read_line => apply bk_read_line
  | |- tr_ok _ _ (write_bytes _ _) => apply bk_write_bytes
  | |- tr_ok _ _ (makedirs _ _) => apply bk_makedirs
  | |- tr_ok _ _ (ensure_parent _) => apply bk_ensure_parent
  | |- tr_ok _ _ (match ?x with _ => _ end) => destruct x
  | |- tr_ok _ _ (if ?c then _ else _) => destruct c
  end.

Lemma bk_read_version_file dir : tr_ok BP BQ (read_version_file dir).
Proof. unfold read_version_file. bk_step. Qed.

Lemma bk_read_gitpull_file dir : tr_ok BP BQ (read_gitpull_file dir).
Proof. unfold read_gitpull_file. bk_step. Qed.

Lemma bk_get_default_branch o r : tr_ok BP BQ (get_default_branch R o r).
Proof. unfold get_default_branch. bk_step. Qed.

Lemma bk_get_latest_commit_sha o r : tr_ok BP BQ (get_latest_commit_sha R o r b).
Proof. unfold get_latest_commit_sha. bk_step. Qed.

Lemma bk_extract_members t rf ms ec sc : tr_ok BP BQ (extract_members t rf ms ec sc).
Proof.
  revert ec sc. induction ms as [|m ms IH]; intros ec sc; cbn [extract_members]; [apply ok_ret|].
  cbv zeta. unfold copy_member. bk_step; apply IH.
Qed.

Lemma bk_extract_zip zf t : tr_ok BP BQ (extract_zip zf t).
Proof. unfold extract_zip. bk_step. apply bk_extract_members. Qed.

Lemma bk_download_files o r t files n : tr_ok BP BQ (download_files R o r t files n).
Proof.
  revert n. induction files as [|it files IH]; intros n; cbn [download_files]; [apply ok_ret|].
  unfold get_blob_content. bk_step. apply IH.
Qed.

Lemma bk_materialize fb o r t : tr_ok BP BQ (materialize R fb o r b t).
Proof.
  unfold materialize, download_via_api, get_repo_tree, download_zip. bk_step.
  - apply bk_download_files.
  - apply bk_extract_zip.
Qed.

Lemma bk_get_remote_url : tr_ok BP BQ (get_remote_url g).
Proof. unfold get_remote_url. bk_step. Qed.

Lemma bk_locate_origin : tr_ok BP BQ (locate_origin g).
Proof.
  unfold locate_origin, read_repo_answer, write_gitpull_file, write_file. bk_step; cbv zeta; bk_step.
  - apply bk_read_gitpull_file.
  - apply bk_get_remote_url.
Qed.

End Branch.

(** X14: with an explicit branch option ([-b name], [name] neither empty
    nor [?]) the driver never lists the remote's branches nor prompts
    for one, and every remote call that takes a branch (latest commit,
    archive download, tree listing) is for [name]. *)
Theorem explicit_branch_used R g args b w :
  explicit_branch (a_branch args) = Some b ->
  Forall (fun e => branch_event_ok b e = true) (fst (main R g args w)).
Proof.
  intros Hb. enough (H : tr_ok (fun e => branch_event_ok b e = true) (fun _ => True) (main R g args))
    by apply (H w).
  unfold main. apply (ok_catch _ _ (fun _ => True)); [|intros e _; destruct e; by apply ok_raise].
  unfold main_body. destruct (truthy (a_init args)).
  { apply ok_bind; [by apply ok_lift|intros ?]. apply bk_write_bytes. }
  destruct (truthy (a_repo args)).
  - unfold clone_mode. apply ok_bind; [by apply ok_lift|intros [o n]]. cbv beta iota zeta.
    apply ok_bind; [apply bk_path_exists|intros ex].
    apply ok_bind; [apply bk_get_default_branch|intros db].
    unfold resolve_branch. rewrite Hb. apply ok_bind_ret. cbv beta iota.
    apply ok_bind; [apply bk_get_latest_commit_sha|intros new].
    apply ok_bind; [destruct ex; [apply bk_read_version_file|apply ok_ret]|intros prev].
    apply ok_bind; [by apply ok_emit|intros _].
    destruct (up_to_date prev new); [apply ok_ret|].
    apply ok_bind; [destruct ex; [apply ok_ret|apply bk_makedirs]|intros _].
    apply ok_bind; [apply bk_materialize|intros _].
    apply ok_bind; [apply bk_write_bytes|intros _; apply bk_write_bytes].
  - unfold update_mode. apply ok_bind; [apply bk_locate_origin|intros url].
    apply ok_bind; [by apply ok_lift|intros [o n]]. cbv beta iota zeta.
    apply ok_bind; [apply bk_get_default_branch|intros db].
    unfold resolve_branch. rewrite Hb. apply ok_bind_ret. cbv beta iota.
    apply ok_bind; [apply bk_get_latest_commit_sha|intros new].
    apply ok_bind; [apply bk_read_version_file|intros prev].
    apply ok_bind; [by apply ok_emit|intros _].
    destruct (up_to_date prev new); [apply ok_ret|].
    apply ok_bind; [apply bk_materialize|intros _]. apply bk_write_bytes.
Qed.

(** ** Package version helpers *)

Fixpoint str_forall (p : ascii -> bool) (s : string) : bool :=
  match s with EmptyString => true | String c s' => p c && str_forall p s' end.

Lemma str_forall_app p a b : str_forall p (a +:+ b) = str_forall p a && str_forall p b.
Proof. induction a as [|c a IH]; [done|]. rewrite str_app_cons. cbn. rewrite IH. by destruct (p c). Qed.




Lemma dec_digits_chars (P : ascii -> bool) f n acc :
  (forall k, (k < 10)%nat -> P (chr (48 + k)) = true) -> str_forall P acc = true ->
  str_forall P (dec_digits f n acc) = true.
Proof.
  intros HP. revert n acc. induction f as [|f IH]; intros n acc Hacc; [exact Hacc|]. cbn [dec_digits].
  assert (Hd : P (chr (48 + N.to_nat (n mod 10))) = true).
  { apply HP. pose proof (N.mod_lt n 10 ltac:(lia)). lia. }
  destruct (n <? 10)%N; [cbn [str_forall]; by rewrite Hd, Hacc|]. apply IH. cbn [str_forall]. by rewrite Hd, Hacc.
Qed.











Definition nq (s : string) : bool := str_forall (fun c => negb (is_quote c)) s.

Definition starts_quote (s : string) : Prop :=
  exists q r, s = String q r /\ is_quote q = true.

Lemma str_app_eq_app a b c d : a +:+ b = c +:+ d ->
  exists m, (c = a +:+ m /\ b = m +:+ d) \/ (a = c +:+ m /\ d = m +:+ b).
Proof.
  revert c. induction a as [|x a IH]; intros c H.
  - exists c. left. split; [done|exact H].
  - destruct c as [|y c].
    + exists (String x a). right. split; [done|exact (eq_sym H)].
    + rewrite !str_app_cons in H. injection H as -> H. destruct (IH c H) as [m [[-> ->]|[-> ->]]];
      exists m; [left|right]; split; done.
Qed.

Lemma quote_not_ws c : is_quote c = true -> is_ws c = false.
Proof.
  unfold is_quote. intros [E|E]%orb_true_iff; apply Ascii.eqb_eq in E; subst c; reflexivity.
Qed.

Lemma ws_not_quote c : is_ws c = true -> is_quote c = false.
Proof. intros H. destruct (is_quote c) eqn:E; [|done]. by rewrite quote_not_ws in H. Qed.

Lemma all_ws_nq s : all_ws s = true -> nq s = true.
Proof.
  induction s as [|c s IH]; [done|]. cbn. intros [Hc Hs]%andb_prop.
  unfold nq. cbn [str_forall]. rewrite ws_not_quote by done. apply IH, Hs.
Qed.

Lemma all_ws_app a b : all_ws (a +:+ b) = all_ws a && all_ws b.
Proof. induction a as [|x a IH]; [reflexivity|]. rewrite str_app_cons. cbn. rewrite IH. by destruct (is_ws x). Qed.

Lemma nq_app a b : nq (a +:+ b) = nq a && nq b.
Proof. apply str_forall_app. Qed.

Lemma span_ws_app a b : all_ws a = true -> (forall c b', b = String c b' -> is_ws c = false) ->
  span_ws (a +:+ b) = (a, b).
Proof.
  intros Ha Hb. induction a as [|x a IH].
  - destruct b as [|c b']; [done|]. rewrite str_app_nil_l. cbn [span_ws]. by rewrite (Hb c b' eq_refl).
  - cbn in Ha. apply andb_prop in Ha as [Hx Ha]. rewrite str_app_cons. cbn [span_ws]. rewrite Hx, IH by done. done.
Qed.

Lemma span_nonquote_app a b : nq a = true -> (b = EmptyString \/ starts_quote b) ->
  span_nonquote (a +:+ b) = (a, b).
Proof.
  intros Ha Hb. induction a as [|x a IH].
  - rewrite str_app_nil_l. destruct Hb as [->|[q [r [-> Hq]]]]; [done|]. cbn [span_nonquote]. by rewrite Hq.
  - unfold nq in Ha. cbn in Ha. apply andb_prop in Ha as [Hx Ha]. apply negb_true_iff in Hx.
    rewrite str_app_cons. cbn [span_nonquote]. rewrite Hx, IH by done. done.
Qed.

Lemma span_ws_spec s :
  s = fst (span_ws s) +:+ snd (span_ws s) /\ all_ws (fst (span_ws s)) = true /\
  (forall c b', snd (span_ws s) = String c b' -> is_ws c = false).
Proof.
  induction s as [|c s IH]; [cbn; split; [done|split; [done|discriminate]]|].
  cbn. destruct (is_ws c) eqn:Hc.
  - destruct (span_ws s) as [a b]. cbn in *. destruct IH as [-> [Ha Hb]].
    split; [done|]. split; [by rewrite Hc|exact Hb].
  - cbn. split; [done|]. split; [done|]. intros c' b' [= <- _]. exact Hc.
Qed.

Lemma span_nonquote_spec s :
  s = fst (span_nonquote s) +:+ snd (span_nonquote s) /\ nq (fst (span_nonquote s)) = true.
Proof.
  induction s as [|c s IH]; [done|].
  cbn. destruct (is_quote c) eqn:Hc; [done|].
  destruct (span_nonquote s) as [a b]. cbn in *. destruct IH as [-> Ha].
  split; [done|]. unfold nq. cbn [str_forall]. rewrite Hc. exact Ha.
Qed.

Definition version_head (ws1 ws2 : string) : string :=
  "__version__" +:+ ws1 +:+ String EQ_SIGN ws2.

Lemma version_head_nq ws1 ws2 : all_ws ws1 = true -> all_ws ws2 = true -> nq (version_head ws1 ws2) = true.
Proof.
  intros H1 H2. unfold version_head. rewrite !nq_app, (all_ws_nq ws1 H1).
  change (nq (String EQ_SIGN ws2)) with (negb (is_quote EQ_SIGN) && nq ws2). by rewrite (all_ws_nq ws2 H2).
Qed.

Lemma match_version_intro ws1 ws2 q v r :
  all_ws ws1 = true -> all_ws ws2 = true -> is_quote q = true ->
  v <> EmptyString -> nq v = true -> starts_quote r ->
  match_version (version_head ws1 ws2 +:+ String q (v +:+ r)) =
    Some (version_head ws1 ws2 +:+ String q EmptyString, v, r).
Proof.
  intros H1 H2 Hq Hv Hnq Hr. unfold match_version, version_head.
  rewrite str_app_assoc, strip_prefix_app.
  rewrite str_app_assoc, (span_ws_app ws1) by (done || (intros c b' [= <- _]; reflexivity)).
  rewrite str_app_cons. cbn iota. assert (E : ascii_eqb EQ_SIGN EQ_SIGN = true) by reflexivity. rewrite E.
  rewrite (span_ws_app ws2) by (done || (intros c b' [= <- _]; by apply quote_not_ws)).
  rewrite Hq, span_nonquote_app by (done || by right).
  destruct Hr as [q2 [r' [-> Hq2]]]. destruct v as [|x v]; [done|]. rewrite Hq2.
  rewrite !str_app_assoc. reflexivity.
Qed.

Lemma match_version_elim s g v r : match_version s = Some (g, v, r) ->
  exists ws1 ws2 q, all_ws ws1 = true /\ all_ws ws2 = true /\ is_quote q = true /\
    g = version_head ws1 ws2 +:+ String q EmptyString /\ s = g +:+ v +:+ r /\
    v <> EmptyString /\ nq v = true /\ starts_quote r.
Proof.
  unfold match_version. destruct (strip_prefix "__version__" s) as [r1|] eqn:E1; [|discriminate].
  pose proof (span_ws_spec r1) as [Hr1 [Hw1 _]]. destruct (span_ws r1) as [ws1 r2]. cbn in Hr1, Hw1.
  destruct r2 as [|e r3]; [discriminate|]. destruct (ascii_eqb e EQ_SIGN) eqn:Ee; [|discriminate].
  apply Ascii.eqb_eq in Ee. subst e.
  pose proof (span_ws_spec r3) as [Hr3 [Hw2 _]]. destruct (span_ws r3) as [ws2 r4]. cbn in Hr3, Hw2.
  destruct r4 as [|q r5]; [discriminate|]. destruct (is_quote q) eqn:Hq; [|discriminate].
  pose proof (span_nonquote_spec r5) as [Hr5 Hnq]. destruct (span_nonquote r5) as [v' r6]. cbn in Hr5, Hnq.
  destruct v' as [|x v']; [discriminate|]. destruct r6 as [|q2 r7]; [discriminate|].
  destruct (is_quote q2) eqn:Hq2; [|discriminate]. intros [= <- <- <-].
  exists ws1, ws2, q. repeat split; try done; [by unfold version_head; rewrite !str_app_assoc| |].
  - assert (Hs : s = "__version__" +:+ r1).
    { clear -E1. revert s E1. generalize "__version__" as p. induction p as [|a p IH]; intros s E.
      - by injection E as ->.
      - destruct s as [|b s]; [discriminate|]. cbn in E. destruct (ascii_eqb a b) eqn:Eab; [|discriminate].
        apply Ascii.eqb_eq in Eab. subst b. rewrite str_app_cons. f_equal. by apply IH. }
    rewrite Hs, Hr1, Hr3, Hr5. unfold version_head. rewrite !str_app_assoc. reflexivity.
  - by exists q2, r7.
Qed.

(** A match whose opening quote is followed by a quote-free non-empty
    value and a closing quote: if the text after some prefix matches with
    the value [new] in that place, it also matches with the value [old]. *)
Lemma match_version_swap U q1 old new after :
  is_quote q1 = true -> old <> EmptyString -> nq old = true -> starts_quote after ->
  match_version (U +:+ String q1 (new +:+ after)) <> None ->
  match_version (U +:+ String q1 (old +:+ after)) <> None.
Proof.
  intros Hq1 Hold Hnq Haft Hm.
  destruct (match_version (U +:+ String q1 (new +:+ after))) as [[[g v] r]|] eqn:E; [|done]. clear Hm.
  apply match_version_elim in E as (ws1 & ws2 & q & H1 & H2 & Hq & -> & Hs & Hv & Hnqv & Hr).
  pose proof (version_head_nq ws1 ws2 H1 H2) as HH.
  rewrite !str_app_assoc, str_app_cons, str_app_nil_l in Hs.
  apply str_app_eq_app in Hs as [m [[EH Hm]|[EU Hm]]].
  - destruct m as [|c m'].
    + rewrite str_app_nil_r in EH. rewrite <- EH. rewrite str_app_nil_l in Hm. injection Hm as -> _.
      rewrite match_version_intro by done. discriminate.
    + rewrite str_app_cons in Hm. injection Hm as -> _. rewrite EH, nq_app in HH.
      apply andb_prop in HH as [_ HH]. unfold nq in HH. cbn in HH. by rewrite Hq1 in HH.
  - rewrite EU. destruct m as [|c m'].
    + rewrite str_app_nil_l in Hm. injection Hm as -> _. rewrite str_app_nil_r.
      rewrite match_version_intro by done. discriminate.
    + rewrite str_app_cons in Hm. injection Hm as -> Hm. apply str_app_eq_app in Hm as [k [[-> Hk]|[-> Hk]]].
      * rewrite str_app_assoc, str_app_cons, str_app_assoc.
        rewrite match_version_intro; [discriminate|done..|].
        destruct k as [|c0 k]; [by exists q1, (old +:+ after)|].
        rewrite str_app_cons in Hk |- *. destruct Hr as [q2 [r' [Er Hq2]]]. rewrite Er in Hk.
        injection Hk as Ec _. subst. eexists _, _. split; [reflexivity|done].
      * destruct k as [|c0 k].
        -- rewrite str_app_nil_l in Hk. rewrite str_app_nil_r in Hv, Hnqv. rewrite str_app_assoc, str_app_cons.
           rewrite match_version_intro; [discriminate|done..|]. by exists q1, (old +:+ after).
        -- rewrite str_app_cons in Hk. injection Hk as <- _. rewrite nq_app in Hnqv.
           apply andb_prop in Hnqv as [_ Hk]. unfold nq in Hk. cbn in Hk. by rewrite Hq1 in Hk.
Qed.

Lemma search_version_eq bol s : search_version bol s =
  match (if bol then match_version s else None) with
  | Some m => Some (EmptyString, m)
  | None =>
      match s with
      | EmptyString => None
      | String c s' =>
          match search_version (ascii_eqb c LF) s' with
          | Some (pre, m) => Some (String c pre, m)
          | None => None
          end
      end
  end.
Proof. destruct s; reflexivity. Qed.

Lemma search_version_decomp s : forall bol pre g v r,
  search_version bol s = Some (pre, (g, v, r)) ->
  s = pre +:+ g +:+ v +:+ r /\ match_version (g +:+ v +:+ r) = Some (g, v, r).
Proof.
  induction s as [|c s IH]; intros bol pre g v r H; rewrite search_version_eq in H.
  - destruct bol; vm_compute in H; discriminate.
  - destruct (if bol then match_version (String c s) else None) as [m|] eqn:E.
    + injection H as <- Em. subst m. destruct bol; [|discriminate].
      pose proof (match_version_elim _ _ _ _ E) as (_ & _ & _ & _ & _ & _ & _ & Hs & _).
      split; [by rewrite str_app_nil_l|by rewrite <- Hs].
    + destruct (search_version (ascii_eqb c LF) s) as [[pre' m]|] eqn:E2; [|discriminate].
      injection H as <- ->. destruct (IH _ _ _ _ _ E2) as [-> Hm]. split; [by rewrite str_app_cons|exact Hm].
Qed.

(** Replacing the value of the leftmost match by another non-empty
    quote-free value keeps the match leftmost, with the new value. *)
Lemma search_version_swap pre : forall bol g1 old new after,
  match_version (g1 +:+ old +:+ after) = Some (g1, old, after) ->
  new <> EmptyString -> nq new = true ->
  search_version bol (pre +:+ g1 +:+ old +:+ after) = Some (pre, (g1, old, after)) ->
  search_version bol (pre +:+ g1 +:+ new +:+ after) = Some (pre, (g1, new, after)).
Proof.
  induction pre as [|c pre IH]; intros bol g1 old new after Hm Hne Hnq H;
    pose proof (match_version_elim _ _ _ _ Hm) as (ws1 & ws2 & q & H1 & H2 & Hq & Eg & _ & Hold & Hnqo & Haft).
  - rewrite str_app_nil_l in H |- *.
    assert (Hm' : match_version (g1 +:+ new +:+ after) = Some (g1, new, after)).
    { rewrite Eg, str_app_assoc, str_app_cons, str_app_nil_l. by apply match_version_intro. }
    destruct bol.
    + rewrite search_version_eq, Hm'. reflexivity.
    + exfalso. rewrite search_version_eq in H. cbn iota in H.
      destruct (g1 +:+ old +:+ after) as [|c s]; [discriminate|].
      destruct (search_version _ s) as [[p m]|]; discriminate.
  - rewrite str_app_cons in H |- *. rewrite search_version_eq in H |- *.
    destruct (if bol then match_version (String c (pre +:+ g1 +:+ old +:+ after)) else None) as [m|] eqn:E;
      [discriminate|].
    destruct (search_version (ascii_eqb c LF) (pre +:+ g1 +:+ old +:+ after)) as [[p m]|] eqn:E2; [|discriminate].
    injection H as -> ->. rewrite (IH _ _ _ _ _ Hm Hne Hnq E2).
    assert (Eu : forall x, String c (pre +:+ g1 +:+ x +:+ after) =
                 (String c pre +:+ version_head ws1 ws2) +:+ String q (x +:+ after)).
    { intros x. rewrite Eg. rewrite ?str_app_assoc, ?str_app_cons, ?str_app_nil_l. reflexivity. }
    assert (E' : (if bol then match_version (String c (pre +:+ g1 +:+ new +:+ after)) else None) = None).
    { destruct bol; [|done]. rewrite (Eu old) in E. rewrite (Eu new).
      destruct (match_version (_ +:+ String q (new +:+ after))) eqn:E3; [|done]. exfalso.
      apply (match_version_swap (String c pre +:+ version_head ws1 ws2) q old new after); try done.
      by rewrite E3. }
    by rewrite E'.
Qed.

Lemma has_cr_app a b : has_cr (a +:+ b) = has_cr a || has_cr b.
Proof. induction a as [|x a IH]; [reflexivity|]. rewrite str_app_cons. cbn. rewrite IH. by destruct (ascii_eqb x CR). Qed.

Lemma univ_nl_clean s : has_cr (univ_nl s) = false.
Proof.
  remember (String.length s) as n eqn:En. revert s En. induction n as [n IH] using lt_wf_ind. intros s En.
  destruct s as [|c s]; [reflexivity|]. cbn [univ_nl].
  destruct (ascii_eqb c CR) eqn:Ec.
  - destruct s as [|c2 s']; [reflexivity|]. destruct (ascii_eqb c2 LF) eqn:E2.
    + cbn [has_cr]. rewrite (IH (String.length s')); [reflexivity| cbn in En; lia|reflexivity].
    + cbn [has_cr]. rewrite (IH (String.length (String c2 s'))); [reflexivity| cbn in En |- *; lia|reflexivity].
  - cbn [has_cr]. rewrite Ec, (IH (String.length s)); [reflexivity| cbn in En; lia|reflexivity].
Qed.

Lemma has_cr_forall s : has_cr s = negb (str_forall (fun c => negb (ascii_eqb c CR)) s).
Proof. induction s as [|c s IH]; [reflexivity|]. cbn. rewrite IH. by destruct (ascii_eqb c CR). Qed.

Lemma string_of_Z_chars (P : ascii -> bool) z :
  P (chr 45) = true -> (forall k, (k < 10)%nat -> P (chr (48 + k)) = true) ->
  str_forall P (string_of_Z z) = true.
Proof.
  intros Hm Hd. unfold string_of_Z. destruct (z <? 0).
  - rewrite str_forall_app. cbn [str_forall]. change (P "-"%char) with (P (chr 45)). rewrite Hm. apply dec_digits_chars; done.
  - apply dec_digits_chars; done.
Qed.

Lemma string_of_Z_nq z : nq (string_of_Z z) = true.
Proof. apply string_of_Z_chars; [reflexivity|]. intros k Hk. do 10 (destruct k as [|k]; [reflexivity|]). lia. Qed.

Lemma string_of_Z_no_cr z : has_cr (string_of_Z z) = false.
Proof.
  rewrite has_cr_forall, string_of_Z_chars; [reflexivity..|].
  intros k Hk. do 10 (destruct k as [|k]; [reflexivity|]). lia.
Qed.



Lemma write_then_ret {A} p b (x : A) w :
  (write_bytes p b ;;; m_ret x) w =
  match open_write_err w p with
  | None => ([EvWrite p b], inr x)
  | Some err => ([], inl (os_exc err p))
  end.
Proof. rewrite bind_eq. unfold write_bytes. by destruct (open_write_err w p). Qed.

Lemma bump_version_found dir bt w c before g1 old after :
  open_read w (init_path dir) = inr (BText c) ->
  search_version true (univ_nl c) = Some (before, (g1, old, after)) ->
  bump_version dir bt w =
   (let parts := pad_parts (split_dot old) in
    match int_part (nth 0 parts ""), int_part (nth 1 parts ""), int_part (nth 2 parts "") with
    | inr a, inr b, inr p =>
        let '(x, y, z) := bump_parts bt a b p in
        let new := string_of_Z x +:+ "." +:+ string_of_Z y +:+ "." +:+ string_of_Z z in
        match open_write_err w (init_path dir) with
        | None => ([EvWrite (init_path dir) (BText (before +:+ g1 +:+ new +:+ after))], inr (old, new))
        | Some err => ([], inl (os_exc err (init_path dir)))
        end
    | inl e, _, _ | inr _, inl e, _ | inr _, inr _, inl e => ([], inl e)
    end).
Proof.
  intros Hf Hs. unfold bump_version. rewrite bind_eq. unfold read_text at 1. rewrite Hf.
  cbv beta iota. rewrite apply_events_nil, Hs. cbv zeta.
  rewrite !bind_eq. unfold m_lift at 1.
  destruct (int_part (nth 0 _ "")) as [e|a]; [reflexivity|]. cbv beta iota. rewrite !bind_eq. unfold m_lift at 1.
  destruct (int_part (nth 1 _ "")) as [e|b]; [reflexivity|]. cbv beta iota. rewrite !bind_eq. unfold m_lift at 1.
  destruct (int_part (nth 2 _ "")) as [e|p]; [reflexivity|]. cbv beta iota.
  destruct (bump_parts bt a b p) as [[x y] z]. rewrite !apply_events_nil.
  unfold write_file. rewrite write_then_ret. by destruct (open_write_err w (init_path dir)).
Qed.

Lemma bump_version_unread dir bt w e : open_read w (init_path dir) = inl e ->
  bump_version dir bt w = ([], inl e).
Proof. intros Hf. unfold bump_version. rewrite bind_eq. unfold read_text at 1. by rewrite Hf. Qed.

Lemma bump_version_undecodable dir bt w : open_read w (init_path dir) = inr BUndecodable ->
  bump_version dir bt w = ([], inl (UnicodeDecodeError "'utf-8' codec can't decode bytes: invalid start byte")).
Proof. intros Hf. unfold bump_version. rewrite bind_eq. unfold read_text at 1. by rewrite Hf. Qed.

Lemma bump_version_nomatch dir bt w c : open_read w (init_path dir) = inr (BText c) ->
  search_version true (univ_nl c) = None ->
  bump_version dir bt w = ([], inl (ValueError "Could not find __version__ in __init__.py")).
Proof. intros Hf Hs. unfold bump_version. rewrite bind_eq. unfold read_text at 1. rewrite Hf. cbv beta iota. by rewrite Hs. Qed.

Lemma get_package_version_found dir w c : open_read w (init_path dir) = inr (BText c) ->
  get_package_version dir w =
    ([], inr (match search_version true (univ_nl c) with Some (_, (_, v, _)) => v | None => "0.0.0" end)).
Proof.
  intros Hf. unfold get_package_version. rewrite bind_eq. unfold read_text at 1. rewrite Hf. cbv beta iota.
  by destruct (search_version true (univ_nl c)) as [[? [[? ?] ?]]|].
Qed.

Lemma open_read_text_noread w p c : open_read w p = inr (BText c) -> path_key p ∉ w_noread w.
Proof.
  unfold open_read. destruct (resolve_err w p); [discriminate|].
  destruct (kind_of w (path_key p)); try discriminate.
  destruct (trailing_slash p); [discriminate|]. case_bool_decide; [discriminate|done].
Qed.

Lemma dotted_nonempty a b : a +:+ "." +:+ b <> EmptyString.
Proof. intros H. apply (f_equal String.length) in H. rewrite !str_length_app in H. cbn in H. lia. Qed.



(** X15: [bump_version] rewrites only the version between the quotes:
    on success the file was read, one write stores the text before the
    value and after it with the new value in its place, and
    [get_package_version] reads back the old version before and the new
    one after the write. *)
Theorem bump_version_roundtrip dir bt w d old new :
  bump_version dir bt w = (d, inr (old, new)) ->
  exists c before g1 after,
    open_read w (init_path dir) = inr (BText c) /\
    univ_nl c = before +:+ g1 +:+ old +:+ after /\
    d = [EvWrite (init_path dir) (BText (before +:+ g1 +:+ new +:+ after))] /\
    get_package_version dir w = ([], inr old) /\
    get_package_version dir (apply_events d w) = ([], inr new).
Proof.
  intros H. destruct (open_read w (init_path dir)) as [e|[c|]] eqn:Hf;
    [rewrite (bump_version_unread _ _ _ e) in H by done; discriminate| |
     rewrite bump_version_undecodable in H by done; discriminate].
  destruct (search_version true (univ_nl c)) as [[before [[g1 old'] after]]|] eqn:Hs;
    [|rewrite (bump_version_nomatch _ _ _ c) in H by done; discriminate].
  rewrite (bump_version_found _ _ _ _ _ _ _ _ Hf Hs) in H. cbv zeta in H.
  destruct (int_part (nth 0 _ "")) as [?|a]; [discriminate|].
  destruct (int_part (nth 1 _ "")) as [?|b]; [discriminate|].
  destruct (int_part (nth 2 _ "")) as [?|p]; [discriminate|].
  destruct (bump_parts bt a b p) as [[x y] z].
  destruct (open_write_err w (init_path dir)) eqn:Ew; [discriminate|].
  injection H as <- <- <-.
  destruct (search_version_decomp _ _ _ _ _ _ Hs) as [Hc Hm].
  exists c, before, g1, after. split; [done|]. split; [done|]. split; [done|].
  split; [by rewrite (get_package_version_found _ _ c), Hs|].
  set (new := string_of_Z x +:+ "." +:+ string_of_Z y +:+ "." +:+ string_of_Z z).
  rewrite (get_package_version_found _ _ (before +:+ g1 +:+ new +:+ after)).
  2:{ cbn [apply_events foldl]. rewrite (open_read_after_write _ _ _ Ew).
      rewrite bool_decide_false; [reflexivity|]. by eapply open_read_text_noread. }
  pose proof (univ_nl_clean c) as Hcr. rewrite Hc, !has_cr_app in Hcr.
  apply orb_false_iff in Hcr as [Hb Hcr]. apply orb_false_iff in Hcr as [Hg Hcr].
  apply orb_false_iff in Hcr as [_ Ha].
  assert (Hnew : has_cr new = false).
  { unfold new. rewrite !has_cr_app, !string_of_Z_no_cr. reflexivity. }
  rewrite univ_nl_no_cr by (rewrite !has_cr_app, Hb, Hg, Hnew, Ha; reflexivity).
  rewrite (search_version_swap before true g1 old' new after); [reflexivity|exact Hm| |..].
  - apply dotted_nonempty.
  - unfold new. rewrite !nq_app, !string_of_Z_nq. reflexivity.
  - by rewrite <- Hc.
Qed.



(** X18: writing [sha] as the last-commit record of [dir] and reading it
    back fails when [dir/.gitpull.version] cannot be opened for writing
    (with the [OSError] of [open]), and when it can but not for reading
    (with a [PermissionError]). Otherwise the write stores [sha] and a
    newline, and the read, which performs no event of its own, returns
    [sha] with universal newlines translated and surrounding whitespace
    (also NEL and NO-BREAK SPACE) stripped, or nothing when that is
    empty; exactly [sha] when [sha] is plain text. *)
Theorem version_record_roundtrip (sha dir : string) (w : world) :
  (write_version_file sha dir ;;; read_version_file dir) w =
    (let p := path_join dir VERSION_FILE in
     match open_write_err w p with
     | Some err => ([], inl (os_exc err p))
     | None =>
         ([EvWrite p (BText (sha +:+ s_nl))],
          if bool_decide (path_key p ∈ w_noread w) then inl (os_exc EACCES p) else inr (stored_text sha))
     end) /\
  (plain_text sha = true -> stored_text sha = Some sha).
Proof.
  split.
  - unfold write_version_file, read_version_file, write_file. cbv zeta.
    generalize (path_join dir VERSION_FILE) as p. intros p.
    rewrite bind_eq. unfold write_bytes. destruct (open_write_err w p) eqn:Ew; [reflexivity|].
    cbn [apply_events foldl]. rewrite bind_eq. unfold path_exists.
    rewrite (stat_after_write _ _ _ Ew). cbn [negb]. rewrite bind_eq. unfold read_text.
    cbn [apply_events foldl]. rewrite (open_read_after_write _ _ _ Ew).
    destruct (bool_decide _); [reflexivity|]. cbn.
    unfold stored_text. by rewrite strip_univ_nl_nl.
  - intros Hp. unfold stored_text. rewrite strip_plain by done.
    destruct sha; [done|reflexivity].
Qed.

(** X20: [get_remote_url] only reads: it performs no event. A URL it
    returns is non-empty and is the [url] of [remote "origin"] in the
    text of [.git/config]. It fails with [FileNotFoundError] for a
    missing [.git/config], with one of its two [ValueError]s (also when
    [.git/config] exists but cannot be opened as a file), with the
    exception [configparser] raises on the text, or with the
    [UnicodeDecodeError] of a file that is not UTF-8. *)
Theorem get_remote_url_outcome g w :
  let p := path_join ".git" "config" in
  let '(d, r) := get_remote_url g w in
  d = [] /\
  match r with
  | inr url =>
      url <> EmptyString /\
      exists c, open_read w p = inr (BText c) /\ g (univ_nl c) = CfgUrl (Some url)
  | inl e =>
      e = FileNotFoundError "Not a git repository (no .git/config found)" \/
      e = ValueError "No 'origin' remote found in .git/config" \/
      e = ValueError "No URL found for 'origin' remote" \/
      (exists c, open_read w p = inr (BText c) /\ g (univ_nl c) = CfgRaise e) \/
      (open_read w p = inr BUndecodable /\
       e = UnicodeDecodeError "'utf-8' codec can't decode bytes: invalid start byte")
  end.
Proof.
  cbv zeta. unfold get_remote_url. rewrite bind_eq. unfold path_exists at 1.
  cbv beta iota. rewrite apply_events_nil.
  destruct (match stat_kind w _ with Some _ => true | None => false end); cbn [negb];
    [|cbn; split; [reflexivity|left; reflexivity]].
  rewrite bind_eq. unfold m_catch. rewrite bind_eq. unfold read_text at 1.
  destruct (open_read w (path_join ".git" "config")) as [e0|[c|]] eqn:Ho.
  - rewrite (open_read_error _ _ _ Ho). cbn. split; [reflexivity|]. right; left; reflexivity.
  - cbn. destruct (g (univ_nl c)) as [e| |[url|]] eqn:Eg; cbn.
    + split; [reflexivity|]. do 3 right. left. eauto.
    + split; [reflexivity|]. right; left; reflexivity.
    + destruct (String.eqb url "") eqn:Eu; cbn.
      * split; [reflexivity|]. right; right; left; reflexivity.
      * split; [reflexivity|]. split; [by destruct url|]. eauto.
    + split; [reflexivity|]. right; right; left; reflexivity.
  - cbn. split; [reflexivity|]. do 4 right. done.
Qed.

(** X21: without [--fallback], an archive download answered with an
    HTTP error or a URL error ends the materialization with exit status
    1 right after the download request: nothing is extracted or
    written. *)
Theorem materialize_zip_failure R o n b t w :
  (exists code reason, r_zip R o n b = HHTTPError code reason) \/ (exists reason, r_zip R o n b = HURLError reason) ->
  materialize R false o n b t w = ([EvDownloadZip o n b], inl (SystemExit 1)).
Proof.
  intros Hz. unfold materialize. rewrite bind_eq. unfold m_catch, download_zip.
  rewrite bind_eq. cbn [emit].
  destruct Hz as [(code & reason & ->)|(reason & ->)]; reflexivity.
Qed.

(* ------------------------------------------------------------------ *)
(** ** Concrete runs for the further properties *)

Definition empty_world : world := plain_world ∅ ∅ [].

Definition tree_ok : list tree_item :=
  [mkItem (Some "a.txt") (Some "blob") (Some "s1"); mkItem (Some ".git/x") (Some "blob") (Some "s2");
   mkItem (Some "d") (Some "tree") (Some "s3")].
Definition tree_bad : list tree_item :=
  [mkItem (Some "a.txt") (Some "blob") (Some "s1"); mkItem (Some "b.txt") (Some "blob") (Some "s4")].

Definition api_remote : remote := mkRemote
  (fun _ _ => HOk "main")
  (fun _ _ => [HOk (repeat "b" 100); HOk ["main"]; HURLError "reset"])
  (fun _ _ _ => HOk "abc")
  (fun _ _ _ => HOk None)
  (fun _ _ b => if String.eqb b "main" then HOk tree_ok else HOk tree_bad)
  (fun _ _ sha => if String.eqb sha "s1" then HOk (BText "A") else HURLError "gone").

Definition git_zip : list zip_member :=
  [mkMember "r-main/" (MData (BText "")); mkMember "r-main/README" (MData (BText "hi"));
   mkMember "r-main/.git/config" (MData (BText "c"))].

(** An archive whose second entry fails to decompress *)
Definition zlib_zip : zip_file :=
  Some [mkMember "r-main/" (MData (BText "")); mkMember "r-main/a" (MBroken (BText "") (OtherError "zlib.error" "Error -3 while decompressing data"))].

Definition pkg_text (v : string) : string := "x = 1" +:+ s_nl +:+ "__version__ = '" +:+ v +:+ "'" +:+ s_nl.

Definition pkg_world (v : string) : world :=
  plain_world {[ path_key (init_path "pkg") := BText (pkg_text v) ]} {[ path_key "pkg" ]} [].

Definition zip_blocked_remote : remote := mkRemote
  (fun _ _ => HOk "main")
  (fun _ _ => [HOk ["main"]])
  (fun _ _ _ => HOk "abc")
  (fun _ _ _ => HURLError "blocked")
  (fun _ _ _ => HOk [])
  (fun _ _ _ => HOk (BText "")).

Definition nbsp : string := String (chr 160) EmptyString.


Lemma get_branches_pages_witness :
  get_branches api_remote "o" "r" empty_world =
    ([EvGetBranches "o" "r"], inr (concat [repeat "b" 100] ++ ["main"])).
Proof.
  apply (get_branches_pages api_remote "o" "r" [repeat "b" 100] ["main"] [HURLError "reset"]).
  - constructor; [vm_compute; lia|constructor].
  - vm_compute. lia.
  - reflexivity.
Defined.

Lemma select_branch_member_witness :
  Forall (fun e => select_event e = true) (fst (select_branch ["main"; "dev"] (Some "main") (plain_world ∅ ∅ [nbsp]))) /\
  ((exists o, snd (select_branch ["main"; "dev"] (Some "main") (plain_world ∅ ∅ [nbsp])) = inr o /\
      forall b, o = Some b -> In b ["main"; "dev"]) \/
   (snd (select_branch ["main"; "dev"] (Some "main") (plain_world ∅ ∅ [nbsp])) = inl KeyboardInterrupt /\
    w_ctrl_c (plain_world ∅ ∅ [nbsp]) = true) \/
   (snd (select_branch ["main"; "dev"] (Some "main") (plain_world ∅ ∅ [nbsp])) =
      inl (IndexError "list index out of range") /\ ["main"; "dev"] = [])).
Proof.
  apply (select_branch_member ["main"; "dev"] (Some "main") (plain_world ∅ ∅ [nbsp])
    (fst (select_branch ["main"; "dev"] (Some "main") (plain_world ∅ ∅ [nbsp])))
    (snd (select_branch ["main"; "dev"] (Some "main") (plain_world ∅ ∅ [nbsp])))).
  apply surjective_pairing.
Defined.

Lemma select_branch_answers_witness :
  snd (select_branch ["main"; "dev"] (Some "main") (plain_world ∅ ∅ [String (chr 160) "q"])) = inr None.
Proof.
  apply (proj2 (proj2 (select_branch_answers ["main"; "dev"] "main" (plain_world ∅ ∅ [String (chr 160) "q"])
                  ltac:(discriminate) ltac:(left; reflexivity)) (String (chr 160) "q") [] eq_refl)).
  vm_compute. reflexivity.
Defined.

Lemma select_loop_retries_witness :
  Forall (fun l => rejected ["main"; "dev"] ["main"; "dev"] l = true) [" 7 "; "1_0"; "feature"] /\
  select_loop (length [" 7 "; "1_0"; "feature"] + 1) ["main"; "dev"] ["main"; "dev"]
      (plain_world ∅ ∅ [" 7 "; "1_0"; "feature"; "2"]) =
    let '(d, r) := select_loop 1 ["main"; "dev"] ["main"; "dev"]
                     (with_stdin (plain_world ∅ ∅ [" 7 "; "1_0"; "feature"; "2"]) ["2"]) in
    (map (fun l => EvReadLine (Some l)) [" 7 "; "1_0"; "feature"] ++ d, r).
Proof.
  assert (Hb : Forall (fun l => rejected ["main"; "dev"] ["main"; "dev"] l = true) [" 7 "; "1_0"; "feature"]).
  { repeat (constructor; [vm_compute; reflexivity|]). constructor. }
  split; [exact Hb|].
  exact (select_loop_retries 1 ["main"; "dev"] ["main"; "dev"] [" 7 "; "1_0"; "feature"] ["2"]
           (plain_world ∅ ∅ [" 7 "; "1_0"; "feature"; "2"]) Hb eq_refl).
Defined.

Lemma extract_zip_writes_witness :
  exists m0 ms m rel, Some git_zip = Some (m0 :: ms) /\ In m (m0 :: ms) /\
    strip_prefix (first_segment (zm_filename m0) +:+ "/") (zm_filename m) = Some rel /\
    path_join "out" "README" = path_join "out" rel /\ member_written (zm_data m) = Some (BText "hi") /\
    rel <> EmptyString /\ starts_with ".git/" rel = false /\ rel <> ".git" /\ is_dir_name (zm_filename m) = false.
Proof.
  apply (extract_zip_writes (Some git_zip) "out" empty_world
           (fst (extract_zip (Some git_zip) "out" empty_world)) (snd (extract_zip (Some git_zip) "out" empty_world))).
  - apply surjective_pairing.
  - vm_compute. right. right. left. reflexivity.
Defined.

Lemma extract_zip_counts_witness :
  1%nat = length (written_paths [EvExtractZip "out"; EvMakeDirs "out"; EvWrite "out/README" (BText "hi")]) /\
  1%nat = length (List.filter (git_entry (first_segment (zm_filename (mkMember "r-main/" (MData (BText "")))) +:+ "/")) git_zip).
Proof.
  apply (extract_zip_counts (mkMember "r-main/" (MData (BText ""))) (tail git_zip) "out" empty_world).
  vm_compute. reflexivity.
Defined.

Lemma extract_zip_absolute_entry_witness :
  let '(d, r) := extract_zip (Some [mkMember ("r-main" +:+ "/" +:+ "/" +:+ "etc/x") (MData (BText "data"))]) "out" empty_world in
  Forall (fun e => e = EvExtractZip "out" \/ e = EvWrite ("/" +:+ "etc/x") (BText "data") \/
                   mkdir_in (dirname ("/" +:+ "etc/x")) e) d /\
  match r with
  | inr counts => counts = (1%nat, 0%nat) /\ written_files d = [("/" +:+ "etc/x", BText "data")]
  | inl e => is_os_error e = true
  end.
Proof. apply extract_zip_absolute_entry; reflexivity. Defined.



Lemma main_init_mode_witness :
  main api_remote no_git_config (mkArgs None (Some "o/r") false None) empty_world =
    match parse_repo_arg "o/r" with
    | inr (o, n) =>
        match open_write_err empty_world (path_join "." GITPULL_FILE) with
        | None => ([EvWrite (path_join "." GITPULL_FILE) (BText (github_url o n +:+ s_nl))], inr tt)
        | Some err => ([], inl (main_exit (os_exc err (path_join "." GITPULL_FILE))))
        end
    | inl _ => ([], inl (SystemExit 1))
    end.
Proof. apply main_init_mode. discriminate. Defined.

Lemma main_prompt_abort_witness :
  main api_remote no_git_config (mkArgs None None false None) (plain_world ∅ ∅ [nbsp]) =
    ([EvAskRepo; EvReadLine (Some nbsp)], inl (SystemExit 1)).
Proof.
  apply (main_prompt_abort api_remote no_git_config (mkArgs None None false None) (plain_world ∅ ∅ [nbsp]));
    [reflexivity|reflexivity|vm_compute; reflexivity|vm_compute; reflexivity|vm_compute; left; reflexivity].
Defined.


Lemma clone_origin_parses_witness : parse_github_url (github_url "o" "r") = inr ("o", "r").
Proof. apply (proj1 clone_origin_parses "o/r"); reflexivity. Defined.

Lemma main_exceptions_witness :
  OtherError "zlib.error" "Error -3 while decompressing data" = SystemExit 1 \/
  OtherError "zlib.error" "Error -3 while decompressing data" = SystemExit 130 \/
  (caught (OtherError "zlib.error" "Error -3 while decompressing data") = false /\
   escaping (demo_remote "abc" (HOk zlib_zip)) no_git_config (OtherError "zlib.error" "Error -3 while decompressing data")).
Proof.
  apply (main_exceptions (demo_remote "abc" (HOk zlib_zip)) no_git_config clone_args empty_world).
  vm_compute. reflexivity.
Defined.

Lemma explicit_branch_used_witness :
  Forall (fun e => branch_event_ok "dev" e = true)
    (fst (main api_remote no_git_config (mkArgs (Some "o/r") None false (Some "dev")) empty_world)).
Proof. apply explicit_branch_used. reflexivity. Defined.

Lemma bump_version_roundtrip_witness :
  exists c before g1 after,
    open_read (pkg_world "1.2.3") (init_path "pkg") = inr (BText c) /\
    univ_nl c = before +:+ g1 +:+ "1.2.3" +:+ after /\
    fst (bump_version "pkg" "patch" (pkg_world "1.2.3")) =
      [EvWrite (init_path "pkg") (BText (before +:+ g1 +:+ "1.2.4" +:+ after))] /\
    get_package_version "pkg" (pkg_world "1.2.3") = ([], inr "1.2.3") /\
    get_package_version "pkg" (apply_events (fst (bump_version "pkg" "patch" (pkg_world "1.2.3"))) (pkg_world "1.2.3")) =
      ([], inr "1.2.4").
Proof.
  apply (bump_version_roundtrip "pkg" "patch" (pkg_world "1.2.3") (fst (bump_version "pkg" "patch" (pkg_world "1.2.3")))
    "1.2.3" "1.2.4").
  vm_compute. reflexivity.
Defined.



Lemma version_record_roundtrip_witness :
  plain_text "0123abc" = true /\ stored_text "0123abc" = Some "0123abc".
Proof.
  split; [reflexivity|].
  apply (proj2 (version_record_roundtrip "0123abc" "." empty_world)). reflexivity.
Defined.

Lemma materialize_zip_failure_witness :
  materialize zip_blocked_remote false "o" "r" "main" "r" empty_world =
    ([EvDownloadZip "o" "r" "main"], inl (SystemExit 1)).
Proof.
  apply (materialize_zip_failure zip_blocked_remote "o" "r" "main" "r" empty_world).
  right. exists "blocked". reflexivity.
Defined.
